(** * Snowball: layout engine, interaction handlers, event bus and state store

    A shallow embedding of the JavaScript sources under [scripts/] and the
    properties of the design document stated over it.

    Conventions of the embedding
    - The layout code floors every size it computes and places tiles on
      whole pixels, so [ImageManager] and [DragHandler] carry pixel
      geometry (positions, sizes, pointer coordinates) by [Z]: they are
      the code on a page whose lengths are whole pixels, where the
      [parseInt] of the drag handler changes nothing.
    - [Fractional] is the drag handler without that assumption, over [Q],
      with [parseInt] written out; [ImageManager.Load] is the loading of a
      page, where an array entry can be [undefined].
    - The resize pipeline divides by the aspect ratio, so it is carried by
      [Q] (exact rationals standing for the JavaScript numbers).
    - JavaScript values that cross the storage boundary are a small
      inductive type [value]; objects are association lists in key order.
    - Mutable objects become explicit state records that are threaded
      through the functions; an emitted event is appended to a log. *)

From Stdlib Require Import ZArith QArith Qminmax Qround Lia Lqa String.
From stdpp Require Import gmap strings list pretty.

Local Open Scope Z_scope.
Local Set Warnings "-register-all".

(** ** ImageManager: scaling, grid placement and collision detection *)

Module ImageManager.

(** [this.config] of the constructor (the fields the geometry uses). *)
Record config := Config {
  minSpacing : Z;
  gridSize : Z;
  goalPixels : Z
}.

Definition default_config : config :=
  {| minSpacing := 20; gridSize := 50; goalPixels := 150000 |}.

(** [this.positions] and [this.sizes]: two parallel arrays. *)
Record t := Make {
  positions : list (Z * Z);
  sizes : list (Z * Z)
}.

(** The body of the [metadata.map] callback in [calculateScaledSizes].
    [actualPixels / goalPixels > k] is written [k * goalPixels < w * h]
    (the goal is positive); [Math.floor (w / k)] on integers is [w / k].
    The clamped height [Math.floor (sh * (sw / (w / 2)))] is taken over
    exact numbers, as the floor of [sh * sw * 2 / w]; the source rounds
    the quotient to a double first, which can put the floor one below
    when the exact product is a whole number. *)
Definition scaledSize (cfg : config) (effectiveWidth : Z) (wh : Z * Z) : Z * Z :=
  let '(w, h) := wh in
  let actualPixels := w * h in
  let '(scaledWidth, scaledHeight) :=
    if 16 * goalPixels cfg <? actualPixels then (w / 8, h / 8)
    else if 4 * goalPixels cfg <? actualPixels then (w / 4, h / 4)
    else (w / 2, h / 2) in
  if effectiveWidth <? scaledWidth + 10 then
    let scaledWidth' := effectiveWidth - 10 in
    (scaledWidth', (scaledHeight * scaledWidth' * 2) / w)
  else (scaledWidth, scaledHeight).

Definition calculateScaledSizes (cfg : config) (effectiveWidth : Z)
    (metadata : list (string * (Z * Z))) : list (Z * Z) :=
  map (fun entry => scaledSize cfg effectiveWidth (snd entry)) metadata.

(** [calculatePosition]: the row-major grid in use (the scanning
    algorithm after the [return] is commented out in the source). JS [%]
    is [Z.rem]; [index] is a non-negative array index. *)
Definition calculatePosition (screenWidth : Z) (size : Z * Z) (index : Z) : Z * Z :=
  let '(width, height) := size in
  let cols := Z.max 1 (screenWidth / (width + 20)) in
  let row := index / cols in
  let col := Z.rem index cols in
  (col * (width + 20) + 10, row * (height + 20) + 10).

(** The test inside the loop of [wouldOverlap]. *)
Definition boxesOverlap (buffer x y width height otherX otherY otherWidth otherHeight : Z)
    : bool :=
  (x <? otherX + otherWidth + buffer) &&
  (otherX <? x + width + buffer) &&
  (otherY <? y + height + buffer) &&
  (y <? otherY + otherHeight + buffer).

(** The loop of [wouldOverlap], from index [i] on; [ps] is the rest of
    [this.positions]. Destructuring [this.sizes[i]] when it is missing
    raises a TypeError: [None]. *)
Fixpoint wouldOverlap_from (buffer : Z) (szs : list (Z * Z)) (x y width height excludeIndex : Z)
    (i : nat) (ps : list (Z * Z)) : option bool :=
  match ps with
  | [] => Some false
  | (otherX, otherY) :: ps' =>
      if Z.of_nat i =? excludeIndex
      then wouldOverlap_from buffer szs x y width height excludeIndex (S i) ps'
      else match szs !! i with
           | None => None
           | Some (otherWidth, otherHeight) =>
               if boxesOverlap buffer x y width height otherX otherY otherWidth otherHeight
               then Some true
               else wouldOverlap_from buffer szs x y width height excludeIndex (S i) ps'
           end
  end.

Definition wouldOverlap (cfg : config) (im : t) (x y width height excludeIndex : Z)
    : option bool :=
  wouldOverlap_from (minSpacing cfg) (sizes im) x y width height excludeIndex
    0%nat (positions im).

(** [updateImagePosition]: the bounds check is the source's. *)
Definition updateImagePosition (im : t) (index : Z) (position : Z * Z) : t :=
  if (0 <=? index) && (index <? Z.of_nat (length (positions im)))
  then {| positions := <[Z.to_nat index := position]> (positions im);
          sizes := sizes im |}
  else im.

(** Loading: [loadImages], [clearAllImages], [loadImagesProgressively]
    and [loadSingleImage], as far as the two arrays and the
    ['image:error'] events go. *)
Module Load.

(** What [stateManager.getImageState (filename)] hands to
    [loadSingleImage]: [null]; a saved placement; or another truthy
    value, which has neither [position] nor [size] (for a filename such
    as ["constructor"] the lookup finds a member of [Object.prototype]). *)
Inductive savedState :=
| Null
| Placement (position size : Z * Z)
| Other.

(** [this.positions], [this.sizes] and the ['image:error'] events emitted
    so far (filename and index). An entry of either array can be
    [undefined]: [None]; [this.sizes] is written by index and can get
    holes, which read as [undefined] too. *)
Record t := Make {
  positions : list (option (Z * Z));
  sizes : list (option (Z * Z));
  errors : list (string * nat)
}.

(** [array[i] = v]: in place when [i] is in range; past the end the
    array is extended, with holes up to [i]. *)
Definition assign {X} (i : nat) (v : option X) (array : list (option X))
    : list (option X) :=
  if decide (i < length array)%nat then <[i := v]> array
  else array ++ replicate (i - length array) None ++ [v].

(** [array[i]]: [undefined] in a hole and past the end. *)
Definition at_ {X} (array : list (option X)) (i : nat) : option X := mjoin (array !! i).

(** [clearAllImages]. *)
Definition clearAllImages (st : t) : t :=
  {| positions := []; sizes := []; errors := errors st |}.

(** How a call of [loadSingleImage] ends, and the arrays it leaves. *)
Inductive result :=
| Loaded (st : t)
| Raised (st : t).

(** [loadSingleImage], the document taken to accept the new container.
    With a saved state, position and size are its [position] and [size]:
    they go into the arrays, and when they are [undefined] the
    [finalSize[0]] that follows raises a TypeError. Without one,
    [calculatePosition (scaledSize, index)] destructures [scaledSize] and
    raises a TypeError when that is [undefined]. *)
Definition loadSingleImage (screenWidth : Z) (savedState : savedState)
    (scaledSize : option (Z * Z)) (index : nat) (st : t) : result :=
  match savedState with
  | Placement finalPosition finalSize =>
      Loaded {| positions := positions st ++ [Some finalPosition];
                sizes := assign index (Some finalSize) (sizes st);
                errors := errors st |}
  | Other =>
      Raised {| positions := positions st ++ [None];
                sizes := assign index None (sizes st);
                errors := errors st |}
  | Null =>
      match scaledSize with
      | Some size =>
          Loaded {| positions :=
                      positions st ++ [Some (calculatePosition screenWidth size (Z.of_nat index))];
                    sizes := sizes st; errors := errors st |}
      | None => Raised st
      end
  end.

(** The loop of [loadImagesProgressively], from index [i] on: the
    [catch] emits ['image:error'] and the loop goes on. *)
Fixpoint loadFrom (screenWidth : Z) (getImageState : string -> savedState)
    (i : nat) (metadata : list (string * (Z * Z))) (st : t) : t :=
  match metadata with
  | [] => st
  | (filename, originalSize) :: rest =>
      let scaledSize := at_ (sizes st) i in
      let st' :=
        match loadSingleImage screenWidth (getImageState filename) scaledSize i st with
        | Loaded st' => st'
        | Raised st' => {| positions := positions st'; sizes := sizes st';
                           errors := errors st' ++ [(filename, i)] |}
        end in
      loadFrom screenWidth getImageState (S i) rest st'
  end.

(** [loadImagesProgressively]. *)
Definition loadImagesProgressively (screenWidth : Z)
    (getImageState : string -> savedState)
    (metadata : list (string * (Z * Z))) (st : t) : t :=
  loadFrom screenWidth getImageState 0 metadata
    {| positions := []; sizes := sizes st; errors := errors st |}.

(** [loadImages] once the order of [processedMetadata] is fixed:
    [calculateScaledSizes] fills [this.sizes], [clearAllImages] empties
    both arrays again, then the progressive loop runs. *)
Definition loadImages (cfg : config) (screenWidth : Z)
    (getImageState : string -> savedState)
    (processedMetadata : list (string * (Z * Z))) : t :=
  let scaled :=
    {| positions := [];
       sizes := Some <$> calculateScaledSizes cfg screenWidth processedMetadata;
       errors := [] |} in
  loadImagesProgressively screenWidth getImageState processedMetadata (clearAllImages scaled).

(** The position and the size a saved state contributes. *)
Definition savedPosition (s : savedState) : option (option (Z * Z)) :=
  match s with
  | Null => None
  | Placement position _ => Some (Some position)
  | Other => Some None
  end.

Definition savedSize (s : savedState) : option (Z * Z) :=
  match s with
  | Placement _ size => Some size
  | _ => None
  end.

End Load.

(** [shuffleArray]: for [i] from the last index down to 1, swap the
entries at [i] and at [j = Math.floor (Math.random () * (i + 1))].
[draws] holds the successive values of [j]; the loop is at index [i]. *)
Fixpoint shuffleFrom {X} (i : nat) (draws : list nat) (array : list X) : list X :=
  match i, draws with
  | S i', j :: rest =>
      match array !! i, array !! j with
      | Some ai, Some aj => shuffleFrom i' rest (<[j := ai]> (<[i := aj]> array))
      | _, _ => shuffleFrom i' rest array
      end
  | _, _ => array
  end.

Definition shuffleArray {X} (draws : list nat) (array : list X) : list X :=
  shuffleFrom (length array - 1) draws array.

(** No two distinct tiles overlap, buffer included. *)
Definition tilesOverlap (cfg : config) (p1 s1 p2 s2 : Z * Z) : bool :=
  boxesOverlap (minSpacing cfg) p1.1 p1.2 s1.1 s1.2 p2.1 p2.2 s2.1 s2.2.

Definition noOverlap (cfg : config) (im : t) : Prop :=
  forall (i j : nat) p1 s1 p2 s2, i <> j ->
    positions im !! i = Some p1 -> sizes im !! i = Some s1 ->
    positions im !! j = Some p2 -> sizes im !! j = Some s2 ->
    tilesOverlap cfg p1 s1 p2 s2 = false.

(** [updateImageSize]: the bounds check is the source's. *)
Definition updateImageSize (im : t) (index : Z) (size : Z * Z) : t :=
  if (0 <=? index) && (index <? Z.of_nat (length (sizes im)))
  then {| positions := positions im;
          sizes := <[Z.to_nat index := size]> (sizes im) |}
  else im.

(** The values a loop [for (v = 0; v <= limit; v += step)] takes, for a
    positive [step] (with any other step the loop of the source does not
    end). *)
Definition gridSteps (step limit : Z) : list Z :=
  if limit <? 0 then []
  else (fun k => Z.of_nat k * step) <$> seq 0 (Z.to_nat (limit / step) + 1).

(** The inner loop of [tryGridPlacement], over the [x] of one row. The
    outer [option] is the TypeError of [wouldOverlap], the inner one the
    position found, if any. *)
Fixpoint scanRow (cfg : config) (im : t) (width height y : Z) (xs : list Z)
    : option (option (Z * Z)) :=
  match xs with
  | [] => Some None
  | x :: rest =>
      match wouldOverlap cfg im x y width height (-1) with
      | None => None
      | Some false => Some (Some (x, y))
      | Some true => scanRow cfg im width height y rest
      end
  end.

(** The outer loop of [tryGridPlacement], over the rows. *)
Fixpoint scanRows (cfg : config) (im : t) (width height : Z) (xs ys : list Z)
    : option (option (Z * Z)) :=
  match ys with
  | [] => Some None
  | y :: rest =>
      match scanRow cfg im width height y xs with
      | None => None
      | Some (Some p) => Some (Some p)
      | Some None => scanRows cfg im width height xs rest
      end
  end.

(** [tryGridPlacement]: the first free point of the grid, rows first;
    [Some None] is the [null] of an exhausted search. *)
Definition tryGridPlacement (cfg : config) (im : t) (width height screenWidth searchHeight : Z)
    : option (option (Z * Z)) :=
  let maxX := screenWidth - width in
  let maxY := searchHeight - height in
  scanRows cfg im width height (gridSteps (gridSize cfg) maxX) (gridSteps (gridSize cfg) maxY).

End ImageManager.

(** ** DragHandler: pointer-driven translation of a tile

    The handler on a page whose lengths (tile positions and extents, the
    width of the container, pointer coordinates) are whole pixels. *)

Module DragHandler.

(** [this.config] of the constructor ([animationDuration] is
    presentation only). *)
Record config := Config {
  minSpacing : Z;
  snapToGrid : bool;
  gridSize : Z;
  boundaryPadding : Z
}.

Definition default_config : config :=
  {| minSpacing := 20; snapToGrid := false; gridSize := 10; boundaryPadding := 10 |}.

(** What the handlers read and write of a tile's DOM element:
    [style.left], [style.top], the extent of its bounding rectangle, the
    [data-drag-index] attribute and the [overlap-warning] class. *)
Record element := Element {
  left : Z;
  top : Z;
  width : Z;
  height : Z;
  dragIndex : Z;
  overlapWarning : bool
}.

(** The drag state of the handler. [currentContainer] is a reference to
    an element: its slot in the document. *)
Record t := Make {
  isDragging : bool;
  currentContainer : option nat;
  startPosition : Z * Z;
  initialPosition : Z * Z
}.

Definition idle : t :=
  {| isDragging := false; currentContainer := None;
     startPosition := (0, 0); initialPosition := (0, 0) |}.

Inductive event :=
| DragStart (index : Z) (position : Z * Z)
| DragMove (index : Z) (position : Z * Z) (wouldOverlap : bool)
| DragCancelled (index : Z) (reason : string) (originalPosition attemptedPosition : Z * Z)
| DragEnd (index : Z) (position previousPosition : Z * Z).

(** The document, the filenames of the image manager's [this.metadata],
    the image manager the handler was built with, the handler itself, the
    events emitted so far (latest last) and the placements handed to the
    state store by [handleDragEnd]. *)
Record world := World {
  dom : list element;
  containerWidth : Z;
  filenames : list string;
  im : ImageManager.t;
  dh : t;
  emitted : list event;
  persisted : list (string * ((Z * Z) * option (Z * Z)))
}.

Definition setElement (w : world) (c : nat) (e : element) : world :=
  {| dom := <[c := e]> (dom w); containerWidth := containerWidth w;
     filenames := filenames w; im := im w; dh := dh w; emitted := emitted w;
     persisted := persisted w |}.

Definition setHandler (w : world) (h : t) : world :=
  {| dom := dom w; containerWidth := containerWidth w; filenames := filenames w;
     im := im w; dh := h; emitted := emitted w; persisted := persisted w |}.

(** [ImageManager.getFilenameByIndex], on the filenames of
[this.metadata]. *)
Definition getFilenameByIndex (names : list string) (index : Z) : option string :=
  if (index <? 0) || (Z.of_nat (length names) <=? index) then None
  else names !! Z.to_nat index.

(** [ImageManager.handleDragEnd], the subscriber of ['drag:end']:
[updateImagePosition], then, when the index has a (non-empty) filename,
the position and [this.sizes[index]] go to the state store under it. *)
Definition handleDragEnd (w : world) (index : Z) (position : Z * Z) : world :=
  let im' := ImageManager.updateImagePosition (im w) index position in
  {| dom := dom w; containerWidth := containerWidth w; filenames := filenames w;
     im := im'; dh := dh w; emitted := emitted w;
     persisted :=
       match getFilenameByIndex (filenames w) index with
       | Some filename =>
           if String.eqb filename "" then persisted w
           else persisted w ++
                  [(filename, (position, ImageManager.sizes im' !! Z.to_nat index))]
       | None => persisted w
       end |}.

(** [eventBus.emit]: the event is logged and the subscribers of this
    development run ([handleDragEnd] on ['drag:end']). *)
Definition emit (w : world) (ev : event) : world :=
  let w' := {| dom := dom w; containerWidth := containerWidth w;
               filenames := filenames w; im := im w; dh := dh w;
               emitted := emitted w ++ [ev]; persisted := persisted w |} in
  match ev with
  | DragEnd index position _ => handleDragEnd w' index position
  | _ => w'
  end.

(** [startDrag]. On a whole pixel, [parseInt (style.left) || 0] is the
    value itself. *)
Definition startDrag (w : world) (c : nat) (clientX clientY : Z) : world :=
  if isDragging (dh w) then w
  else match dom w !! c with
       | None => w
       | Some e =>
           let initial := (left e, top e) in
           let w1 := setHandler w {| isDragging := true; currentContainer := Some c;
                                     startPosition := (clientX, clientY);
                                     initialPosition := initial |} in
           emit w1 (DragStart (dragIndex e) initial)
       end.

(** [applyBoundaryConstraints]: clamped on the left, right and top, free
    downwards. *)
Definition applyBoundaryConstraints (cfg : config) (w : world) (e : element) (x y : Z)
    : Z * Z :=
  let minX := boundaryPadding cfg in
  let minY := boundaryPadding cfg in
  let maxX := containerWidth w - width e - boundaryPadding cfg in
  (Z.max minX (Z.min x maxX), Z.max minY y).

(** [Math.round (v / g) * g] for a positive step: round half up. *)
Definition snap (g v : Z) : Z := ((2 * v + g) / (2 * g)) * g.

(** [checkOverlap]: the extent comes from the dragged element, the test
    is the image manager's (the handler is built with one). *)
Definition checkOverlap (icfg : ImageManager.config) (w : world) (e : element)
    (x y excludeIndex : Z) : option bool :=
  ImageManager.wouldOverlap icfg (im w) x y (width e) (height e) excludeIndex.

(** [updateDragPosition]. *)
Definition updateDragPosition (cfg : config) (icfg : ImageManager.config)
    (w : world) (clientX clientY : Z) : option world :=
  match currentContainer (dh w) with
  | None => Some w
  | Some c =>
      match dom w !! c with
      | None => None
      | Some e =>
          let deltaX := clientX - (startPosition (dh w)).1 in
          let deltaY := clientY - (startPosition (dh w)).2 in
          let '(newX, newY) :=
            applyBoundaryConstraints cfg w e
              ((initialPosition (dh w)).1 + deltaX) ((initialPosition (dh w)).2 + deltaY) in
          let '(newX, newY) :=
            if snapToGrid cfg then (snap (gridSize cfg) newX, snap (gridSize cfg) newY)
            else (newX, newY) in
          let index := dragIndex e in
          match checkOverlap icfg w e newX newY index with
          | None => None
          | Some wouldOverlap =>
              let e' := {| left := newX; top := newY; width := width e; height := height e;
                           dragIndex := index; overlapWarning := wouldOverlap |} in
              Some (emit (setElement w c e') (DragMove index (newX, newY) wouldOverlap))
          end
      end
  end.

(** [endDrag]. On whole pixels, [parseInt] of [style.left] and
    [style.top] is the position itself. *)
Definition endDrag (icfg : ImageManager.config) (w : world) : option world :=
  if negb (isDragging (dh w)) then Some w
  else match currentContainer (dh w) with
       | None => Some w
       | Some c =>
           match dom w !! c with
           | None => None
           | Some e =>
               let index := dragIndex e in
               let finalPosition := (left e, top e) in
               match checkOverlap icfg w e finalPosition.1 finalPosition.2 index with
               | None => None
               | Some wouldOverlap =>
                   let w1 :=
                     if wouldOverlap then
                       let e' := {| left := (initialPosition (dh w)).1;
                                    top := (initialPosition (dh w)).2;
                                    width := width e; height := height e;
                                    dragIndex := index;
                                    overlapWarning := overlapWarning e |} in
                       emit (setElement w c e')
                         (DragCancelled index "overlap" (initialPosition (dh w)) finalPosition)
                     else
                       emit w (DragEnd index finalPosition (initialPosition (dh w))) in
                   (* Cleanup *)
                   let w2 :=
                     match dom w1 !! c with
                     | None => w1
                     | Some e1 =>
                         setElement w1 c
                           {| left := left e1; top := top e1; width := width e1;
                              height := height e1; dragIndex := dragIndex e1;
                              overlapWarning := false |}
                     end in
                   Some (setHandler w2 {| isDragging := false; currentContainer := None;
                                          startPosition := startPosition (dh w);
                                          initialPosition := initialPosition (dh w) |})
               end
           end
       end.

(** Pointer input: mouse and single-touch handlers do the same. *)
Inductive input :=
| PointerDown (target : nat) (onResizeHandle : bool) (clientX clientY : Z)
| PointerMove (clientX clientY : Z)
| PointerUp.

(** [handleMouseDown], [handleMouseMove], [handleMouseUp] and their
    touch twins. *)
Definition handle (cfg : config) (icfg : ImageManager.config) (w : world) (i : input)
    : option world :=
  match i with
  | PointerDown target onResizeHandle clientX clientY =>
      if onResizeHandle then Some w else Some (startDrag w target clientX clientY)
  | PointerMove clientX clientY =>
      if negb (isDragging (dh w)) then Some w
      else updateDragPosition cfg icfg w clientX clientY
  | PointerUp =>
      if negb (isDragging (dh w)) then Some w else endDrag icfg w
  end.

Fixpoint run (cfg : config) (icfg : ImageManager.config) (w : world) (inputs : list input)
    : option world :=
  match inputs with
  | [] => Some w
  | i :: rest =>
      match handle cfg icfg w i with
      | None => None
      | Some w' => run cfg icfg w' rest
      end
  end.

(** A page that shows the tiles of an image manager: one element per
    tile, placed and sized by [setPosition] and [setSize], attached under
    its own index. *)
Definition elementsOf (m : ImageManager.t) : list element :=
  imap (fun i ps =>
          {| left := ps.1.1; top := ps.1.2; width := ps.2.1; height := ps.2.2;
             dragIndex := Z.of_nat i; overlapWarning := false |})
       (zip (ImageManager.positions m) (ImageManager.sizes m)).

Definition loaded (screenWidth : Z) (names : list string) (m : ImageManager.t) : world :=
  {| dom := elementsOf m; containerWidth := screenWidth; filenames := names; im := m;
     dh := idle; emitted := []; persisted := [] |}.

Definition isDragEnd (ev : event) : bool :=
  match ev with DragEnd _ _ _ => true | _ => false end.

(** The page and the image manager agree: one element per tile, under
    its own index and with the tile's size, and the handler holds a
    reference to an element of the page. *)
Definition consistent (w : world) : Prop :=
  length (dom w) = length (ImageManager.positions (im w)) /\
  length (ImageManager.sizes (im w)) = length (ImageManager.positions (im w)) /\
  (forall (i : nat) e, dom w !! i = Some e ->
     dragIndex e = Z.of_nat i /\
     ImageManager.sizes (im w) !! i = Some (width e, height e)) /\
  (forall c, currentContainer (dh w) = Some c -> (c < length (dom w))%nat).

(** The page shows every tile where the image manager has it, except
    the tile being dragged, whose place in the image manager is the
    position the drag started from. *)
Definition inPlace (w : world) : Prop :=
  forall (i : nat) e p, dom w !! i = Some e ->
    ImageManager.positions (im w) !! i = Some p ->
    if isDragging (dh w) && bool_decide (currentContainer (dh w) = Some i)
    then initialPosition (dh w) = p
    else (left e, top e) = p.

End DragHandler.

(** ** DragHandler on a page with fractional lengths

    Bounding rectangles and pointer coordinates are JavaScript numbers,
    not whole pixels, and the right-hand clamp of
    [applyBoundaryConstraints] puts a tile at [containerRect.width -
    elementRect.width - boundaryPadding], which is fractional as soon as
    one of the two widths is. This module carries the drag handler, and the
    functions of the image manager that it calls, over [Q], with the
    [parseInt] of [startDrag] and [endDrag] written out. *)

Module Fractional.

Local Open Scope Q_scope.

(** [parseInt] of a pixel length such as ["740.5px"]: the digits before
    the decimal point, that is, the length truncated towards zero (for a
    length that prints without an exponent, as the lengths of a page
    do). *)
Definition parseInt (px : Q) : Z := Z.quot (Qnum px) (Zpos (Qden px)).

(** [a < b] and [a > b] on numbers. *)
Definition ltb (a b : Q) : bool := negb (Qle_bool b a).
Definition gtb (a b : Q) : bool := negb (Qle_bool a b).

(** [Math.round]: to the nearest integer, halves upwards. *)
Definition round (x : Q) : Q := inject_Z (Qfloor (x + (1 # 2))).

(** [this.positions] and [this.sizes] of the image manager. *)
Record manager := Manager {
  positions : list (Q * Q);
  sizes : list (Q * Q)
}.

(** The test inside the loop of [ImageManager.wouldOverlap]. *)
Definition boxesOverlap (buffer x y width height otherX otherY otherWidth otherHeight : Q)
    : bool :=
  ltb x (otherX + otherWidth + buffer) &&
  gtb (x + width + buffer) otherX &&
  gtb (y + height + buffer) otherY &&
  ltb y (otherY + otherHeight + buffer).

(** The loop of [ImageManager.wouldOverlap], from index [i] on;
    destructuring a missing [this.sizes[i]] raises a TypeError: [None]. *)
Fixpoint wouldOverlap_from (buffer : Q) (szs : list (Q * Q)) (x y width height : Q)
    (excludeIndex : Z) (i : nat) (ps : list (Q * Q)) : option bool :=
  match ps with
  | [] => Some false
  | (otherX, otherY) :: ps' =>
      if (Z.of_nat i =? excludeIndex)%Z
      then wouldOverlap_from buffer szs x y width height excludeIndex (S i) ps'
      else match szs !! i with
           | None => None
           | Some (otherWidth, otherHeight) =>
               if boxesOverlap buffer x y width height otherX otherY otherWidth otherHeight
               then Some true
               else wouldOverlap_from buffer szs x y width height excludeIndex (S i) ps'
           end
  end.

Definition wouldOverlap (cfg : ImageManager.config) (im : manager)
    (x y width height : Q) (excludeIndex : Z) : option bool :=
  wouldOverlap_from (inject_Z (ImageManager.minSpacing cfg)) (sizes im) x y width height
    excludeIndex 0%nat (positions im).

(** [ImageManager.updateImagePosition]. *)
Definition updateImagePosition (im : manager) (index : Z) (position : Q * Q) : manager :=
  if ((0 <=? index) && (index <? Z.of_nat (length (positions im))))%Z
  then {| positions := <[Z.to_nat index := position]> (positions im);
          sizes := sizes im |}
  else im.

(** A tile's DOM element: [style.left], [style.top], the extent of its
    bounding rectangle, [data-drag-index] and the [overlap-warning]
    class. *)
Record element := Element {
  left : Q;
  top : Q;
  width : Q;
  height : Q;
  dragIndex : Z;
  overlapWarning : bool
}.

(** The drag state of the handler; [initialPosition] holds the results
    of [parseInt]. *)
Record t := Make {
  isDragging : bool;
  currentContainer : option nat;
  startPosition : Q * Q;
  initialPosition : Z * Z
}.

Definition idle : t :=
  {| isDragging := false; currentContainer := None;
     startPosition := (0, 0); initialPosition := (0%Z, 0%Z) |}.

Inductive event :=
| DragStart (index : Z) (position : Z * Z)
| DragMove (index : Z) (position : Q * Q) (wouldOverlap : bool)
| DragCancelled (index : Z) (reason : string) (originalPosition attemptedPosition : Z * Z)
| DragEnd (index : Z) (position previousPosition : Z * Z).

Record world := World {
  dom : list element;
  containerWidth : Q;
  filenames : list string;
  im : manager;
  dh : t;
  emitted : list event;
  persisted : list (string * ((Z * Z) * option (Q * Q)))
}.

Definition setElement (w : world) (c : nat) (e : element) : world :=
  {| dom := <[c := e]> (dom w); containerWidth := containerWidth w;
     filenames := filenames w; im := im w; dh := dh w; emitted := emitted w;
     persisted := persisted w |}.

Definition setHandler (w : world) (h : t) : world :=
  {| dom := dom w; containerWidth := containerWidth w; filenames := filenames w;
     im := im w; dh := h; emitted := emitted w; persisted := persisted w |}.

(** A whole-pixel position as a pair of numbers. *)
Definition inject (position : Z * Z) : Q * Q :=
  (inject_Z position.1, inject_Z position.2).

(** [ImageManager.handleDragEnd], the subscriber of ['drag:end']. *)
Definition handleDragEnd (w : world) (index : Z) (position : Z * Z) : world :=
  let im' := updateImagePosition (im w) index (inject position) in
  {| dom := dom w; containerWidth := containerWidth w; filenames := filenames w;
     im := im'; dh := dh w; emitted := emitted w;
     persisted :=
       match DragHandler.getFilenameByIndex (filenames w) index with
       | Some filename =>
           if String.eqb filename "" then persisted w
           else persisted w ++ [(filename, (position, sizes im' !! Z.to_nat index))]
       | None => persisted w
       end |}.

(** [eventBus.emit]: the event is logged and [handleDragEnd] runs on
    ['drag:end']. *)
Definition emit (w : world) (ev : event) : world :=
  let w' := {| dom := dom w; containerWidth := containerWidth w;
               filenames := filenames w; im := im w; dh := dh w;
               emitted := emitted w ++ [ev]; persisted := persisted w |} in
  match ev with
  | DragEnd index position _ => handleDragEnd w' index position
  | _ => w'
  end.

(** [startDrag]: [initialPosition] is [parseInt] of [style.left] and
    [style.top] ([|| 0] changes nothing on a number). *)
Definition startDrag (w : world) (c : nat) (clientX clientY : Q) : world :=
  if isDragging (dh w) then w
  else match dom w !! c with
       | None => w
       | Some e =>
           let initial := (parseInt (left e), parseInt (top e)) in
           let w1 := setHandler w {| isDragging := true; currentContainer := Some c;
                                     startPosition := (clientX, clientY);
                                     initialPosition := initial |} in
           emit w1 (DragStart (dragIndex e) initial)
       end.

(** [applyBoundaryConstraints]. *)
Definition applyBoundaryConstraints (cfg : DragHandler.config) (w : world) (e : element)
    (x y : Q) : Q * Q :=
  let minX := inject_Z (DragHandler.boundaryPadding cfg) in
  let minY := inject_Z (DragHandler.boundaryPadding cfg) in
  let maxX := containerWidth w - width e - inject_Z (DragHandler.boundaryPadding cfg) in
  (Qmax minX (Qmin x maxX), Qmax minY y).

(** [checkOverlap]. *)
Definition checkOverlap (icfg : ImageManager.config) (w : world) (e : element)
    (x y : Q) (excludeIndex : Z) : option bool :=
  wouldOverlap icfg (im w) x y (width e) (height e) excludeIndex.

(** [updateDragPosition]. *)
Definition updateDragPosition (cfg : DragHandler.config) (icfg : ImageManager.config)
    (w : world) (clientX clientY : Q) : option world :=
  match currentContainer (dh w) with
  | None => Some w
  | Some c =>
      match dom w !! c with
      | None => None
      | Some e =>
          let deltaX := clientX - (startPosition (dh w)).1 in
          let deltaY := clientY - (startPosition (dh w)).2 in
          let '(newX, newY) :=
            applyBoundaryConstraints cfg w e
              (inject_Z (initialPosition (dh w)).1 + deltaX)
              (inject_Z (initialPosition (dh w)).2 + deltaY) in
          let '(newX, newY) :=
            if DragHandler.snapToGrid cfg then
              let gridSize := inject_Z (DragHandler.gridSize cfg) in
              (round (newX / gridSize) * gridSize, round (newY / gridSize) * gridSize)
            else (newX, newY) in
          let index := dragIndex e in
          match checkOverlap icfg w e newX newY index with
          | None => None
          | Some wouldOverlap =>
              let e' := {| left := newX; top := newY; width := width e; height := height e;
                           dragIndex := index; overlapWarning := wouldOverlap |} in
              Some (emit (setElement w c e') (DragMove index (newX, newY) wouldOverlap))
          end
      end
  end.

(** [endDrag]: the final position is [parseInt] of [style.left] and
    [style.top]; a revert writes [initialPosition] back. *)
Definition endDrag (icfg : ImageManager.config) (w : world) : option world :=
  if negb (isDragging (dh w)) then Some w
  else match currentContainer (dh w) with
       | None => Some w
       | Some c =>
           match dom w !! c with
           | None => None
           | Some e =>
               let index := dragIndex e in
               let finalPosition := (parseInt (left e), parseInt (top e)) in
               match checkOverlap icfg w e (inject_Z finalPosition.1)
                       (inject_Z finalPosition.2) index with
               | None => None
               | Some wouldOverlap =>
                   let w1 :=
                     if wouldOverlap then
                       let e' := {| left := inject_Z (initialPosition (dh w)).1;
                                    top := inject_Z (initialPosition (dh w)).2;
                                    width := width e; height := height e;
                                    dragIndex := index;
                                    overlapWarning := overlapWarning e |} in
                       emit (setElement w c e')
                         (DragCancelled index "overlap" (initialPosition (dh w)) finalPosition)
                     else
                       emit w (DragEnd index finalPosition (initialPosition (dh w))) in
                   (* Cleanup *)
                   let w2 :=
                     match dom w1 !! c with
                     | None => w1
                     | Some e1 =>
                         setElement w1 c
                           {| left := left e1; top := top e1; width := width e1;
                              height := height e1; dragIndex := dragIndex e1;
                              overlapWarning := false |}
                     end in
                   Some (setHandler w2 {| isDragging := false; currentContainer := None;
                                          startPosition := startPosition (dh w);
                                          initialPosition := initialPosition (dh w) |})
               end
           end
       end.

Inductive input :=
| PointerDown (target : nat) (onResizeHandle : bool) (clientX clientY : Q)
| PointerMove (clientX clientY : Q)
| PointerUp.

(** [handleMouseDown], [handleMouseMove], [handleMouseUp] and their
    touch twins. *)
Definition handle (cfg : DragHandler.config) (icfg : ImageManager.config) (w : world)
    (i : input) : option world :=
  match i with
  | PointerDown target onResizeHandle clientX clientY =>
      if onResizeHandle then Some w else Some (startDrag w target clientX clientY)
  | PointerMove clientX clientY =>
      if negb (isDragging (dh w)) then Some w
      else updateDragPosition cfg icfg w clientX clientY
  | PointerUp =>
      if negb (isDragging (dh w)) then Some w else endDrag icfg w
  end.

Fixpoint run (cfg : DragHandler.config) (icfg : ImageManager.config) (w : world)
    (inputs : list input) : option world :=
  match inputs with
  | [] => Some w
  | i :: rest =>
      match handle cfg icfg w i with
      | None => None
      | Some w' => run cfg icfg w' rest
      end
  end.

(** A page that shows the tiles of an image manager: one element per
    tile, placed and sized by [setPosition] and [setSize], attached under
    its own index. *)
Definition elementsOf (m : manager) : list element :=
  imap (fun i ps =>
          {| left := ps.1.1; top := ps.1.2; width := ps.2.1; height := ps.2.2;
             dragIndex := Z.of_nat i; overlapWarning := false |})
       (zip (positions m) (sizes m)).

Definition loaded (containerWidth : Q) (names : list string) (m : manager) : world :=
  {| dom := elementsOf m; containerWidth := containerWidth; filenames := names; im := m;
     dh := idle; emitted := []; persisted := [] |}.

Definition tilesOverlap (cfg : ImageManager.config) (p1 s1 p2 s2 : Q * Q) : bool :=
  boxesOverlap (inject_Z (ImageManager.minSpacing cfg))
    p1.1 p1.2 s1.1 s1.2 p2.1 p2.2 s2.1 s2.2.

(** No two tiles of the image manager have intersecting buffered
    boxes. *)
Definition noOverlap (cfg : ImageManager.config) (im : manager) : Prop :=
  forall (i j : nat) p1 s1 p2 s2, i <> j ->
    positions im !! i = Some p1 -> sizes im !! i = Some s1 ->
    positions im !! j = Some p2 -> sizes im !! j = Some s2 ->
    tilesOverlap cfg p1 s1 p2 s2 = false.

(** The page and the image manager agree: one element per tile, under
    its own index and with the tile's size, and the handler holds a
    reference to an element of the page. *)
Definition consistent (w : world) : Prop :=
  length (dom w) = length (positions (im w)) /\
  length (sizes (im w)) = length (positions (im w)) /\
  (forall (i : nat) e, dom w !! i = Some e ->
     dragIndex e = Z.of_nat i /\ sizes (im w) !! i = Some (width e, height e)) /\
  (forall c, currentContainer (dh w) = Some c -> (c < length (dom w))%nat).

(** A position in whole pixels, as [parseInt] reads it. *)
Definition pixel (position : Q * Q) : Z * Z := (parseInt position.1, parseInt position.2).

(** The page shows every tile in the whole pixel where the image manager
    has it, except the tile being dragged, whose place in the image
    manager is the pixel the drag started from. *)
Definition inPlace (w : world) : Prop :=
  forall (i : nat) e p, dom w !! i = Some e -> positions (im w) !! i = Some p ->
    if isDragging (dh w) && bool_decide (currentContainer (dh w) = Some i)
    then initialPosition (dh w) = pixel p
    else pixel (left e, top e) = pixel p.

(** The handler is dragging exactly when it holds a container. *)
Definition engaged (w : world) : Prop :=
  isDragging (dh w) = true <-> is_Some (currentContainer (dh w)).

End Fractional.

(** ** ResizeHandler: pointer-driven resizing from the corner handle

    Sizes are numbers, carried by [Q]: an equality of sizes below is an
    equality of the expressions that the code evaluates, and a quotient is
    exact here where the source rounds it to a double. *)

Module ResizeHandler.

Local Open Scope Q_scope.

(** [this.config] of the constructor. *)
Record config := Config {
  minSize : Q;
  maxSize : Q;
  preserveAspectRatio : bool;
  snapToGrid : bool;
  gridSize : Q
}.

Definition default_config : config :=
  {| minSize := 50; maxSize := 2000; preserveAspectRatio := true;
     snapToGrid := false; gridSize := 10 |}.

(** The resize state of the handler; [imageSize] is the width and height
    of the [img] element of [currentContainer]. *)
Record t := Make {
  isResizing : bool;
  startPosition : Q * Q;
  initialSize : Q * Q;
  aspectRatio : Q;
  imageSize : Q * Q;
  resizeIndex : Z
}.

Inductive event :=
| ResizeStart (index : Z) (initialSize : Q * Q) (aspectRatio : Q)
| ResizeMove (index : Z) (size : Q * Q).

(** [a > b] and [a < b] on numbers. *)
Definition gtb (a b : Q) : bool := negb (Qle_bool a b).
Definition ltb (a b : Q) : bool := negb (Qle_bool b a).

(** [Math.round]: to the nearest integer, halves upwards. *)
Definition round (x : Q) : Q := inject_Z (Qfloor (x + (1 # 2))).

(** [applySizeConstraints]. *)
Definition applySizeConstraints (cfg : config) (aspectRatio : Q) (width height : Q)
    : Q * Q :=
  (* Apply minimum size *)
  let width := Qmax (minSize cfg) width in
  let height := Qmax (minSize cfg) height in
  (* Apply maximum size *)
  let width := Qmin (maxSize cfg) width in
  let height := Qmin (maxSize cfg) height in
  if preserveAspectRatio cfg then
    let height := width / aspectRatio in
    if gtb height (maxSize cfg) then
      let height := maxSize cfg in (height * aspectRatio, height)
    else if ltb height (minSize cfg) then
      let height := minSize cfg in (height * aspectRatio, height)
    else (width, height)
  else (width, height).

(** [startResize] on a container whose image has the given extent, of
    a height other than 0 (over a height of 0 the ratio of the source is
    [Infinity] or [NaN], which [Q] does not carry). *)
Definition startResize (h : t) (index : Z) (clientX clientY : Q) : t * list event :=
  if isResizing h then (h, [])
  else
    let initial := imageSize h in
    let ratio := initial.1 / initial.2 in
    ({| isResizing := true; startPosition := (clientX, clientY);
        initialSize := initial; aspectRatio := ratio;
        imageSize := imageSize h; resizeIndex := index |},
     [ResizeStart index initial ratio]).

(** The size computed by [updateResizeSize] before it is applied. *)
Definition newSize (cfg : config) (h : t) (clientX clientY : Q) : Q * Q :=
  let deltaX := clientX - (startPosition h).1 in
  let deltaY := clientY - (startPosition h).2 in
  let newWidth := (initialSize h).1 + deltaX in
  let newHeight :=
    if preserveAspectRatio cfg then newWidth / aspectRatio h
    else (initialSize h).2 + deltaY in
  let '(newWidth, newHeight) := applySizeConstraints cfg (aspectRatio h) newWidth newHeight in
  if snapToGrid cfg then
    let newWidth := round (newWidth / gridSize cfg) * gridSize cfg in
    if preserveAspectRatio cfg then (newWidth, newWidth / aspectRatio h)
    else (newWidth, round (newHeight / gridSize cfg) * gridSize cfg)
  else (newWidth, newHeight).

(** [updateResizeSize]: [applyNewSize], then ['resize:move']. *)
Definition updateResizeSize (cfg : config) (h : t) (clientX clientY : Q) : t * list event :=
  let size := newSize cfg h clientX clientY in
  ({| isResizing := isResizing h; startPosition := startPosition h;
      initialSize := initialSize h; aspectRatio := aspectRatio h;
      imageSize := size; resizeIndex := resizeIndex h |},
   [ResizeMove (resizeIndex h) size]).

(** [handleMouseMove] and [handleTouchMove]. *)
Definition handleMove (cfg : config) (h : t) (client : Q * Q) : t * list event :=
  if negb (isResizing h) then (h, [])
  else updateResizeSize cfg h client.1 client.2.

(** A resize gesture: pointer-down on the handle, then the moves. The
    result is the list of events emitted, in order. *)
Fixpoint moves (cfg : config) (h : t) (clients : list (Q * Q)) : list event :=
  match clients with
  | [] => []
  | c :: rest =>
      let '(h', evs) := handleMove cfg h c in evs ++ moves cfg h' rest
  end.

Definition gesture (cfg : config) (h : t) (index : Z) (down : Q * Q)
    (clients : list (Q * Q)) : list event :=
  let '(h', evs) := startResize h index down.1 down.2 in
  evs ++ moves cfg h' clients.

Definition resting (size : Q * Q) : t :=
  {| isResizing := false; startPosition := (0, 0); initialSize := (0, 0);
     aspectRatio := 1; imageSize := size; resizeIndex := 0 |}.

End ResizeHandler.

(** ** JavaScript values *)

Module JS.

(** A number: a finite one, or one of the three others. *)
Inductive number := Num (q : Q) | NaN | PosInf | NegInf.

Inductive value :=
| VUndefined
| VNull
| VBool (b : bool)
| VNumber (n : number)
| VString (s : string)
| VArray (elems : list value)
| VObject (fields : list (string * value)).

Definition num (q : Q) : value := VNumber (Num q).

(** Truthiness, as [!v], [v && ...] and [v || ...] test it. *)
Definition truthy (v : value) : bool :=
  match v with
  | VUndefined | VNull => false
  | VBool b => b
  | VNumber (Num q) => negb (Qeq_bool q 0)
  | VNumber NaN => false
  | VNumber _ => true
  | VString s => negb (String.eqb s "")
  | VArray _ | VObject _ => true
  end.

(** [typeof v === 'object']. *)
Definition isObject (v : value) : bool :=
  match v with
  | VNull | VArray _ | VObject _ => true
  | _ => false
  end.

(** Own property [k] of a field list: the first binding. *)
Fixpoint getField (k : string) (fields : list (string * value)) : value :=
  match fields with
  | [] => VUndefined
  | (k', v) :: rest => if String.eqb k k' then v else getField k rest
  end.

(** [o[k] = v]: in place when the key exists, else appended. *)
Fixpoint setField (k : string) (v : value) (fields : list (string * value))
    : list (string * value) :=
  match fields with
  | [] => [(k, v)]
  | (k', v') :: rest =>
      if String.eqb k k' then (k, v) :: rest else (k', v') :: setField k v rest
  end.

Fixpoint deleteField (k : string) (fields : list (string * value))
    : list (string * value) :=
  match fields with
  | [] => []
  | (k', v') :: rest =>
      if String.eqb k k' then deleteField k rest else (k', v') :: deleteField k rest
  end.

(** [v.k] for a name [k] that is no array index and not [length]. *)
Definition getProp (v : value) (k : string) : value :=
  match v with
  | VObject fields => getField k fields
  | _ => VUndefined
  end.

(** [Number.isFinite]. *)
Definition isFinite (v : value) : bool :=
  match v with
  | VNumber (Num _) => true
  | _ => false
  end.

(** [v <= 0] for a value that [Number.isFinite] accepted. *)
Definition leZero (v : value) : bool :=
  match v with
  | VNumber (Num q) => Qle_bool q 0
  | _ => false
  end.

(** [a < b] on numbers: false as soon as one side is NaN. *)
Definition numberLt (a b : number) : bool :=
  match a, b with
  | NaN, _ | _, NaN => false
  | Num x, Num y => negb (Qle_bool y x)
  | NegInf, NegInf => false
  | NegInf, _ => true
  | _, PosInf => match a with PosInf => false | _ => true end
  | _, _ => false
  end.

(** What [JSON.parse (JSON.stringify v)] gives back for [v] inside an
    array or as a property value: a number that is not finite and
    [undefined] become [null], a property holding [undefined] is left
    out. *)
Fixpoint json (v : value) : value :=
  match v with
  | VUndefined => VNull
  | VNumber (Num q) => VNumber (Num q)
  | VNumber _ => VNull
  | VArray elems => VArray (map json elems)
  | VObject fields =>
      VObject
        ((fix fieldsJson (fs : list (string * value)) : list (string * value) :=
            match fs with
            | [] => []
            | (k, VUndefined) :: rest => fieldsJson rest
            | (k, x) :: rest => (k, json x) :: fieldsJson rest
            end) fields)
  | _ => v
  end.

(** The fields of [json (VObject fields)]. *)
Definition fieldsJson (fields : list (string * value)) : list (string * value) :=
  match json (VObject fields) with
  | VObject fields' => fields'
  | _ => []
  end.

End JS.

(** ** EventBus: synchronous publish and subscribe *)

Module EventBus.

(** A listener is the pair pushed by [on]. Functions and context objects
    are compared by reference ([===]), so each is named by a number;
    [None] is the [null] context. *)
Record listener := Listener {
  callback : nat;
  context : option nat
}.

#[global] Instance listener_eq_dec : EqDecision listener.
Proof. solve_decision. Defined.

(** A call either returns or throws, in a state. *)
Inductive outcome (S : Type) :=
| Returned (s : S)
| Threw (s : S).
Arguments Returned {S} s.
Arguments Threw {S} s.

(** [try { ... } catch (error) { ... }]. *)
Definition tryCatch {S} (body : outcome S) (handler : S -> outcome S) : outcome S :=
  match body with
  | Returned s => Returned s
  | Threw s => handler s
  end.

(** [array.forEach (f)]: an exception leaving [f] ends the loop. *)
Fixpoint forEach {S X} (f : X -> S -> outcome S) (xs : list X) (s : S) : outcome S :=
  match xs with
  | [] => Returned s
  | x :: rest =>
      match f x s with
      | Returned s' => forEach f rest s'
      | Threw s' => Threw s'
      end
  end.

Section Bus.

(** [A] is the rest of the program state that callbacks act on, and
    [D] the type of event data. *)
Context {A D : Type}.

(** [this.events] together with the state the callbacks share. *)
Record system := System {
  events : gmap string (list listener);
  app : A
}.

(** The code behind each function reference: what
    [callback.call (context, data)] does. A callback may change the
    subscriptions as well as the application state. *)
Variable code : nat -> option nat -> D -> system -> outcome system.

Definition listenersOf (s : system) (event : string) : list listener :=
  default [] (events s !! event).

(** [on]. *)
Definition on (event : string) (cb : nat) (ctx : option nat) (s : system) : system :=
  {| events := <[event := listenersOf s event ++ [Listener cb ctx]]> (events s);
     app := app s |}.

(** [findIndex] then [splice (index, 1)]: the first match goes. *)
Fixpoint removeFirst (l : listener) (ls : list listener) : option (list listener) :=
  match ls with
  | [] => None
  | x :: rest =>
      if decide (x = l) then Some rest
      else match removeFirst l rest with
           | Some rest' => Some (x :: rest')
           | None => None
           end
  end.

(** [off]: the result and the new system. *)
Definition off (event : string) (cb : nat) (ctx : option nat) (s : system)
    : bool * system :=
  match events s !! event with
  | None => (false, s)
  | Some listeners =>
      match removeFirst (Listener cb ctx) listeners with
      | Some [] => (true, {| events := delete event (events s); app := app s |})
      | Some rest => (true, {| events := <[event := rest]> (events s); app := app s |})
      | None => (false, s)
      end
  end.

(** [clear]: the test [if (event)] is on the truthiness of the name, so
    the empty string clears every event, as no argument does. *)
Definition clear (event : option string) (s : system) : system :=
  match event with
  | Some e =>
      if String.eqb e "" then {| events := ∅; app := app s |}
      else {| events := delete e (events s); app := app s |}
  | None => {| events := ∅; app := app s |}
  end.

(** The run of one [emit]: the system, the listeners called so far
    and the listeners whose failure went to [console.error], both in
    order. *)
Record run := Run {
  sys : system;
  called : list listener;
  logged : list listener
}.

(** [callback.call (context, data)]. *)
Definition call (data : D) (l : listener) (r : run) : outcome run :=
  match code (callback l) (context l) data (sys r) with
  | Returned s' => Returned {| sys := s'; called := called r ++ [l]; logged := logged r |}
  | Threw s' => Threw {| sys := s'; called := called r ++ [l]; logged := logged r |}
  end.

Definition consoleError (l : listener) (r : run) : run :=
  {| sys := sys r; called := called r; logged := logged r ++ [l] |}.

(** The arrow function given to [forEach]: the call inside [try], the
    [catch] that logs. *)
Definition protectedCall (data : D) (l : listener) (r : run) : outcome run :=
  tryCatch (call data l r) (fun r' => Returned (consoleError l r')).

(** [emit]: the listeners are copied before the first call. *)
Definition emit (event : string) (data : D) (s : system) : outcome run :=
  let r := {| sys := s; called := []; logged := [] |} in
  match events s !! event with
  | None => Returned r
  | Some listeners =>
      let listenersCopy := listeners in
      forEach (protectedCall data) listenersCopy r
  end.

(** What the design document asks of [emit], written out: every listener
    of the snapshot is invoked once, in order, on the system its
    predecessor left, whether that one returned or threw; the second
    component lists the listeners that threw, in order. *)
Fixpoint invokeEach (data : D) (ls : list listener) (s : system) : system * list listener :=
  match ls with
  | [] => (s, [])
  | l :: rest =>
      match code (callback l) (context l) data s with
      | Returned s' => invokeEach data rest s'
      | Threw s' => let '(s'', thrown) := invokeEach data rest s' in (s'', l :: thrown)
      end
  end.

(** [hasListeners]. *)
Definition hasListeners (event : string) (s : system) : bool :=
  match events s !! event with
  | Some listeners => bool_decide (0 < length listeners)%nat
  | None => false
  end.

(** The arrow function [onceWrapper] that [once] builds, under the
    function reference [wrapper]: [this.off (event, onceWrapper)], with no
    context given, then [callback.apply (context, args)]. *)
Definition onceWrapper (event : string) (wrapper cb : nat) (ctx : option nat)
    (data : D) (s : system) : outcome system :=
  code cb ctx data (off event wrapper None s).2.

(** [once]: the wrapper is subscribed under the context given. *)
Definition once (event : string) (wrapper : nat) (ctx : option nat) (s : system) : system :=
  on event wrapper ctx s.

(** No event is left with an empty array of listeners: [on] pushes right
    after it creates one and [off] deletes the array it empties. *)
Definition tidy (s : system) : Prop :=
  forall event, events s !! event <> Some [].

End Bus.

Arguments system : clear implicits.
Arguments run : clear implicits.

End EventBus.

(** ** StorageManager: localStorage behind a safe interface *)

Module StorageManager.

Import JS.

(** A text held by [localStorage]: [Json v] is [JSON.stringify (v)],
    [Raw s] is the string [s] as it stands. *)
Inductive text := Json (v : value) | Raw (s : string).

(** The [name] of an exception of [localStorage.setItem]. *)
Inductive error := QuotaExceededError | OtherError.

(** The manager with the browser storage it wraps. *)
Record t := Make {
  isAvailable : bool;
  localStorage : gmap string text;
  fallbackStorage : gmap string value
}.

(** How a call completes: normally with its boolean, or abruptly. *)
Inductive completion :=
| Normal (result : bool) (st : t)
| Abrupt (e : error) (st : t).

Definition thirtyDays : Z := 30 * 24 * 60 * 60 * 1000.

Section Platform.

(** The browser and the language runtime:
    - [setItemError items key text]: whether [localStorage.setItem]
      throws on the contents [items], and what;
    - [parseRaw s]: [JSON.parse] on a verbatim string, [None] for a
      SyntaxError;
    - [coerce v]: the number a string, array or object converts to in
      a comparison. *)
Variable setItemError : gmap string text -> string -> text -> option error.
Variable parseRaw : string -> option value.
Variable coerce : value -> number.

Definition toNumber (v : value) : number :=
  match v with
  | VNumber n => n
  | VUndefined => NaN
  | VNull => Num 0
  | VBool b => Num (if b then 1 else 0)
  | _ => coerce v
  end.

(** [typeof value === 'string' ? value : JSON.stringify (value)];
    [setItem] turns the [undefined] that [JSON.stringify (undefined)]
    returns into a string. *)
Definition serialize (v : value) : text :=
  match v with
  | VString s => Raw s
  | VUndefined => Raw "undefined"
  | _ => Json v
  end.

(** [JSON.parse] with the fallback to the string itself. *)
Definition parse (t : text) : value :=
  match t with
  | Json v => json v
  | Raw s => match parseRaw s with Some v => v | None => VString s end
  end.

(** [get]. *)
Definition get (key : string) (defaultValue : value) (st : t) : value :=
  if isAvailable st then
    match localStorage st !! key with
    | None => defaultValue
    | Some t => parse t
    end
  else
    match fallbackStorage st !! key with
    | Some VUndefined | None => defaultValue
    | Some v => v
    end.

(** [remove]. *)
Definition remove (key : string) (st : t) : t :=
  {| isAvailable := isAvailable st;
     localStorage := if isAvailable st then delete key (localStorage st)
                     else localStorage st;
     fallbackStorage := delete key (fallbackStorage st) |}.

(** [has]. *)
Definition has (key : string) (st : t) : bool :=
  if isAvailable st then bool_decide (is_Some (localStorage st !! key))
  else bool_decide (is_Some (fallbackStorage st !! key)).

(** [clear]. *)
Definition clear (st : t) : t :=
  {| isAvailable := isAvailable st;
     localStorage := if isAvailable st then ∅ else localStorage st;
     fallbackStorage := ∅ |}.

(** [keys]. *)
Definition keys (st : t) : list string :=
  if isAvailable st then (map_to_list (localStorage st)).*1
  else (map_to_list (fallbackStorage st)).*1.

(** The condition under which [handleQuotaExceeded] removes an entry. *)
Definition looksOld (thirtyDaysAgo : Z) (data : value) : bool :=
  truthy data && isObject data && truthy (getProp data "timestamp") &&
  numberLt (toNumber (getProp data "timestamp")) (Num (inject_Z thirtyDaysAgo)).

(** The [keys.forEach] of [handleQuotaExceeded]. *)
Definition cleanupStep (thirtyDaysAgo : Z) (acc : t * Z) (storageKey : string) : t * Z :=
  let data := get storageKey VNull acc.1 in
  if looksOld thirtyDaysAgo data then (remove storageKey acc.1, acc.2 + 1) else acc.

Definition cleanup (now : Z) (st : t) : t * Z :=
  foldl (cleanupStep (now - thirtyDays)) (st, 0) (keys st).

Definition fallbackSet (key : string) (v : value) (st : t) : t :=
  {| isAvailable := isAvailable st; localStorage := localStorage st;
     fallbackStorage := <[key := v]> (fallbackStorage st) |}.

(** [handleQuotaExceeded]: the cleanup pass, then, when it removed
    something, the retry inside [try]; the [catch] around the retry stores
    into the fallback map. [set] is the method it calls back. *)
Definition handleQuotaExceeded (set : string -> value -> t -> option completion)
    (now : Z) (key : string) (v : value) (st : t) : option t :=
  let '(st1, removedCount) := cleanup now st in
  if 0 <? removedCount then
    match set key v st1 with
    | None => None
    | Some (Normal _ st2) => Some st2
    | Some (Abrupt _ st2) => Some (fallbackSet key v st2)
    end
  else Some st1.

(** [set]. It and [handleQuotaExceeded] call each other; [depth] bounds
    that nesting ([None] when it is used up). [now] is the reading of
    [Date.now ()]. *)
Fixpoint set (depth : nat) (now : Z) (key : string) (v : value) (st : t)
    : option completion :=
  match depth with
  | O => None
  | S depth' =>
      let serializedValue := serialize v in
      if isAvailable st then
        match setItemError (localStorage st) key serializedValue with
        | None =>
            Some (Normal true
                    {| isAvailable := isAvailable st;
                       localStorage := <[key := serializedValue]> (localStorage st);
                       fallbackStorage := fallbackStorage st |})
        | Some QuotaExceededError =>
            match handleQuotaExceeded (set depth' now) now key v st with
            | None => None
            | Some st' => Some (Normal false st')
            end
        | Some OtherError => Some (Normal true (fallbackSet key v st))
        end
      else Some (Normal true (fallbackSet key v st))
  end.

End Platform.

End StorageManager.

(** ** StateManager: validated placements and the theme *)

Module StateManager.

Import JS.

(** [this.state]. [images] holds the own properties of
    [this.state.images], a plain object whose prototype is
    [Object.prototype]. *)
Record state := State {
  images : gmap string value;
  theme : string;
  lastSaved : option Z
}.

Record config := Config {
  stateExpiryDays : Z;
  imageStatesKey : string;
  themeKey : string
}.

Definition default_config : config :=
  {| stateExpiryDays := 30; imageStatesKey := "imageStates"; themeKey := "theme" |}.

Definition defaults : state :=
  {| images := ∅; theme := "light"; lastSaved := None |}.

Inductive event :=
| StateSaved (filename : string) (imageState : value)
| ThemeUpdated (theme : string)
| StateReset.

(** The manager, the storage manager it was built with and the events it
    has emitted (latest last). *)
Record world := World {
  st : state;
  storage : StorageManager.t;
  emitted : list event
}.

(** [Array.isArray (a) && a.length === 2 && Number.isFinite (a[0]) &&
    Number.isFinite (a[1])]. *)
Definition finitePair (a : value) : bool :=
  match a with
  | VArray [a0; a1] => isFinite a0 && isFinite a1
  | _ => false
  end.

Definition element (a : value) (i : nat) : value :=
  match a with
  | VArray elems => default VUndefined (elems !! i)
  | _ => VUndefined
  end.

(** [validateImageState]. *)
Definition validateImageState (state : value) : bool :=
  if negb (truthy state) || negb (isObject state) then false
  else
    let position := getProp state "position" in
    let size := getProp state "size" in
    if negb (finitePair position) then false
    else if negb (finitePair size) || leZero (element size 0) || leZero (element size 1)
    then false
    else true.

(** [validateTheme]: [includes] finds only the two strings. *)
Definition validateTheme (theme : value) : string :=
  match theme with
  | VString s => if String.eqb s "light" || String.eqb s "dark" then s else "light"
  | _ => "light"
  end.

(** The properties a [for ... in] visits: the fields of an object, the
    indices of an array. *)
Definition enumerate (v : value) : list (string * value) :=
  match v with
  | VObject fields => fields
  | VArray elems => imap (fun i x => (pretty i, x)) elems
  | _ => []
  end.

(** [validateImageStates]. *)
Definition validateImageStates (imageStates : value) : gmap string value :=
  if negb (truthy imageStates) || negb (isObject imageStates) then ∅
  else
    foldl (fun validated entry =>
             if validateImageState entry.2 then <[entry.1 := entry.2]> validated
             else validated)
          ∅ (enumerate imageStates).

(** What reading a property of [this.state.images] gives: data, or a
    member that every object inherits from [Object.prototype] (a built-in
    function, or the prototype itself under [__proto__]), named by its
    key. *)
Inductive reading :=
| Data (v : value)
| Inherited (name : string).

(** The property names of [Object.prototype]. *)
Definition objectPrototypeNames : list string :=
  ["constructor"; "hasOwnProperty"; "isPrototypeOf"; "propertyIsEnumerable";
   "toLocaleString"; "toString"; "valueOf"; "__proto__"; "__defineGetter__";
   "__defineSetter__"; "__lookupGetter__"; "__lookupSetter__"]%string.

(** [getImageState]: [this.state.images[filename] || null]. The read
    finds an own property first and an inherited member otherwise; what
    is inherited is a function or an object, never falsy. *)
Definition getImageState (filename : string) (w : world) : reading :=
  match images (st w) !! filename with
  | Some v => Data (if truthy v then v else VNull)
  | None =>
      if bool_decide (filename ∈ objectPrototypeNames) then Inherited filename
      else Data VNull
  end.

(** [getAllImageStates]. *)
Definition getAllImageStates (w : world) : gmap string value := images (st w).

Definition emit (ev : event) (w : world) : world :=
  {| st := st w; storage := storage w; emitted := emitted w ++ [ev] |}.

(** [{ ...imageState, timestamp: Date.now () }]. *)
Definition stamp (now : Z) (imageState : value) : value :=
  VObject (setField "timestamp" (num (inject_Z now)) (enumerate imageState)).

(** The number of ['theme:updated'] events in a log. *)
Definition isThemeUpdated (ev : event) : bool :=
  match ev with ThemeUpdated _ => true | _ => false end.

Definition themeUpdates (evs : list event) : nat :=
  length (filter (fun ev => isThemeUpdated ev = true) evs).

(** The invariant of the data model, in its words: an object with two
    finite coordinates and two finite, strictly positive dimensions. *)
Definition ValidPlacement (s : value) : Prop :=
  exists fields x y w h,
    s = VObject fields /\
    getField "position" fields = VArray [num x; num y] /\
    getField "size" fields = VArray [num w; num h] /\
    (0 < w)%Q /\ (0 < h)%Q.


Section Platform.

Variable setItemError :
  gmap string StorageManager.text -> string -> StorageManager.text ->
  option StorageManager.error.
Variable parseRaw : string -> option value.
Variable coerce : value -> number.
Variable cfg : config.

(** [this.storage.set (key, value)], its result dropped as the callers
    here do. *)
Definition storageSet (depth : nat) (now : Z) (key : string) (v : value) (w : world)
    : option world :=
  match StorageManager.set setItemError parseRaw coerce depth now key v (storage w) with
  | None => None
  | Some (StorageManager.Normal _ s') | Some (StorageManager.Abrupt _ s') =>
      Some {| st := st w; storage := s'; emitted := emitted w |}
  end.

(** [saveImageStates]. *)
Definition saveImageStates (depth : nat) (now : Z) (w : world) : option world :=
  let w1 := {| st := {| images := images (st w); theme := theme (st w);
                        lastSaved := Some now |};
               storage := storage w; emitted := emitted w |} in
  storageSet depth now (imageStatesKey cfg) (VObject (map_to_list (images (st w1)))) w1.

(** [setImageState]. The assignment [this.state.images[filename] = ...]
    creates or overwrites an own property, except under [__proto__], where
    it replaces the prototype of the map and creates no property. A state
    here is the own properties of a map whose prototype is
    [Object.prototype]: it carries what such a write leaves to be saved and
    reloaded, not what the replaced prototype answers to later reads of
    the same session. *)
Definition setImageState (depth : nat) (now : Z) (filename : string)
    (imageState : value) (w : world) : option (bool * world) :=
  if negb (validateImageState imageState) then Some (false, w)
  else
    let images' :=
      if String.eqb filename "__proto__" then images (st w)
      else <[filename := stamp now imageState]> (images (st w)) in
    let w1 := {| st := {| images := images'; theme := theme (st w);
                          lastSaved := lastSaved (st w) |};
                 storage := storage w; emitted := emitted w |} in
    w2 ← saveImageStates depth now w1;
    Some (true, emit (StateSaved filename imageState) w2).

(** [setTheme]. *)
Definition setTheme (depth : nat) (now : Z) (theme' : value) (w : world) : option world :=
  let validatedTheme := validateTheme theme' in
  if negb (String.eqb validatedTheme (theme (st w))) then
    let w1 := {| st := {| images := images (st w); theme := validatedTheme;
                          lastSaved := lastSaved (st w) |};
                 storage := storage w; emitted := emitted w |} in
    w2 ← storageSet depth now (themeKey cfg) (VString validatedTheme) w1;
    Some (emit (ThemeUpdated validatedTheme) w2)
  else Some w.

(** [resetAllStates]. *)
Definition resetAllStates (w : world) : world :=
  emit StateReset
    {| st := {| images := ∅; theme := theme (st w); lastSaved := lastSaved (st w) |};
       storage := StorageManager.remove (imageStatesKey cfg) (storage w);
       emitted := emitted w |}.

(** The test of [cleanupOldStates] on one record. *)
Definition expired (expiryTime : Z) (imageState : value) : bool :=
  truthy (getProp imageState "timestamp") &&
  numberLt (StorageManager.toNumber coerce (getProp imageState "timestamp"))
           (Num (inject_Z expiryTime)).

(** [cleanupOldStates]: the [for ... in] deletes the expired records,
    and the map is saved when one was deleted. *)
Definition cleanupOldStates (depth : nat) (now : Z) (w : world) : option world :=
  let expiryTime := now - stateExpiryDays cfg * 24 * 60 * 60 * 1000 in
  let kept := filter (fun entry => expired expiryTime entry.2 = false) (images (st w)) in
  let cleanedCount := Z.of_nat (size (images (st w))) - Z.of_nat (size kept) in
  let w1 := {| st := {| images := kept; theme := theme (st w);
                        lastSaved := lastSaved (st w) |};
               storage := storage w; emitted := emitted w |} in
  if 0 <? cleanedCount then saveImageStates depth now w1 else Some w1.

(** [loadState]. *)
Definition loadState (depth : nat) (now : Z) (w : world) : option world :=
  let imageStates :=
    StorageManager.get parseRaw (imageStatesKey cfg) (VObject []) (storage w) in
  let savedTheme :=
    StorageManager.get parseRaw (themeKey cfg) (VString "light") (storage w) in
  let w1 := {| st := {| images := validateImageStates imageStates;
                        theme := validateTheme savedTheme;
                        lastSaved := lastSaved (st w) |};
               storage := storage w; emitted := emitted w |} in
  cleanupOldStates depth now w1.

(** [new StateManager (eventBus, storageManager)]: a reload of the
    page over the storage left by the previous one. *)
Definition create (depth : nat) (now : Z) (s : StorageManager.t) : option world :=
  loadState depth now {| st := defaults; storage := s; emitted := [] |}.

End Platform.

End StateManager.

(** ** The scenario of the design document *)

Module Scenario.

(** [getImageState] over an empty store. *)
Definition noSaved (filename : string) : ImageManager.Load.savedState :=
  if bool_decide (filename ∈ StateManager.objectPrototypeNames)
  then ImageManager.Load.Other else ImageManager.Load.Null.

Definition metadata : list (string * (Z * Z)) :=
  [("a.png"%string, (1000, 1000)); ("b.png"%string, (100, 100))].

Definition canvasWidth : Z := 800.




(** Two callbacks for the bus, over a counter: callback 0 unsubscribes
    callback 1 from ["tick"] and throws, any other adds the event data to
    the counter. *)
Definition busCode (cb : nat) (ctx : option nat) (data : Z) (s : EventBus.system Z)
    : EventBus.outcome (EventBus.system Z) :=
  match cb with
  | O => EventBus.Threw (EventBus.off "tick" 1 None s).2
  | _ => EventBus.Returned {| EventBus.events := EventBus.events s;
                              EventBus.app := EventBus.app s + data |}
  end.

Definition busOfTwo : EventBus.system Z :=
  EventBus.on "tick" 1 None
    (EventBus.on "tick" 0 None {| EventBus.events := ∅; EventBus.app := 0 |}).

(** Function 5 is the wrapper that [once ("tick", 1, 7)] builds around
    callback 1 with context object 7. *)
Definition onceCode (cb : nat) (ctx : option nat) (data : Z) (s : EventBus.system Z)
    : EventBus.outcome (EventBus.system Z) :=
  match cb with
  | 5%nat => EventBus.onceWrapper busCode "tick" 5 1 (Some 7%nat) data s
  | _ => busCode cb ctx data s
  end.

(** [getImageState] over a store that holds a placement for b.png
    only. *)
Definition savedB (filename : string) : ImageManager.Load.savedState :=
  if String.eqb filename "b.png" then ImageManager.Load.Placement (300, 40) (60, 60)
  else noSaved filename.

(** A page with a single tile of 50 x 50 at (10, 10). *)
Definition oneTile : ImageManager.t :=
  {| ImageManager.positions := [(10, 10)]; ImageManager.sizes := [(50, 50)] |}.

Definition onePage : DragHandler.world := DragHandler.loaded canvasWidth ["a.png"%string] oneTile.

(** The resize handler with the aspect ratio left free. *)
Definition freeRatio : ResizeHandler.config :=
  {| ResizeHandler.minSize := 50; ResizeHandler.maxSize := 2000;
     ResizeHandler.preserveAspectRatio := false; ResizeHandler.snapToGrid := false;
     ResizeHandler.gridSize := 10 |}.

(** A page 1000.5px wide with two restored tiles: a.png, 250 x 250 at
    (10, 10), and b.png, 50 x 50 at (400, 400). *)
Definition widePage : Fractional.world :=
  Fractional.loaded (2001 # 2) ["a.png"; "b.png"]%string
    {| Fractional.positions := [(10, 10); (400, 400)]%Q;
       Fractional.sizes := [(250, 250); (50, 50)]%Q |}.

(** a.png is dragged by its corner far to the right and dropped. *)
Definition dragToTheEdge : list Fractional.input :=
  [Fractional.PointerDown 0 false 20 20; Fractional.PointerMove 2000 20;
   Fractional.PointerUp].

(** a.png is dragged from the edge onto b.png and dropped. *)
Definition dragOntoB : list Fractional.input :=
  [Fractional.PointerDown 0 false 750 20; Fractional.PointerMove 410 410;
   Fractional.PointerUp].

End Scenario.

(** ** A browser to run the storage code on *)

Module Browser.

Import JS StorageManager.

(** A quota counted in entries: [setItem] throws QuotaExceededError when
    the storage would hold more than [n] of them. *)
Definition capacity (n : nat) (items : gmap string text) (key : string) (t : text)
    : option error :=
  if decide (size (<[key := t]> items) <= n)%nat then None else Some QuotaExceededError.

(** A payload larger than the whole quota: every write under [key0]
    throws QuotaExceededError, whatever the storage holds. *)
Definition tooLargeFor (key0 : string) (items : gmap string text) (key : string) (t : text)
    : option error :=
  if String.eqb key key0 then Some QuotaExceededError else None.

(** A storage whose [setItem] fails for a reason other than the quota. *)
Definition broken (items : gmap string text) (key : string) (t : text) : option error :=
  Some OtherError.

(** No verbatim string of the examples is JSON text, and none of their
    strings, arrays or objects converts to a number. *)
Definition parseRaw (s : string) : option value := None.
Definition coerce (v : value) : number := NaN.

(** A storage whose only entry carries a timestamp from 1970. *)
Definition withOldEntry : StorageManager.t :=
  {| isAvailable := true;
     localStorage := {["old"%string := Json (VObject [("timestamp"%string, num 1)])]};
     fallbackStorage := ∅ |}.

(** A storage whose only entry carries no timestamp. *)
Definition withPlainEntry : StorageManager.t :=
  {| isAvailable := true;
     localStorage := {["other"%string := Json (VObject [("a"%string, num 1)])]};
     fallbackStorage := ∅ |}.

Definition now : Z := 1700000000000.

(** A page whose stored and current theme is already dark. *)
Definition darkWorld : StateManager.world :=
  {| StateManager.st :=
       {| StateManager.images := ∅; StateManager.theme := "dark";
          StateManager.lastSaved := None |};
     StateManager.storage :=
       {| isAvailable := true;
          localStorage := {["theme"%string := Raw "dark"]};
          fallbackStorage := ∅ |};
     StateManager.emitted := [] |}.

Definition payload : value := VObject [("b"%string, num 2)].

(** A fresh page over an empty, working storage. *)
Definition freshWorld : StateManager.world :=
  {| StateManager.st := StateManager.defaults;
     StateManager.storage :=
       {| isAvailable := true; localStorage := ∅; fallbackStorage := ∅ |};
     StateManager.emitted := [] |}.

(** A placement at (10, 10) of extent 50 x 50, and one of width 0. *)
Definition placement : value :=
  VObject [("position"%string, VArray [num 10; num 10]);
           ("size"%string, VArray [num 50; num 50])].


(** A page holding one record stamped in 1970. *)
Definition stampedWorld : StateManager.world :=
  {| StateManager.st :=
       {| StateManager.images :=
            {["a.png"%string :=
                VObject [("position"%string, VArray [num 10; num 10]);
                         ("size"%string, VArray [num 50; num 50]);
                         ("timestamp"%string, num 1)]]};
          StateManager.theme := "light"; StateManager.lastSaved := None |};
     StateManager.storage :=
       {| isAvailable := true; localStorage := ∅; fallbackStorage := ∅ |};
     StateManager.emitted := [] |}.

(** A page holding one record that carries no timestamp. *)
Definition unstampedWorld : StateManager.world :=
  {| StateManager.st :=
       {| StateManager.images := {["a.png"%string := placement]};
          StateManager.theme := "light"; StateManager.lastSaved := None |};
     StateManager.storage :=
       {| isAvailable := true; localStorage := ∅; fallbackStorage := ∅ |};
     StateManager.emitted := [] |}.

End Browser.

(** * Properties *)

(** ** Layout: grid placement and collision detection *)

Section LayoutFacts.

Import ImageManager.

Lemma boxesOverlap_sym buffer x y w h x' y' w' h' :
  boxesOverlap buffer x y w h x' y' w' h' = boxesOverlap buffer x' y' w' h' x y w h.
Proof.
  unfold boxesOverlap.
  destruct (x <? x' + w' + buffer), (x' <? x + w + buffer),
           (y' <? y + h + buffer), (y <? y' + h' + buffer); reflexivity.
Qed.

Lemma tilesOverlap_sym cfg p1 s1 p2 s2 :
  tilesOverlap cfg p1 s1 p2 s2 = tilesOverlap cfg p2 s2 p1 s1.
Proof. apply boxesOverlap_sym. Qed.

(** What a [false] from the loop of [wouldOverlap] says of every tile it
    visited. *)
Lemma wouldOverlap_from_false buffer szs x y w h excl ps : forall i,
  wouldOverlap_from buffer szs x y w h excl i ps = Some false ->
  forall (k : nat) p s, ps !! k = Some p -> szs !! (i + k)%nat = Some s ->
    Z.of_nat (i + k) <> excl ->
    boxesOverlap buffer x y w h p.1 p.2 s.1 s.2 = false.
Proof.
  induction ps as [|[ox oy] ps IH]; intros i Hrun k p s Hp Hs Hne; [done|].
  simpl in Hrun. destruct k as [|k].
  - simpl in Hp. injection Hp as <-. rewrite Nat.add_0_r in Hs, Hne.
    destruct (Z.of_nat i =? excl) eqn:E; [apply Z.eqb_eq in E; done|].
    rewrite Hs in Hrun. destruct s as [ow oh]. simpl.
    destruct (boxesOverlap buffer x y w h ox oy ow oh); [done | reflexivity].
  - simpl in Hp. replace (i + S k)%nat with (S i + k)%nat in Hs, Hne by lia.
    destruct (Z.of_nat i =? excl).
    + eapply IH; eauto.
    + destruct (szs !! i) as [[ow oh]|]; [|done].
      destruct (boxesOverlap buffer x y w h ox oy ow oh); [done|].
      eapply IH; eauto.
Qed.

(** What a [true] from the loop says: it met a tile, other than the
    excluded one, whose buffered box the rectangle intersects. *)
Lemma wouldOverlap_from_true buffer szs x y w h excl ps : forall i,
  wouldOverlap_from buffer szs x y w h excl i ps = Some true ->
  exists (k : nat) p s, ps !! k = Some p /\ szs !! (i + k)%nat = Some s /\
    Z.of_nat (i + k) <> excl /\
    boxesOverlap buffer x y w h p.1 p.2 s.1 s.2 = true.
Proof.
  induction ps as [|[ox oy] ps IH]; intros i Hrun; [done|]. simpl in Hrun.
  assert (Hrest : wouldOverlap_from buffer szs x y w h excl (S i) ps = Some true ->
            exists (k : nat) p s, ((ox, oy) :: ps) !! k = Some p /\
              szs !! (i + k)%nat = Some s /\ Z.of_nat (i + k) <> excl /\
              boxesOverlap buffer x y w h p.1 p.2 s.1 s.2 = true).
  { intros (k & p & s & Hp & Hs & Hne & Hov)%IH. exists (S k), p, s.
    replace (i + S k)%nat with (S i + k)%nat by lia. done. }
  destruct (Z.of_nat i =? excl) eqn:E; [auto|]. apply Z.eqb_neq in E.
  destruct (szs !! i) as [[ow oh]|] eqn:Hs; [|done].
  destruct (boxesOverlap buffer x y w h ox oy ow oh) eqn:Hov; [|auto].
  exists 0%nat, (ox, oy), (ow, oh). rewrite Nat.add_0_r. done.
Qed.

(** The loop raises no TypeError when every position has its size. *)
Lemma wouldOverlap_from_total buffer szs x y w h excl ps : forall i,
  (i + length ps <= length szs)%nat ->
  is_Some (wouldOverlap_from buffer szs x y w h excl i ps).
Proof.
  induction ps as [|[ox oy] ps IH]; intros i Hlen; simpl in *; [eauto|].
  destruct (Z.of_nat i =? excl); [apply IH; lia|].
  destruct (lookup_lt_is_Some_2 szs i) as [[ow oh] ->]; [lia|].
  destruct (boxesOverlap buffer x y w h ox oy ow oh); [eauto | apply IH; lia].
Qed.


End LayoutFacts.

(** ** Drag: commit or revert *)

Section DragFacts.

Import DragHandler.

Variable cfg : config.
Variable icfg : ImageManager.config.

Lemma checkOverlap_total w e x y excl :
  consistent w -> is_Some (checkOverlap icfg w e x y excl).
Proof.
  intros (_ & Hs & _). unfold checkOverlap, ImageManager.wouldOverlap.
  apply wouldOverlap_from_total. lia.
Qed.

(** Moving the pointer leaves the handler's own state alone. *)
Lemma updateDragPosition_dh w x y w' :
  updateDragPosition cfg icfg w x y = Some w' ->
  dh w' = dh w /\ im w' = im w /\ persisted w' = persisted w /\
  filenames w' = filenames w /\
  exists evs, emitted w' = emitted w ++ evs /\ Forall (fun ev => isDragEnd ev = false) evs.
Proof.
  unfold updateDragPosition. intros H.
  destruct (currentContainer (dh w)) as [c|]; [|injection H as <-; repeat split; try done;
    exists []; by rewrite app_nil_r].
  destruct (dom w !! c) as [e|]; [|done].
  destruct (applyBoundaryConstraints _ _ _ _ _) as [nx ny].
  destruct (if snapToGrid cfg then _ else _) as [nx' ny'].
  destruct (checkOverlap _ _ _ _ _ _) as [b|]; [|done].
  injection H as <-. simpl. repeat split; try done.
  eexists [_]. split; [reflexivity|]. by constructor.
Qed.

Lemma updateDragPosition_element w x y w' c e :
  currentContainer (dh w) = Some c -> dom w !! c = Some e ->
  updateDragPosition cfg icfg w x y = Some w' ->
  exists e', dom w' = <[c := e']> (dom w) /\
    width e' = width e /\ height e' = height e /\ dragIndex e' = dragIndex e.
Proof.
  unfold updateDragPosition. intros -> -> H.
  destruct (applyBoundaryConstraints _ _ _ _ _) as [nx ny].
  destruct (if snapToGrid cfg then _ else _) as [nx' ny'].
  destruct (checkOverlap _ _ _ _ _ _) as [b|]; [|done].
  injection H as <-. simpl. eexists. split; [reflexivity|]. done.
Qed.

Lemma consistent_setElement w c e e' :
  consistent w -> dom w !! c = Some e ->
  width e' = width e -> height e' = height e -> dragIndex e' = dragIndex e ->
  forall w', dom w' = <[c := e']> (dom w) -> im w' = im w ->
    currentContainer (dh w') = None \/ dh w' = dh w ->
    consistent w'.
Proof.
  intros (Hd & Hs & He & Hc) Hce Hw Hh Hi w' Hdom Him Hdh.
  unfold consistent. rewrite Hdom, Him, length_insert.
  split; [done|]. split; [done|]. split.
  - intros i x. destruct (decide (i = c)) as [->|Hne].
    + rewrite list_lookup_insert_eq by (by eapply lookup_lt_Some).
      intros [= <-]. rewrite Hw, Hh, Hi. by apply He.
    + rewrite list_lookup_insert_ne by done. apply He.
  - intros c'. destruct Hdh as [-> | ->]; [done | apply Hc].
Qed.

(** [endDrag] in closed form, by the verdict of the final overlap
    check. *)
Lemma endDrag_spec w c e b :
  isDragging (dh w) = true -> currentContainer (dh w) = Some c ->
  dom w !! c = Some e ->
  checkOverlap icfg w e (left e) (top e) (dragIndex e) = Some b ->
  endDrag icfg w = Some
    (let released := {| isDragging := false; currentContainer := None;
                        startPosition := startPosition (dh w);
                        initialPosition := initialPosition (dh w) |} in
     if b then
       {| dom := <[c := {| left := (initialPosition (dh w)).1;
                           top := (initialPosition (dh w)).2;
                           width := width e; height := height e;
                           dragIndex := dragIndex e; overlapWarning := false |}]> (dom w);
          containerWidth := containerWidth w; filenames := filenames w; im := im w; dh := released;
          emitted := emitted w ++
            [DragCancelled (dragIndex e) "overlap" (initialPosition (dh w)) (left e, top e)];
          persisted := persisted w |}
     else
       {| dom := <[c := {| left := left e; top := top e;
                           width := width e; height := height e;
                           dragIndex := dragIndex e; overlapWarning := false |}]> (dom w);
          containerWidth := containerWidth w; filenames := filenames w;
          im := ImageManager.updateImagePosition (im w) (dragIndex e) (left e, top e);
          dh := released;
          emitted := emitted w ++
            [DragEnd (dragIndex e) (left e, top e) (initialPosition (dh w))];
          persisted :=
            persisted (handleDragEnd w (dragIndex e) (left e, top e)) |}).
Proof.
  intros Hd Hc He Hb. unfold endDrag. rewrite Hd, Hc, He. simpl. rewrite Hb.
  pose proof (lookup_lt_Some _ _ _ He) as Hlt.
  destruct b; simpl.
  - rewrite list_lookup_insert_eq by done. unfold setHandler, setElement. simpl.
    by rewrite list_insert_insert_eq.
  - rewrite He. reflexivity.
Qed.

(** Every pointer event is handled, and the page stays consistent with
    the image manager. *)
Lemma handle_consistent w i :
  consistent w -> exists w', handle cfg icfg w i = Some w' /\ consistent w'.
Proof.
  intros Hw. destruct i as [tgt onh x y | x y |]; simpl.
  - destruct onh; [eauto|]. eexists; split; [reflexivity|].
    unfold startDrag. destruct (isDragging (dh w)); [done|].
    destruct (dom w !! tgt) as [e|] eqn:He; [|done].
    destruct Hw as (Hd & Hs & Hel & Hc). unfold consistent. simpl.
    repeat (split; [done|]). intros c [= <-]. by eapply lookup_lt_Some.
  - destruct (isDragging (dh w)); simpl; [|eauto].
    destruct (currentContainer (dh w)) as [c|] eqn:Hc;
      [|unfold updateDragPosition; rewrite Hc; eauto].
    pose proof Hw as (_ & _ & _ & Hcur).
    destruct (lookup_lt_is_Some_2 (dom w) c (Hcur c Hc)) as [e He].
    destruct (updateDragPosition cfg icfg w x y) as [w'|] eqn:Hu.
    + exists w'. split; [done|].
      destruct (updateDragPosition_element _ _ _ _ _ _ Hc He Hu) as (e' & Hdom & Hw' & Hh' & Hi').
      destruct (updateDragPosition_dh _ _ _ _ Hu) as (Hdh & Him & _).
      eapply consistent_setElement; eauto.
    + exfalso. unfold updateDragPosition in Hu. rewrite Hc, He in Hu.
      destruct (applyBoundaryConstraints _ _ _ _ _) as [nx ny].
      destruct (if snapToGrid cfg then _ else _) as [nx' ny'].
      destruct (checkOverlap_total w e nx' ny' (dragIndex e) Hw) as [b Hb].
      by rewrite Hb in Hu.
  - destruct (isDragging (dh w)) eqn:Hd; simpl; [|eauto].
    destruct (currentContainer (dh w)) as [c|] eqn:Hc;
      [|unfold endDrag; rewrite Hd, Hc; eauto].
    pose proof Hw as (Hlen & Hs & Hel & Hcur).
    destruct (lookup_lt_is_Some_2 (dom w) c (Hcur c Hc)) as [e He].
    destruct (checkOverlap_total w e (left e) (top e) (dragIndex e) Hw) as [b Hb].
    rewrite (endDrag_spec w c e b Hd Hc He Hb). eexists; split; [reflexivity|].
    destruct b; simpl.
    + eapply consistent_setElement with (e' := Element _ _ _ _ _ _); eauto.
    + unfold consistent. simpl. rewrite length_insert.
      unfold ImageManager.updateImagePosition.
      destruct (_ && _); simpl; rewrite ?length_insert;
        (split; [done|]; split; [done|]; split; [|done]);
        intros i x; (destruct (decide (i = c)) as [->|Hne];
          [rewrite list_lookup_insert_eq by (by eapply lookup_lt_Some);
           intros [= <-]; simpl; by apply Hel
          |rewrite list_lookup_insert_ne by done; apply Hel]).
Qed.

(** A pointer event keeps the tiles apart: only a release whose final
    check found no overlap moves a tile. *)
Lemma handle_noOverlap w i w' :
  consistent w -> ImageManager.noOverlap icfg (im w) ->
  handle cfg icfg w i = Some w' -> ImageManager.noOverlap icfg (im w').
Proof.
  intros Hw Hno. destruct i as [tgt onh x y | x y |]; simpl.
  - destruct onh; [by intros [= <-]|]. intros [= <-]. unfold startDrag.
    destruct (isDragging (dh w)); [done|]. by destruct (dom w !! tgt).
  - destruct (isDragging (dh w)); simpl; [|by intros [= <-]].
    intros Hu. destruct (updateDragPosition_dh _ _ _ _ Hu) as (_ & -> & _). done.
  - destruct (isDragging (dh w)) eqn:Hd; simpl; [|by intros [= <-]].
    destruct (currentContainer (dh w)) as [c|] eqn:Hc;
      [|unfold endDrag; rewrite Hd, Hc; by intros [= <-]].
    pose proof Hw as (Hlen & Hs & Hel & Hcur).
    destruct (lookup_lt_is_Some_2 (dom w) c (Hcur c Hc)) as [e He].
    destruct (checkOverlap_total w e (left e) (top e) (dragIndex e) Hw) as [b Hb].
    rewrite (endDrag_spec w c e b Hd Hc He Hb). intros [= <-].
    destruct b; simpl; [done|].
    destruct (Hel c e He) as [Hidx Hsz].
    unfold ImageManager.updateImagePosition. rewrite Hidx.
    pose proof (lookup_lt_Some _ _ _ He) as Hlt.
    replace (_ && _) with true by (symmetry; apply andb_true_iff; split; lia).
    rewrite Nat2Z.id.
    assert (Hfree : forall (j : nat) p s, j <> c ->
              ImageManager.positions (im w) !! j = Some p ->
              ImageManager.sizes (im w) !! j = Some s ->
              ImageManager.tilesOverlap icfg (left e, top e) (width e, height e) p s = false).
    { intros j p s Hj Hp Hsj. unfold checkOverlap, ImageManager.wouldOverlap in Hb.
      apply (wouldOverlap_from_false _ _ _ _ _ _ _ _ _ Hb j p s Hp Hsj).
      rewrite Hidx. simpl. lia. }
    intros i j p1 s1 p2 s2 Hij. simpl.
    destruct (decide (i = c)) as [->|Hic]; destruct (decide (j = c)) as [->|Hjc]; [done|..].
    + rewrite list_lookup_insert_eq by lia. rewrite list_lookup_insert_ne by done.
      intros [= <-] Hs1 Hp2 Hs2. rewrite Hsz in Hs1. injection Hs1 as <-. eauto.
    + rewrite list_lookup_insert_eq by lia. rewrite list_lookup_insert_ne by done.
      intros Hp1 Hs1 [= <-] Hs2. rewrite Hsz in Hs2. injection Hs2 as <-.
      rewrite tilesOverlap_sym. eauto.
    + rewrite !list_lookup_insert_ne by done. by apply Hno.
Qed.

(** Any stream of pointer events is handled to the end, with the tiles
    kept apart. *)
Lemma run_noOverlap inputs : forall w,
  consistent w -> ImageManager.noOverlap icfg (im w) ->
  exists w', run cfg icfg w inputs = Some w' /\ consistent w' /\
    ImageManager.noOverlap icfg (im w').
Proof.
  induction inputs as [|i inputs IH]; intros w Hw Hno; simpl; [eauto|].
  destruct (handle_consistent w i Hw) as (w1 & H1 & Hw1). rewrite H1.
  apply IH; [done|]. exact (handle_noOverlap w i w1 Hw Hno H1).
Qed.


(** While the pointer moves, the handler, the image manager and the
    store are untouched, and no ['drag:end'] is emitted. *)
Lemma moves_keep moves : forall w w1,
  run cfg icfg w (map (fun m => PointerMove m.1 m.2) moves) = Some w1 ->
  dh w1 = dh w /\ im w1 = im w /\ persisted w1 = persisted w /\
  filenames w1 = filenames w /\
  exists evs, emitted w1 = emitted w ++ evs /\ Forall (fun ev => isDragEnd ev = false) evs.
Proof.
  induction moves as [|[mx my] moves IH]; intros w w1; simpl.
  - intros [= <-]. repeat (split; [done|]). exists []. by rewrite app_nil_r.
  - destruct (negb (isDragging (dh w))).
    + intros H. by apply IH.
    + destruct (updateDragPosition cfg icfg w mx my) as [w'|] eqn:Hu; [|done].
      intros H. apply IH in H as (-> & -> & -> & -> & evs & -> & Hevs).
      apply updateDragPosition_dh in Hu as (-> & -> & -> & -> & evs' & -> & Hevs').
      repeat (split; [done|]). exists (evs' ++ evs).
      split; [by rewrite app_assoc | by apply Forall_app].
Qed.

End DragFacts.

(** ** Dragging on a page with fractional lengths *)

Section FractionalFacts.

Import Fractional.
Local Open Scope Q_scope.

Variable cfg : DragHandler.config.
Variable icfg : ImageManager.config.

Lemma parseInt_inject_Z (z : Z) : parseInt (inject_Z z) = z.
Proof. unfold parseInt. simpl. apply Z.quot_1_r. Qed.

Lemma pixel_inject (position : Z * Z) : pixel (inject position) = position.
Proof. destruct position. unfold pixel, inject. simpl. by rewrite !parseInt_inject_Z. Qed.






Lemma fractional_wouldOverlap_from_total buffer szs x y w h excl ps : forall i,
  (i + length ps <= length szs)%nat ->
  is_Some (wouldOverlap_from buffer szs x y w h excl i ps).
Proof.
  induction ps as [|[ox oy] ps IH]; intros i Hlen; simpl in *; [eauto|].
  destruct (Z.of_nat i =? excl)%Z; [apply IH; lia|].
  destruct (lookup_lt_is_Some_2 szs i) as [[ow oh] ->]; [lia|].
  destruct (boxesOverlap buffer x y w h ox oy ow oh); [eauto | apply IH; lia].
Qed.

Lemma fractional_checkOverlap_total w e x y excl :
  consistent w -> is_Some (checkOverlap icfg w e x y excl).
Proof.
  intros (_ & Hs & _). unfold checkOverlap, wouldOverlap.
  apply fractional_wouldOverlap_from_total. lia.
Qed.

(** Moving the pointer leaves the handler's own state, the image manager
    and the store alone, and restyles the dragged element only. *)
Lemma fractional_updateDragPosition_keeps w x y w' c e :
  currentContainer (dh w) = Some c -> dom w !! c = Some e ->
  updateDragPosition cfg icfg w x y = Some w' ->
  dh w' = dh w /\ im w' = im w /\
  exists e', dom w' = <[c := e']> (dom w) /\
    width e' = width e /\ height e' = height e /\ dragIndex e' = dragIndex e.
Proof.
  unfold updateDragPosition. intros -> -> H.
  destruct (applyBoundaryConstraints _ _ _ _ _) as [nx ny].
  destruct (if DragHandler.snapToGrid cfg then _ else _) as [nx' ny'].
  destruct (checkOverlap _ _ _ _ _ _) as [b|]; [|done].
  injection H as <-. simpl. split; [done|]. split; [done|].
  eexists. split; [reflexivity|]. done.
Qed.

Lemma fractional_consistent_setElement w c e e' :
  consistent w -> dom w !! c = Some e ->
  width e' = width e -> height e' = height e -> dragIndex e' = dragIndex e ->
  forall w', dom w' = <[c := e']> (dom w) -> im w' = im w ->
    currentContainer (dh w') = None \/ dh w' = dh w ->
    consistent w'.
Proof.
  intros (Hd & Hs & He & Hc) Hce Hw Hh Hi w' Hdom Him Hdh.
  unfold consistent. rewrite Hdom, Him, length_insert.
  split; [done|]. split; [done|]. split.
  - intros i x. destruct (decide (i = c)) as [->|Hne].
    + rewrite list_lookup_insert_eq by (by eapply lookup_lt_Some).
      intros [= <-]. rewrite Hw, Hh, Hi. by apply He.
    + rewrite list_lookup_insert_ne by done. apply He.
  - intros c'. destruct Hdh as [-> | ->]; [done | apply Hc].
Qed.

(** [endDrag] in closed form, by the verdict of the final overlap
    check. *)
Lemma fractional_endDrag_spec w c e b :
  isDragging (dh w) = true -> currentContainer (dh w) = Some c ->
  dom w !! c = Some e ->
  checkOverlap icfg w e (inject_Z (parseInt (left e))) (inject_Z (parseInt (top e)))
    (dragIndex e) = Some b ->
  endDrag icfg w = Some
    (let released := {| isDragging := false; currentContainer := None;
                        startPosition := startPosition (dh w);
                        initialPosition := initialPosition (dh w) |} in
     let finalPosition := (parseInt (left e), parseInt (top e)) in
     if b then
       {| dom := <[c := {| left := inject_Z (initialPosition (dh w)).1;
                           top := inject_Z (initialPosition (dh w)).2;
                           width := width e; height := height e;
                           dragIndex := dragIndex e; overlapWarning := false |}]> (dom w);
          containerWidth := containerWidth w; filenames := filenames w; im := im w;
          dh := released;
          emitted := emitted w ++
            [DragCancelled (dragIndex e) "overlap" (initialPosition (dh w)) finalPosition];
          persisted := persisted w |}
     else
       {| dom := <[c := {| left := left e; top := top e;
                           width := width e; height := height e;
                           dragIndex := dragIndex e; overlapWarning := false |}]> (dom w);
          containerWidth := containerWidth w; filenames := filenames w;
          im := updateImagePosition (im w) (dragIndex e) (inject finalPosition);
          dh := released;
          emitted := emitted w ++
            [DragEnd (dragIndex e) finalPosition (initialPosition (dh w))];
          persisted := persisted (handleDragEnd w (dragIndex e) finalPosition) |}).
Proof.
  intros Hd Hc He Hb. unfold endDrag. rewrite Hd, Hc, He. simpl. rewrite Hb.
  pose proof (lookup_lt_Some _ _ _ He) as Hlt.
  destruct b; simpl.
  - rewrite list_lookup_insert_eq by done. unfold setHandler, setElement. simpl.
    by rewrite list_insert_insert_eq.
  - rewrite He. reflexivity.
Qed.

(** Every pointer event is handled, and the page stays consistent with
    the image manager. *)
Lemma fractional_handle_consistent w i :
  consistent w -> exists w', handle cfg icfg w i = Some w' /\ consistent w'.
Proof.
  intros Hw. destruct i as [tgt onh x y | x y |]; simpl.
  - destruct onh; [eauto|]. eexists; split; [reflexivity|].
    unfold startDrag. destruct (isDragging (dh w)); [done|].
    destruct (dom w !! tgt) as [e|] eqn:He; [|done].
    destruct Hw as (Hd & Hs & Hel & Hc). unfold consistent. simpl.
    repeat (split; [done|]). intros c [= <-]. by eapply lookup_lt_Some.
  - destruct (isDragging (dh w)); simpl; [|eauto].
    destruct (currentContainer (dh w)) as [c|] eqn:Hc;
      [|unfold updateDragPosition; rewrite Hc; eauto].
    pose proof Hw as (_ & _ & _ & Hcur).
    destruct (lookup_lt_is_Some_2 (dom w) c (Hcur c Hc)) as [e He].
    destruct (updateDragPosition cfg icfg w x y) as [w'|] eqn:Hu.
    + exists w'. split; [done|].
      destruct (fractional_updateDragPosition_keeps _ _ _ _ _ _ Hc He Hu)
        as (Hdh & Him & e' & Hdom & Hw' & Hh' & Hi').
      eapply fractional_consistent_setElement; eauto.
    + exfalso. unfold updateDragPosition in Hu. rewrite Hc, He in Hu.
      destruct (applyBoundaryConstraints _ _ _ _ _) as [nx ny].
      destruct (if DragHandler.snapToGrid cfg then _ else _) as [nx' ny'].
      destruct (fractional_checkOverlap_total w e nx' ny' (dragIndex e) Hw) as [b Hb].
      by rewrite Hb in Hu.
  - destruct (isDragging (dh w)) eqn:Hd; simpl; [|eauto].
    destruct (currentContainer (dh w)) as [c|] eqn:Hc;
      [|unfold endDrag; rewrite Hd, Hc; eauto].
    pose proof Hw as (Hlen & Hs & Hel & Hcur).
    destruct (lookup_lt_is_Some_2 (dom w) c (Hcur c Hc)) as [e He].
    destruct (fractional_checkOverlap_total w e (inject_Z (parseInt (left e)))
                (inject_Z (parseInt (top e))) (dragIndex e) Hw) as [b Hb].
    rewrite (fractional_endDrag_spec w c e b Hd Hc He Hb). eexists; split; [reflexivity|].
    destruct b; simpl.
    + eapply fractional_consistent_setElement with (e' := Element _ _ _ _ _ _); eauto.
    + unfold consistent. simpl. rewrite length_insert.
      unfold updateImagePosition.
      destruct (_ && _)%Z; simpl; rewrite ?length_insert;
        (split; [done|]; split; [done|]; split; [|done]);
        intros i x; (destruct (decide (i = c)) as [->|Hne];
          [rewrite list_lookup_insert_eq by (by eapply lookup_lt_Some);
           intros [= <-]; simpl; by apply Hel
          |rewrite list_lookup_insert_ne by done; apply Hel]).
Qed.



(** A page that shows the tiles of an image manager is consistent with
    it. *)
Lemma fractional_loaded_consistent W names m :
  length (sizes m) = length (positions m) -> consistent (loaded W names m).
Proof.
  intros Hlen. unfold consistent, loaded, elementsOf. simpl.
  rewrite length_imap, length_zip. split; [lia|]. split; [done|]. split; [|done].
  intros i e. rewrite list_lookup_imap.
  destruct (zip _ _ !! i) as [[p sz]|] eqn:Hz; [|done]. simpl. intros [= <-]. simpl.
  split; [done|]. apply lookup_zip_Some in Hz as [_ ->]. by destruct sz.
Qed.

End FractionalFacts.




(** A drag on a page of whole pixels, from rest, through any pointer
    moves, to the release. The verdict [b] of the final check is [true]
    exactly when the buffered box at the final position intersects that of
    another tile. If it is, the tile is back at its pre-drag position,
    ['drag:cancelled'] with reason [overlap] is the last event, no
    ['drag:end'] was emitted and neither the image manager nor the store
    has changed; otherwise ['drag:end'] carries the final position, which
    the image manager and the store take. *)
Lemma revert_on_overlap_whole_pixels
    (cfg : DragHandler.config) (icfg : ImageManager.config)
    (w0 w1 : DragHandler.world) (c : nat) (e0 e1 : DragHandler.element)
    (x y : Z) (moves : list (Z * Z)) (b : bool) :
  DragHandler.isDragging (DragHandler.dh w0) = false ->
  DragHandler.dom w0 !! c = Some e0 ->
  DragHandler.run cfg icfg w0
    (DragHandler.PointerDown c false x y ::
     map (fun m => DragHandler.PointerMove m.1 m.2) moves) = Some w1 ->
  DragHandler.dom w1 !! c = Some e1 ->
  DragHandler.checkOverlap icfg w1 e1 (DragHandler.left e1) (DragHandler.top e1)
    (DragHandler.dragIndex e1) = Some b ->
  let start := (DragHandler.left e0, DragHandler.top e0) in
  let final := (DragHandler.left e1, DragHandler.top e1) in
  (b = true <->
   exists (j : nat) p s,
     Z.of_nat j <> DragHandler.dragIndex e1 /\
     ImageManager.positions (DragHandler.im w1) !! j = Some p /\
     ImageManager.sizes (DragHandler.im w1) !! j = Some s /\
     ImageManager.tilesOverlap icfg final (DragHandler.width e1, DragHandler.height e1) p s
     = true) /\
  exists w2 evs e2,
    DragHandler.handle cfg icfg w1 DragHandler.PointerUp = Some w2 /\
    DragHandler.emitted w2 = DragHandler.emitted w0 ++ evs /\
    DragHandler.dom w2 !! c = Some e2 /\
    if b then
      (DragHandler.left e2, DragHandler.top e2) = start /\
      last evs = Some (DragHandler.DragCancelled (DragHandler.dragIndex e1) "overlap"
                         start final) /\
      Forall (fun ev => DragHandler.isDragEnd ev = false) evs /\
      DragHandler.im w2 = DragHandler.im w0 /\
      DragHandler.persisted w2 = DragHandler.persisted w0
    else
      (DragHandler.left e2, DragHandler.top e2) = final /\
      last evs = Some (DragHandler.DragEnd (DragHandler.dragIndex e1) final start) /\
      DragHandler.im w2 =
        ImageManager.updateImagePosition (DragHandler.im w0) (DragHandler.dragIndex e1) final /\
      DragHandler.persisted w2 =
        DragHandler.persisted w0 ++
        match DragHandler.getFilenameByIndex (DragHandler.filenames w0)
                (DragHandler.dragIndex e1) with
        | Some filename =>
            if String.eqb filename "" then []
            else [(filename,
                   (final, ImageManager.sizes (DragHandler.im w2)
                             !! Z.to_nat (DragHandler.dragIndex e1)))]
        | None => []
        end.
Proof.
  intros Hidle He0 Hrun He1 Hb start final. split.
  { unfold DragHandler.checkOverlap, ImageManager.wouldOverlap in Hb. split.
    - intros ->. apply wouldOverlap_from_true in Hb as (k & p & s & Hp & Hs & Hne & Hov).
      by exists k, p, s.
    - intros (j & p & s & Hne & Hp & Hs & Hov). destruct b; [done|].
      pose proof (wouldOverlap_from_false _ _ _ _ _ _ _ _ _ Hb j p s Hp Hs Hne) as Hno.
      unfold ImageManager.tilesOverlap in Hov. simpl in Hov. congruence. }
  simpl in Hrun.
  unfold DragHandler.startDrag in Hrun. rewrite Hidle, He0 in Hrun. simpl in Hrun.
  apply moves_keep in Hrun as (Hdh & Him & Hper & Hfn & evs & Hem & Hevs). simpl in *.
  assert (Hd : DragHandler.isDragging (DragHandler.dh w1) = true) by by rewrite Hdh.
  assert (Hc : DragHandler.currentContainer (DragHandler.dh w1) = Some c) by by rewrite Hdh.
  rewrite Hd. simpl. rewrite (endDrag_spec icfg w1 c e1 b Hd Hc He1 Hb).
  pose proof (lookup_lt_Some _ _ _ He1) as Hlt.
  rewrite Hdh, Hem, Him, Hper. simpl.
  destruct b; simpl.
  - eexists _, (_ :: evs ++ [_]), _. split; [reflexivity|]. simpl.
    split; [by rewrite <- !app_assoc|].
    rewrite list_lookup_insert_eq by done. split; [reflexivity|]. simpl.
    split; [done|]. split; [|split; [|done]].
    + by rewrite last_cons, last_snoc.
    + constructor; [done|]. apply Forall_app. split; [done|]. by constructor.
  - eexists _, (_ :: evs ++ [_]), _. split; [reflexivity|]. simpl.
    split; [by rewrite <- !app_assoc|].
    rewrite list_lookup_insert_eq by done. split; [reflexivity|]. simpl.
    split; [done|]. split; [by rewrite last_cons, last_snoc|]. split; [done|].
    rewrite Hfn, Hper, ?Him. simpl.
    destruct (DragHandler.getFilenameByIndex _ _) as [filename|]; [|by rewrite app_nil_r].
    destruct (String.eqb filename ""); [by rewrite app_nil_r | done].
Qed.

(** C2 at its failing input: a page 1000.5px wide, on which a.png
    (250 x 250) is dragged to the right-hand edge and dropped, then
    dragged from there onto b.png and dropped. The clamp leaves the tile
    at 740.5px; the drop is accepted, but ['drag:end'] announces (740, 10),
    which the image manager and the store take. The second drop overlaps
    b.png and is cancelled, with no ['drag:end'] and nothing more
    stored; but the tile is put back at 740px, half a pixel left of where
    it stood before that drag. *)
Theorem C2_fractional_revert_failing_input :
  let cfg := DragHandler.default_config in
  let icfg := ImageManager.default_config in
  exists w1 w2 e1 e2,
    Fractional.run cfg icfg Scenario.widePage Scenario.dragToTheEdge = Some w1 /\
    Fractional.dom w1 !! 0%nat = Some e1 /\
    (Fractional.left e1, Fractional.top e1) = (1481 # 2, 10)%Q /\
    Fractional.emitted w1 =
      [Fractional.DragStart 0 (10, 10);
       Fractional.DragMove 0 (1481 # 2, 10)%Q false;
       Fractional.DragEnd 0 (740, 10) (10, 10)] /\
    Fractional.positions (Fractional.im w1) !! 0%nat = Some (740, 10)%Q /\
    Fractional.persisted w1 = [("a.png"%string, ((740, 10), Some (250, 250)%Q))] /\
    Fractional.run cfg icfg w1 Scenario.dragOntoB = Some w2 /\
    Fractional.dom w2 !! 0%nat = Some e2 /\
    Fractional.emitted w2 =
      Fractional.emitted w1 ++
      [Fractional.DragStart 0 (740, 10);
       Fractional.DragMove 0 (400, 400)%Q true;
       Fractional.DragCancelled 0 "overlap" (740, 10) (400, 400)] /\
    Fractional.im w2 = Fractional.im w1 /\
    Fractional.persisted w2 = Fractional.persisted w1 /\
    (Fractional.left e2, Fractional.top e2) = (740, 10)%Q /\
    ~ (Fractional.left e2 == Fractional.left e1)%Q.
Proof.
  cbv zeta. eexists _, _, _, _.
  split; [vm_compute; reflexivity|].
  split; [reflexivity|].
  split; [reflexivity|].
  split; [reflexivity|].
  split; [reflexivity|].
  split; [reflexivity|].
  split; [vm_compute; reflexivity|].
  split; [reflexivity|].
  split; [reflexivity|].
  split; [reflexivity|].
  split; [reflexivity|].
  split; [reflexivity|].
  intros H. vm_compute in H. discriminate H.
Qed.

(** ** Resize: size constraints and the aspect ratio *)

Section ResizeFacts.

Import ResizeHandler.
Local Open Scope Q_scope.

Lemma gtb_true a b : gtb a b = true <-> b < a.
Proof.
  unfold gtb. rewrite negb_true_iff, <- not_true_iff_false, Qle_bool_iff.
  split; [apply Qnot_le_lt | apply Qlt_not_le].
Qed.

Lemma gtb_false a b : gtb a b = false <-> a <= b.
Proof. unfold gtb. by rewrite negb_false_iff, Qle_bool_iff. Qed.

Lemma ltb_true a b : ltb a b = true <-> a < b.
Proof. apply gtb_true. Qed.

Lemma ltb_false a b : ltb a b = false <-> b <= a.
Proof. apply gtb_false. Qed.

(** The independent clamp leaves a value between the bounds. *)
Lemma clamp_bounds lo hi x : lo <= hi -> lo <= Qmin hi (Qmax lo x) <= hi.
Proof.
  intros H. split; [|apply Q.le_min_l].
  apply Q.min_glb; [done | apply Q.le_max_l].
Qed.

Lemma div_mul r x : 0 < r -> r * (x / r) == x.
Proof. intros H. apply Qmult_div_r. intros E. rewrite E in H. by apply Qlt_irrefl in H. Qed.

(** [applySizeConstraints] when the ratio is kept, in terms of the
    clamped width [W] and the height [H] it implies. *)
Lemma keepRatio_cases cfg r W H :
  0 < minSize cfg -> minSize cfg <= maxSize cfg -> 0 < r ->
  minSize cfg <= W <= maxSize cfg -> r * H == W ->
  let s := if gtb H (maxSize cfg) then (maxSize cfg * r, maxSize cfg)
           else if ltb H (minSize cfg) then (minSize cfg * r, minSize cfg)
           else (W, H) in
  minSize cfg <= s.2 <= maxSize cfg /\
  (minSize cfg <= s.1 <= maxSize cfg <->
   minSize cfg <= r * maxSize cfg /\ r * minSize cfg <= maxSize cfg) /\
  s.1 == r * s.2.
Proof.
  intros Hmin Hle Hr [HW1 HW2] HH. simpl.
  destruct (gtb H (maxSize cfg)) eqn:E1; simpl.
  - apply gtb_true in E1. repeat split; try lra; try nra.
  - apply gtb_false in E1. destruct (ltb H (minSize cfg)) eqn:E2; simpl.
    + apply ltb_true in E2. repeat split; try lra; try nra.
    + apply ltb_false in E2. repeat split; try lra; try nra.
Qed.

Lemma applySizeConstraints_keepRatio cfg r w h :
  preserveAspectRatio cfg = true ->
  0 < minSize cfg -> minSize cfg <= maxSize cfg -> 0 < r ->
  let s := applySizeConstraints cfg r w h in
  minSize cfg <= s.2 <= maxSize cfg /\
  (minSize cfg <= s.1 <= maxSize cfg <->
   minSize cfg <= r * maxSize cfg /\ r * minSize cfg <= maxSize cfg) /\
  s.1 == r * s.2.
Proof.
  intros Hp Hmin Hle Hr. unfold applySizeConstraints. rewrite Hp. cbv zeta.
  apply keepRatio_cases with (W := Qmin (maxSize cfg) (Qmax (minSize cfg) w));
    try done; [by apply clamp_bounds | by apply div_mul].
Qed.

(** With the ratio kept and no grid snapping (both the defaults), the
    size of every move sample has exactly the ratio fixed at the start;
    with snapping it has it unless the width snapped to zero. *)
Lemma newSize_ratio cfg h x y :
  preserveAspectRatio cfg = true ->
  0 < minSize cfg -> minSize cfg <= maxSize cfg -> 0 < aspectRatio h ->
  let s := newSize cfg h x y in
  (snapToGrid cfg = false \/ ~ s.1 == 0) ->
  s.1 / s.2 == aspectRatio h.
Proof.
  intros Hp Hmin Hle Hr. unfold newSize. rewrite Hp. cbv zeta.
  pose proof (applySizeConstraints_keepRatio cfg (aspectRatio h)
    ((initialSize h).1 + (x - (startPosition h).1))
    (((initialSize h).1 + (x - (startPosition h).1)) / aspectRatio h)
    Hp Hmin Hle Hr) as (Hh & _ & Hw).
  destruct (applySizeConstraints _ _ _ _) as [nw nh]. simpl in Hh, Hw.
  destruct (snapToGrid cfg); simpl.
  - intros [|Hnz]; [done|].
    generalize dependent (round (nw / gridSize cfg) * gridSize cfg). intros sw Hnz.
    field. split; [lra | done].
  - intros _. rewrite Hw. field. lra.
Qed.

Lemma moves_ratio cfg clients : forall h,
  preserveAspectRatio cfg = true -> snapToGrid cfg = false ->
  0 < minSize cfg -> minSize cfg <= maxSize cfg -> 0 < aspectRatio h ->
  forall index size, ResizeMove index size ∈ moves cfg h clients ->
    size.1 / size.2 == aspectRatio h.
Proof.
  induction clients as [|c clients IH]; intros h Hp Hs Hmin Hle Hr index size; simpl.
  - by intros ?%elem_of_nil.
  - unfold handleMove. destruct (negb (isResizing h)); simpl.
    + by apply IH.
    + intros [E|Hin]%elem_of_cons.
      * injection E as _ ->. apply newSize_ratio; auto.
      * revert Hin. by apply IH.
Qed.

End ResizeFacts.

(** C3, as stated, fails for an extreme ratio: at ratio 100 the height is
    raised to the minimum 50 and the width recomputed from it is 5000. *)
Lemma C3_extreme_ratio_counterexample :
  ~ (let s := ResizeHandler.applySizeConstraints ResizeHandler.default_config 100 100 100 in
     (50 <= s.1 <= 2000 /\ 50 <= s.2 <= 2000)%Q).
Proof. vm_compute. intros [[_ H] _]. by apply H. Qed.

(** C3, amended: the height always ends within [minSize, maxSize]; when
    the aspect ratio is kept, the width ends within the bounds exactly
    when minSize / maxSize <= ratio <= maxSize / minSize (written with
    products), and always when the ratio is not kept. *)
Theorem C3_size_constraints (cfg : ResizeHandler.config) (r w h : Q) :
  (0 < ResizeHandler.minSize cfg)%Q ->
  (ResizeHandler.minSize cfg <= ResizeHandler.maxSize cfg)%Q ->
  (0 < r)%Q ->
  let s := ResizeHandler.applySizeConstraints cfg r w h in
  (ResizeHandler.minSize cfg <= s.2 <= ResizeHandler.maxSize cfg)%Q /\
  if ResizeHandler.preserveAspectRatio cfg then
    (ResizeHandler.minSize cfg <= s.1 <= ResizeHandler.maxSize cfg)%Q <->
    (ResizeHandler.minSize cfg <= r * ResizeHandler.maxSize cfg /\
     r * ResizeHandler.minSize cfg <= ResizeHandler.maxSize cfg)%Q
  else (ResizeHandler.minSize cfg <= s.1 <= ResizeHandler.maxSize cfg)%Q.
Proof.
  intros Hmin Hle Hr.
  destruct (ResizeHandler.preserveAspectRatio cfg) eqn:Hp.
  - destruct (applySizeConstraints_keepRatio cfg r w h Hp Hmin Hle Hr) as (H1 & H2 & _).
    done.
  - unfold ResizeHandler.applySizeConstraints. rewrite Hp. simpl.
    split; by apply clamp_bounds.
Qed.

(** C4 at its failing inputs: with grid snapping switched on, a width
    that snaps to zero makes the move sample 0 x 0, which has no ratio. The
    first gesture is a 1 x 500 image under the default step 10, the second
    a 60 x 60 image narrowed by 10 under a step of 200. *)
Theorem C4_snap_to_zero_failing_input :
  let snap10 := {| ResizeHandler.minSize := 50; ResizeHandler.maxSize := 2000;
                   ResizeHandler.preserveAspectRatio := true;
                   ResizeHandler.snapToGrid := true; ResizeHandler.gridSize := 10 |} in
  let snap200 := {| ResizeHandler.minSize := 50; ResizeHandler.maxSize := 2000;
                    ResizeHandler.preserveAspectRatio := true;
                    ResizeHandler.snapToGrid := true; ResizeHandler.gridSize := 200 |} in
  (forall index size,
     ResizeHandler.ResizeMove index size ∈
       ResizeHandler.gesture snap10 (ResizeHandler.resting (1, 500)%Q) 0 (0, 0)%Q [(0, 0)%Q] ->
     (size.1 == 0 /\ size.2 == 0)%Q) /\
  (forall index size,
     ResizeHandler.ResizeMove index size ∈
       ResizeHandler.gesture snap200 (ResizeHandler.resting (60, 60)%Q) 0 (0, 0)%Q
         [(- (10), 0)%Q] ->
     (size.1 == 0 /\ size.2 == 0)%Q) /\
  ResizeHandler.gesture snap10 (ResizeHandler.resting (1, 500)%Q) 0 (0, 0)%Q [(0, 0)%Q]
    = [ResizeHandler.ResizeStart 0 (1, 500)%Q (1 # 500);
       ResizeHandler.ResizeMove 0 (0, 0)%Q].
Proof.
  cbv zeta. split; [|split]; [| |by vm_compute].
  - intros index size. vm_compute (ResizeHandler.gesture _ _ _ _ _).
    intros [E|[E|E%elem_of_nil]%elem_of_cons]%elem_of_cons; [done| |done].
    injection E as _ ->. done.
  - intros index size. vm_compute (ResizeHandler.gesture _ _ _ _ _).
    intros [E|[E|E%elem_of_nil]%elem_of_cons]%elem_of_cons; [done| |done].
    injection E as _ ->. done.
Qed.

(** ** Storage: the quota path of [set] *)

Section StorageFacts.

Import JS StorageManager.

Variable setItemError : gmap string text -> string -> text -> option error.
Variable parseRaw : string -> option value.
Variable coerce : value -> number.

Local Abbreviation get := (StorageManager.get parseRaw).
Local Abbreviation looksOld := (StorageManager.looksOld coerce).
Local Abbreviation cleanupStep := (StorageManager.cleanupStep parseRaw coerce).
Local Abbreviation cleanup := (StorageManager.cleanup parseRaw coerce).
Local Abbreviation set := (StorageManager.set setItemError parseRaw coerce).

Lemma get_available key d st t :
  isAvailable st = true -> localStorage st !! key = Some t ->
  get key d st = parse parseRaw t.
Proof. intros Ha Ht. unfold StorageManager.get. by rewrite Ha, Ht. Qed.

(** The pass over the keys keeps the manager on [localStorage], removes
    entries only, and leaves no visited entry that looks old. *)
Lemma cleanup_fold_inv tda ks : forall acc,
  isAvailable acc.1 = true ->
  let r := foldl (cleanupStep tda) acc ks in
  isAvailable r.1 = true /\
  forall k t, localStorage r.1 !! k = Some t ->
    localStorage acc.1 !! k = Some t /\
    (k ∈ ks -> looksOld tda (parse parseRaw t) = false).
Proof.
  induction ks as [|k0 ks IH]; intros acc Ha; simpl.
  - split; [done|]. intros k t Hk. split; [done|]. by intros ?%elem_of_nil.
  - destruct (looksOld tda (get k0 VNull acc.1)) eqn:Hold.
    + replace (cleanupStep tda acc k0) with (remove k0 acc.1, acc.2 + 1)
        by (unfold StorageManager.cleanupStep; by rewrite Hold).
      destruct (IH (remove k0 acc.1, acc.2 + 1)) as [Ha' Hr];
        [by simpl; unfold remove; simpl|].
      split; [done|]. intros k t Hk. destruct (Hr k t Hk) as [Hk' Hks].
      simpl in Hk'. rewrite Ha in Hk'. apply lookup_delete_Some in Hk' as [Hne Hk'].
      split; [done|]. intros [->|Hin]%elem_of_cons; [done | auto].
    + replace (cleanupStep tda acc k0) with acc
        by (unfold StorageManager.cleanupStep; by rewrite Hold).
      destruct (IH acc Ha) as [Ha' Hr]. split; [done|].
      intros k t Hk. destruct (Hr k t Hk) as [Hk' Hks]. split; [done|].
      intros [->|Hin]%elem_of_cons; [|auto].
      by rewrite (get_available k0 VNull acc.1 t Ha Hk') in Hold.
Qed.

(** A pass over entries none of which looks old changes nothing. *)
Lemma cleanup_fold_id tda ks : forall acc,
  (forall k, k ∈ ks -> looksOld tda (get k VNull acc.1) = false) ->
  foldl (cleanupStep tda) acc ks = acc.
Proof.
  induction ks as [|k0 ks IH]; intros acc H; simpl; [done|].
  replace (cleanupStep tda acc k0) with acc
    by (unfold StorageManager.cleanupStep; by rewrite (H k0) by apply list_elem_of_here).
  apply IH. intros k Hk. apply H. by apply list_elem_of_further.
Qed.

Lemma keys_available st k :
  isAvailable st = true -> k ∈ keys st <-> is_Some (localStorage st !! k).
Proof.
  intros Ha. unfold keys. rewrite Ha, list_elem_of_fmap. split.
  - intros ([k' t] & -> & Hin%elem_of_map_to_list). eauto.
  - intros [t Ht]. exists (k, t). split; [done|]. by apply elem_of_map_to_list.
Qed.

(** After one cleanup a second one, at the same clock reading, removes
    nothing. *)
Lemma cleanup_twice now st :
  isAvailable st = true ->
  isAvailable (cleanup now st).1 = true /\
  cleanup now (cleanup now st).1 = ((cleanup now st).1, 0).
Proof.
  intros Ha. unfold StorageManager.cleanup at 1 2 4.
  destruct (cleanup_fold_inv (now - thirtyDays) (keys st) (st, 0) Ha) as [Ha' Hr].
  split; [done|]. set (st1 := (foldl _ _ _).1) in *.
  unfold StorageManager.cleanup. apply cleanup_fold_id. simpl.
  intros k [t Ht]%keys_available; [|done].
  rewrite (get_available k VNull st1 t Ha' Ht).
  destruct (Hr k t Ht) as [Hst Hks]. apply Hks. apply keys_available; eauto.
Qed.

(** [set] completes normally, with a boolean, once [depth] allows for
    the one retry: it never throws to its caller. *)
Lemma set_total depth now key v st :
  (2 <= depth)%nat -> exists b st', set depth now key v st = Some (Normal b st').
Proof.
  intros Hd. destruct depth as [|[|depth]]; [lia | lia |]. clear Hd.
  cbn [StorageManager.set].
  destruct (isAvailable st) eqn:Ha; [|eauto].
  destruct (setItemError (localStorage st) key (serialize v)) as [[|]|]; [|eauto|eauto].
  unfold StorageManager.handleQuotaExceeded at 1.
  destruct (cleanup_twice now st Ha) as [Ha1 Hc].
  destruct (cleanup now st) as [st1 n] eqn:Hcl. simpl in Ha1, Hc.
  destruct (0 <? n); [|eauto]. rewrite Ha1.
  destruct (setItemError (localStorage st1) key (serialize v)) as [[|]|]; [|eauto|eauto].
  unfold StorageManager.handleQuotaExceeded. rewrite Hc. simpl. eauto.
Qed.

(** A write that the browser accepts, or one to the in-memory map. *)
Lemma set_accepted depth now key v st :
  (isAvailable st = true -> setItemError (localStorage st) key (serialize v) = None) ->
  set (S depth) now key v st =
    Some (Normal true
            (if isAvailable st then
               {| isAvailable := true;
                  localStorage := <[key := serialize v]> (localStorage st);
                  fallbackStorage := fallbackStorage st |}
             else fallbackSet key v st)).
Proof.
  intros H. cbn [StorageManager.set]. destruct (isAvailable st) eqn:Ha; [|done].
  by rewrite H.
Qed.

End StorageFacts.

(** C7 at its failing inputs. (1) The payload exceeds the quota and an
    old entry is there to clean up: the retry fails as well, and the value
    is in neither store. (2) The payload exceeds the quota and nothing is
    old: no retry, the value is in neither store. (3) The cleanup makes
    room: the retry stores the value, and [set] still answers [false]. *)
Theorem C7_quota_path_failing_inputs :
  let set := StorageManager.set in
  (exists st',
     set (Browser.tooLargeFor "k") Browser.parseRaw Browser.coerce 2%nat Browser.now
         "k" Browser.payload Browser.withOldEntry = Some (StorageManager.Normal false st') /\
     StorageManager.localStorage st' = ∅ /\
     StorageManager.fallbackStorage st' !! "k"%string = None) /\
  set (Browser.tooLargeFor "k") Browser.parseRaw Browser.coerce 2%nat Browser.now
      "k" Browser.payload Browser.withPlainEntry
    = Some (StorageManager.Normal false Browser.withPlainEntry) /\
  (exists st',
     set (Browser.capacity 1) Browser.parseRaw Browser.coerce 2%nat Browser.now
         "k" Browser.payload Browser.withOldEntry = Some (StorageManager.Normal false st') /\
     StorageManager.localStorage st' !! "k"%string
       = Some (StorageManager.Json Browser.payload)).
Proof.
  cbv zeta. split; [|split].
  - eexists. split; [vm_compute; reflexivity|]. split; reflexivity.
  - vm_compute. reflexivity.
  - eexists. split; [vm_compute; reflexivity|]. reflexivity.
Qed.

(** ** Event bus: fan-out *)

Section EventBusFacts.

Import EventBus.

Context {A D : Type}.
Variable code : nat -> option nat -> D -> system A -> outcome (system A).

(** The protected call never lets an exception out, and records the
    listener as called. *)
Lemma protectedCall_returns data l r :
  exists r', protectedCall code data l r = Returned r' /\
    called r' = called r ++ [l] /\
    (logged r' = logged r \/ logged r' = logged r ++ [l]).
Proof.
  unfold protectedCall, call.
  destruct (code (callback l) (context l) data (sys r)) as [s'|s']; simpl;
    eexists; (split; [reflexivity|]); simpl; auto.
Qed.

(** The loop runs to the end of the copy, whatever the callbacks do to
    the subscriptions meanwhile. *)
Lemma forEach_protected data ls : forall r,
  exists r', forEach (protectedCall code data) ls r = Returned r' /\
    called r' = called r ++ ls /\
    exists errs, logged r' = logged r ++ errs /\ sublist errs ls.
Proof.
  induction ls as [|l ls IH]; intros r; simpl.
  - exists r. rewrite app_nil_r. split; [done|]. split; [done|].
    exists []. by rewrite app_nil_r.
  - destruct (protectedCall_returns data l r) as (r1 & -> & Hc & Hl).
    destruct (IH r1) as (r' & -> & Hc' & errs & Hl' & Hsub).
    exists r'. split; [done|]. split; [by rewrite Hc', Hc, <- app_assoc|].
    destruct Hl as [Hl | Hl]; rewrite Hl in Hl'.
    + exists errs. split; [done|]. by apply sublist_cons.
    + exists (l :: errs). split; [by rewrite <- app_assoc in Hl'|]. by apply sublist_skip.
Qed.

(** The loop of [emit] against the reading of the design document. *)
Lemma forEach_invokeEach data ls : forall r,
  forEach (protectedCall code data) ls r =
    Returned {| sys := (invokeEach code data ls (sys r)).1;
                called := called r ++ ls;
                logged := logged r ++ (invokeEach code data ls (sys r)).2 |}.
Proof.
  induction ls as [|l ls IH]; intros r; simpl.
  - rewrite !app_nil_r. by destruct r.
  - unfold protectedCall, call.
    destruct (code (callback l) (context l) data (sys r)) as [s'|s']; simpl.
    + rewrite IH. simpl. by rewrite <- app_assoc.
    + rewrite IH. simpl.
      destruct (invokeEach code data ls s') as [s'' thrown]. simpl.
      by rewrite <- !app_assoc.
Qed.

End EventBusFacts.

(** The first listener throws after unsubscribing the second: the second
    is called all the same, and only the failure is logged. *)
Example emit_snapshot_example :
  EventBus.emit Scenario.busCode "tick" 5 Scenario.busOfTwo
  = EventBus.Returned
      {| EventBus.sys :=
           {| EventBus.events := {["tick"%string := [EventBus.Listener 0 None]]};
              EventBus.app := 5 |};
         EventBus.called := [EventBus.Listener 0 None; EventBus.Listener 1 None];
         EventBus.logged := [EventBus.Listener 0 None] |}.
Proof. vm_compute. reflexivity. Qed.

(** C8: [emit] returns to its caller, having invoked exactly the
    listeners that were subscribed to the event when it started, each once
    and in subscription order, whether or not some of them threw or changed
    the subscriptions: the system it leaves is the one that invoking them
    one after the other gives, each on what its predecessor left; the
    listeners that threw, and only they, went to the error log. [on]
    appends, so subscription order is the order of the list. *)
Theorem C8_emit_fan_out {A D : Type}
    (code : nat -> option nat -> D -> EventBus.system A -> EventBus.outcome (EventBus.system A))
    (event : string) (data : D) (s : EventBus.system A) :
  (exists r,
     EventBus.emit code event data s = EventBus.Returned r /\
     EventBus.called r = EventBus.listenersOf s event /\
     EventBus.sys r = (EventBus.invokeEach code data (EventBus.listenersOf s event) s).1 /\
     EventBus.logged r = (EventBus.invokeEach code data (EventBus.listenersOf s event) s).2 /\
     sublist (EventBus.logged r) (EventBus.listenersOf s event)) /\
  (forall cb ctx,
     EventBus.listenersOf (EventBus.on event cb ctx s) event
       = EventBus.listenersOf s event ++ [EventBus.Listener cb ctx]).
Proof.
  split.
  - unfold EventBus.emit, EventBus.listenersOf.
    destruct (EventBus.events s !! event) as [ls|]; simpl.
    + destruct (forEach_protected code data ls (EventBus.Run s [] []))
        as (r & Hr & Hc & errs & Hl & Hsub).
      rewrite forEach_invokeEach in Hr. injection Hr as <-. simpl in *.
      eexists. split; [apply forEach_invokeEach|]. simpl.
      split; [done|]. split; [done|]. split; [done|]. by rewrite Hl.
    + eexists. split; [reflexivity|]. done.
  - intros cb ctx. unfold EventBus.listenersOf at 1, EventBus.on. simpl.
    by rewrite lookup_insert_eq.
Qed.

(** ** State store: theme, expiry and the round trip *)

Section StateFacts.

Import JS StateManager.

Variable setItemError :
  gmap string StorageManager.text -> string -> StorageManager.text ->
  option StorageManager.error.
Variable parseRaw : string -> option value.
Variable coerce : value -> number.
Variable cfg : config.

Local Abbreviation storageSet := (StateManager.storageSet setItemError parseRaw coerce).
Local Abbreviation saveImageStates :=
  (StateManager.saveImageStates setItemError parseRaw coerce cfg).
Local Abbreviation setTheme := (StateManager.setTheme setItemError parseRaw coerce cfg).
Local Abbreviation cleanupOldStates :=
  (StateManager.cleanupOldStates setItemError parseRaw coerce cfg).

(** A storage write touches the storage manager only. *)
Lemma storageSet_total depth now key v w :
  (2 <= depth)%nat ->
  exists s', storageSet depth now key v w
    = Some {| st := st w; storage := s'; emitted := emitted w |}.
Proof.
  intros Hd. unfold StateManager.storageSet.
  destruct (set_total setItemError parseRaw coerce depth now key v (storage w) Hd)
    as (b & s' & ->). eauto.
Qed.

Lemma saveImageStates_total depth now w :
  (2 <= depth)%nat ->
  exists s', saveImageStates depth now w
    = Some {| st := {| images := images (st w); theme := theme (st w);
                       lastSaved := Some now |};
              storage := s'; emitted := emitted w |}.
Proof.
  intros Hd. unfold StateManager.saveImageStates.
  match goal with |- context [storageSet _ _ _ ?v ?w1] =>
    destruct (storageSet_total depth now (imageStatesKey cfg) v w1 Hd) as (s' & ->) end.
  eauto.
Qed.

Lemma validateTheme_cases v :
  (v = VString "dark" /\ validateTheme v = "dark"%string) \/
  (v <> VString "dark" /\ validateTheme v = "light"%string).
Proof.
  destruct v as [| | | |s| |]; try (right; split; [done | reflexivity]).
  unfold validateTheme.
  destruct (String.eqb_spec s "dark") as [->|Hd]; [left; done|]. right.
  split; [congruence|].
  destruct (String.eqb_spec s "light") as [->|Hl]; reflexivity.
Qed.

(** [setTheme] in closed form. *)
Lemma setTheme_spec depth now v w :
  (2 <= depth)%nat ->
  exists s', setTheme depth now v w =
    Some (if String.eqb (validateTheme v) (theme (st w)) then w
          else {| st := {| images := images (st w); theme := validateTheme v;
                           lastSaved := lastSaved (st w) |};
                  storage := s';
                  emitted := emitted w ++ [ThemeUpdated (validateTheme v)] |}).
Proof.
  intros Hd. unfold StateManager.setTheme.
  destruct (String.eqb (validateTheme v) (theme (st w))); simpl; [by exists (storage w)|].
  match goal with |- context [storageSet _ _ ?k ?x ?w1] =>
    destruct (storageSet_total depth now k x w1 Hd) as (s' & ->) end.
  simpl. exists s'. reflexivity.
Qed.




Lemma getField_setField_ne k k' v fields :
  k <> k' -> getField k (setField k' v fields) = getField k fields.
Proof.
  intros Hne. induction fields as [|[k0 v0] fields IH]; simpl.
  - by destruct (String.eqb_spec k k').
  - destruct (String.eqb_spec k' k0) as [->|Hk']; simpl.
    + destruct (String.eqb_spec k k0); [done|]. by destruct (String.eqb_spec k k0).
    + by rewrite IH.
Qed.




Lemma finitePair_spec a :
  finitePair a = true <-> exists x y, a = VArray [num x; num y].
Proof.
  split.
  - destruct a as [| | | | |[|a0 [|a1 [|]]]|]; try done. simpl.
    destruct a0 as [| | |[]| | |], a1 as [| | |[]| | |]; try done. eauto.
  - by intros (x & y & ->).
Qed.

Lemma finitePair_json a : finitePair a = true -> json a = a /\ a <> VUndefined.
Proof. by intros (x & y & ->)%finitePair_spec. Qed.

(** The validator accepts exactly the records with the invariant of the
    data model. *)
Lemma validateImageState_spec s : validateImageState s = true <-> ValidPlacement s.
Proof.
  split.
  - destruct s as [| | | | | |fields];
      try (unfold validateImageState; simpl; rewrite ?orb_true_r; done).
    unfold validateImageState. simpl.
    destruct (finitePair (getField "position" fields)) eqn:Hp; [|done].
    destruct (finitePair (getField "size" fields)) eqn:Hs; [|done].
    apply finitePair_spec in Hp as (x & y & Hp), Hs as (w & h & Hs).
    rewrite Hs. simpl.
    destruct (Qle_bool w 0) eqn:Hw; [done|]. destruct (Qle_bool h 0) eqn:Hh; [done|].
    intros _. exists fields, x, y, w, h. repeat (split; [done|]).
    split; apply Qnot_le_lt; intros H%Qle_bool_iff; congruence.
  - intros (fields & x & y & w & h & -> & Hp & Hs & Hw & Hh).
    unfold validateImageState. simpl. rewrite Hp, Hs. simpl.
    assert (Qle_bool w 0 = false) as ->
      by (apply not_true_iff_false; intros H%Qle_bool_iff; by apply Qle_not_lt in H).
    assert (Qle_bool h 0 = false) as ->
      by (apply not_true_iff_false; intros H%Qle_bool_iff; by apply Qle_not_lt in H).
    done.
Qed.

Lemma ValidPlacement_stamp now s : ValidPlacement s -> ValidPlacement (stamp now s).
Proof.
  intros (fields & x & y & w & h & -> & Hp & Hs & Hw & Hh).
  exists (setField "timestamp" (num (inject_Z now)) fields), x, y, w, h.
  split; [done|]. by rewrite !getField_setField_ne.
Qed.




(** The loop of [validateImageStates]: a key that is not visited keeps
    its binding, a visited key with a valid record gets it. *)
Local Abbreviation keepValid :=
  (fun (validated : gmap string value) (entry : string * value) =>
     if validateImageState entry.2 then <[entry.1 := entry.2]> validated else validated).




Lemma getField_deleteField_ne k k' fields :
  k <> k' -> getField k (deleteField k' fields) = getField k fields.
Proof.
  intros Hne. induction fields as [|[k0 v0] fields IH]; simpl; [done|].
  destruct (String.eqb_spec k' k0) as [->|Hk'].
  - rewrite IH. by destruct (String.eqb_spec k k0).
  - simpl. by rewrite IH.
Qed.

(** [cleanupOldStates] in closed form: the records that are not expired
    stay, whether or not the map gets saved. *)
Lemma cleanupOldStates_spec depth now w :
  (2 <= depth)%nat ->
  exists w', cleanupOldStates depth now w = Some w' /\
    emitted w' = emitted w /\ theme (st w') = theme (st w) /\
    images (st w') =
      filter (fun entry =>
                expired coerce (now - stateExpiryDays cfg * 24 * 60 * 60 * 1000) entry.2
                = false) (images (st w)).
Proof.
  intros Hd. unfold StateManager.cleanupOldStates. cbv zeta.
  destruct (0 <? _); [|eexists; split; [reflexivity|]; done].
  match goal with |- context [saveImageStates _ _ ?w1] =>
    destruct (saveImageStates_total depth now w1 Hd) as (s' & ->) end.
  eexists; split; [reflexivity|]; done.
Qed.

Local Abbreviation setImageState :=
  (StateManager.setImageState setItemError parseRaw coerce cfg).
Local Abbreviation create := (StateManager.create setItemError parseRaw coerce cfg).




End StateFacts.

(** C9, as stated, fails when the theme is dark already: both calls are
    no-ops and no event is emitted at all. *)
Lemma C9_already_dark_counterexample :
  ~ (exists w1 w2,
       StateManager.setTheme (Browser.capacity 10) Browser.parseRaw Browser.coerce
         StateManager.default_config 2 Browser.now (JS.VString "dark") Browser.darkWorld
         = Some w1 /\
       StateManager.setTheme (Browser.capacity 10) Browser.parseRaw Browser.coerce
         StateManager.default_config 2 Browser.now (JS.VString "dark") w1 = Some w2 /\
       StateManager.themeUpdates (StateManager.emitted w2) = 1%nat).
Proof.
  intros (w1 & w2 & H1 & H2 & H3).
  vm_compute in H1. injection H1 as <-.
  vm_compute in H2. injection H2 as <-.
  discriminate H3.
Qed.

(** C9, amended: [setTheme] normalizes its argument (anything but the
    string dark becomes light, light included), does nothing when the
    normalized value is the current theme, and two calls of
    [setTheme ('dark')] in a row persist and emit ['theme:updated'] once
    when the theme was not dark before and not at all when it was; the
    second call never does anything. *)
Theorem C9_theme_idempotence
    (setItemError : gmap string StorageManager.text -> string -> StorageManager.text ->
                    option StorageManager.error)
    (parseRaw : string -> option JS.value) (coerce : JS.value -> JS.number)
    (cfg : StateManager.config) (depth : nat) (now1 now2 : Z) (w : StateManager.world) :
  (2 <= depth)%nat ->
  let setTheme := StateManager.setTheme setItemError parseRaw coerce cfg depth in
  (forall v, v <> JS.VString "dark" -> StateManager.validateTheme v = "light"%string) /\
  StateManager.validateTheme (JS.VString "dark") = "dark"%string /\
  (forall v now, StateManager.validateTheme v = StateManager.theme (StateManager.st w) ->
     setTheme now v w = Some w) /\
  exists w1,
    setTheme now1 (JS.VString "dark") w = Some w1 /\
    setTheme now2 (JS.VString "dark") w1 = Some w1 /\
    StateManager.theme (StateManager.st w1) = "dark"%string /\
    if String.eqb "dark" (StateManager.theme (StateManager.st w)) then w1 = w
    else
      StateManager.emitted w1
        = StateManager.emitted w ++ [StateManager.ThemeUpdated "dark"] /\
      exists b,
        StorageManager.set setItemError parseRaw coerce depth now1
          (StateManager.themeKey cfg) (JS.VString "dark") (StateManager.storage w)
        = Some (StorageManager.Normal b (StateManager.storage w1)).
Proof.
  intros Hd setTheme. subst setTheme.
  split; [|split; [reflexivity|split]].
  - intros v Hv. by destruct (validateTheme_cases v) as [[? _]|[_ ?]].
  - intros v now Hv. unfold StateManager.setTheme. rewrite Hv.
    by rewrite String.eqb_refl.
  - unfold StateManager.setTheme at 1.
    change (StateManager.validateTheme (JS.VString "dark")) with "dark"%string.
    destruct (String.eqb_spec "dark" (StateManager.theme (StateManager.st w))) as [E|E]; simpl.
    + exists w. split; [done|]. split; [|done].
      unfold StateManager.setTheme. cbn. by rewrite <- E.
    + unfold StateManager.storageSet.
      destruct (set_total setItemError parseRaw coerce depth now1
                  (StateManager.themeKey cfg) (JS.VString "dark")
                  (StateManager.storage w) Hd) as (b & s' & Hset).
      cbn [StateManager.storage]. rewrite Hset. simpl.
      eexists. split; [reflexivity|]. split; [|split; [done|]].
      * unfold StateManager.setTheme. reflexivity.
      * simpl. split; [done|]. by exists b.
Qed.

(** C10: a record whose [timestamp] is missing or otherwise falsy
    survives the expiry sweep whatever the clock says, and validation does
    not look at the [timestamp] at all, so such a record is also accepted
    in the first place. *)
Theorem C10_no_timestamp_never_expires
    (setItemError : gmap string StorageManager.text -> string -> StorageManager.text ->
                    option StorageManager.error)
    (parseRaw : string -> option JS.value) (coerce : JS.value -> JS.number)
    (cfg : StateManager.config) (depth : nat) (now : Z) (w : StateManager.world)
    (filename : string) (record : JS.value) :
  (2 <= depth)%nat ->
  StateManager.images (StateManager.st w) !! filename = Some record ->
  JS.truthy (JS.getProp record "timestamp") = false ->
  (exists w',
     StateManager.cleanupOldStates setItemError parseRaw coerce cfg depth now w = Some w' /\
     StateManager.getAllImageStates w' !! filename = Some record) /\
  (forall fields,
     StateManager.validateImageState (JS.VObject (JS.deleteField "timestamp" fields))
     = StateManager.validateImageState (JS.VObject fields)).
Proof.
  intros Hd Hrec Hts. split.
  - destruct (cleanupOldStates_spec setItemError parseRaw coerce cfg depth now w Hd)
      as (w' & Hw' & _ & _ & Himg).
    exists w'. split; [done|]. unfold StateManager.getAllImageStates. rewrite Himg.
    apply map_lookup_filter_Some. split; [done|]. simpl.
    unfold StateManager.expired. by rewrite Hts.
  - intros fields. unfold StateManager.validateImageState. simpl.
    by rewrite !getField_deleteField_ne.
Qed.


(** The other way to lose the record: the write hits the quota. The
    placement is still accepted and announced, but nothing reaches the
    storage, and the reload, a second later, finds nothing. *)
Example setImageState_quota_loses_record :
  exists w1 w2,
    StateManager.setImageState (Browser.tooLargeFor "imageStates") Browser.parseRaw
      Browser.coerce StateManager.default_config 2 Browser.now "a.png" Browser.placement
      Browser.freshWorld = Some (true, w1) /\
    StateManager.emitted w1 = [StateManager.StateSaved "a.png" Browser.placement] /\
    StateManager.create (Browser.tooLargeFor "imageStates") Browser.parseRaw Browser.coerce
      StateManager.default_config 2 (Browser.now + 1000) (StateManager.storage w1)
    = Some w2 /\
    StateManager.getImageState "a.png" w2 = StateManager.Data JS.VNull.
Proof.
  eexists _, _. split; [vm_compute; reflexivity|]. split; [reflexivity|].
  split; [vm_compute; reflexivity|]. vm_compute. reflexivity.
Qed.

(** And the filename [__proto__]: the placement is accepted and
    announced, but the assignment made no property of the map, so the
    storage is handed an empty map, and after the reload, a second later,
    the name answers with [Object.prototype] again. *)
Example setImageState_proto_loses_record :
  exists w1 w2,
    StateManager.setImageState (Browser.capacity 10) Browser.parseRaw Browser.coerce
      StateManager.default_config 2 Browser.now "__proto__" Browser.placement
      Browser.freshWorld = Some (true, w1) /\
    StateManager.emitted w1 = [StateManager.StateSaved "__proto__" Browser.placement] /\
    StorageManager.localStorage (StateManager.storage w1) !! "imageStates"%string
      = Some (StorageManager.Json (JS.VObject [])) /\
    StateManager.create (Browser.capacity 10) Browser.parseRaw Browser.coerce
      StateManager.default_config 2 (Browser.now + 1000) (StateManager.storage w1)
    = Some w2 /\
    StateManager.getAllImageStates w2 = ∅ /\
    StateManager.getImageState "__proto__" w2 = StateManager.Inherited "__proto__".
Proof.
  eexists _, _. split; [vm_compute; reflexivity|]. split; [reflexivity|].
  split; [vm_compute; reflexivity|].
  split; [vm_compute; reflexivity|]. split; vm_compute; reflexivity.
Qed.


(** ** The scenario *)



(** ** The theorems at concrete inputs *)



(** C3 at ratio 1 under the default bounds. *)
Lemma C3_witness :
  let s := ResizeHandler.applySizeConstraints ResizeHandler.default_config 1 100 100 in
  (50 <= s.2 <= 2000)%Q /\ ((50 <= s.1 <= 2000)%Q <-> (50 <= 1 * 2000 /\ 1 * 50 <= 2000)%Q).
Proof.
  apply (C3_size_constraints ResizeHandler.default_config 1 100 100); simpl; lra.
Defined.


(** C9 from the light theme: one event, and the second call changes
    nothing. *)
Lemma C9_witness :
  exists w1,
    StateManager.setTheme (Browser.capacity 10) Browser.parseRaw Browser.coerce
      StateManager.default_config 2 Browser.now (JS.VString "dark") Browser.freshWorld
    = Some w1 /\
    StateManager.setTheme (Browser.capacity 10) Browser.parseRaw Browser.coerce
      StateManager.default_config 2 (Browser.now + 1) (JS.VString "dark") w1 = Some w1 /\
    StateManager.emitted w1 = [StateManager.ThemeUpdated "dark"].
Proof.
  destruct (C9_theme_idempotence (Browser.capacity 10) Browser.parseRaw Browser.coerce
              StateManager.default_config 2 Browser.now (Browser.now + 1)
              Browser.freshWorld ltac:(lia))
    as (_ & _ & _ & w1 & H1 & H2 & _ & H3 & _).
  exists w1. split; [exact H1|]. split; [exact H2|]. exact H3.
Defined.

(** C10 on a page whose only record has no timestamp. *)
Lemma C10_witness :
  exists w',
    StateManager.cleanupOldStates (Browser.capacity 10) Browser.parseRaw Browser.coerce
      StateManager.default_config 2 Browser.now Browser.unstampedWorld = Some w' /\
    StateManager.getAllImageStates w' !! "a.png"%string = Some Browser.placement.
Proof.
  apply (C10_no_timestamp_never_expires (Browser.capacity 10) Browser.parseRaw
           Browser.coerce StateManager.default_config 2 Browser.now
           Browser.unstampedWorld "a.png" Browser.placement).
  - lia.
  - vm_compute. reflexivity.
  - reflexivity.
Defined.

(** * Further properties of the code *)

(** ** Layout *)

Section MoreLayout.

Import ImageManager.

Lemma wouldOverlap_total cfg im x y w h excl :
  (length (positions im) <= length (sizes im))%nat ->
  is_Some (wouldOverlap cfg im x y w h excl).
Proof. intros Hlen. apply wouldOverlap_from_total. simpl. lia. Qed.

(** X1: [wouldOverlap] answers, without raising, as soon as every position
    has its size, and it answers [true] exactly when the buffered box of
    the rectangle intersects that of a tile other than the excluded one;
    on an empty layout the answer is [false]. *)
Theorem wouldOverlap_spec cfg im x y w h excl :
  (length (positions im) <= length (sizes im))%nat ->
  exists b, wouldOverlap cfg im x y w h excl = Some b /\
    (b = true <->
     exists (j : nat) p s,
       Z.of_nat j <> excl /\ positions im !! j = Some p /\ sizes im !! j = Some s /\
       boxesOverlap (minSpacing cfg) x y w h p.1 p.2 s.1 s.2 = true) /\
    (positions im = [] -> b = false).
Proof.
  intros Hlen. unfold wouldOverlap.
  destruct (wouldOverlap_from_total (minSpacing cfg) (sizes im) x y w h excl
              (positions im) 0 ltac:(simpl; lia)) as [b Hb].
  exists b. split; [done|]. split; [split|].
  - intros ->. apply wouldOverlap_from_true in Hb as (k & p & s & Hp & Hs & Hne & Hov).
    by exists k, p, s.
  - intros (j & p & s & Hne & Hp & Hs & Hov). destruct b; [done|].
    pose proof (wouldOverlap_from_false _ _ _ _ _ _ _ _ _ Hb j p s Hp Hs Hne). congruence.
  - intros Hnil. rewrite Hnil in Hb. simpl in Hb. congruence.
Qed.

(** X2: The scaled size of an image of positive width on a canvas at least
    as wide as the margin: no dimension is negative or more than half the
    original, and the width leaves the 10px margin free. *)
Theorem scaledSize_bounds cfg W w h :
  0 < w -> 0 <= h -> 10 <= W ->
  let s := scaledSize cfg W (w, h) in
  0 <= s.1 /\ s.1 + 10 <= W /\ 2 * s.1 <= w /\ 0 <= s.2 /\ 2 * s.2 <= h.
Proof.
  intros Hw Hh HW. unfold scaledSize.
  assert (Hdiv : forall k a, 0 <= a -> 2 <= k -> 0 <= a / k /\ 2 * (a / k) <= a).
  { intros k a Ha Hk. pose proof (Z.div_pos a k Ha ltac:(lia)).
    pose proof (Z.mul_div_le a k ltac:(lia)). nia. }
  assert (Hcase : forall sw sh, 0 <= sw /\ 2 * sw <= w -> 0 <= sh /\ 2 * sh <= h ->
            let s := if W <? sw + 10 then (W - 10, sh * (W - 10) * 2 / w) else (sw, sh) in
            0 <= s.1 /\ s.1 + 10 <= W /\ 2 * s.1 <= w /\ 0 <= s.2 /\ 2 * s.2 <= h).
  { intros sw sh [Hsw1 Hsw2] [Hsh1 Hsh2]. destruct (Z.ltb_spec W (sw + 10)); simpl; [|lia].
    assert (0 <= sh * (W - 10) * 2 / w) by (apply Z.div_pos; nia).
    assert (sh * (W - 10) * 2 / w <= sh)
      by (apply Z.div_le_upper_bound; nia).
    lia. }
  destruct (16 * goalPixels cfg <? w * h); [apply Hcase; apply Hdiv; lia|].
  destruct (4 * goalPixels cfg <? w * h); apply Hcase; apply Hdiv; lia.
Qed.

(** X3: A grid cell respects the 10px margin on the left and on top; a tile
    that fits the canvas with its spacing also keeps the margin on the
    right, and one that does not is put in the first column. *)
Theorem calculatePosition_within W w h (index : nat) :
  0 <= w -> 0 <= h ->
  let p := calculatePosition W (w, h) (Z.of_nat index) in
  10 <= p.1 /\ 10 <= p.2 /\
  (w + 20 <= W -> p.1 + w + 10 <= W) /\
  (W < w + 20 -> p.1 = 10).
Proof.
  intros Hw Hh. unfold calculatePosition. simpl.
  set (cols := Z.max 1 (W / (w + 20))).
  assert (Hc : 1 <= cols) by (unfold cols; lia).
  rewrite Z.rem_mod_nonneg by lia.
  pose proof (Z.mod_pos_bound (Z.of_nat index) cols ltac:(lia)) as Hm.
  pose proof (Z.div_pos (Z.of_nat index) cols ltac:(lia) ltac:(lia)) as Hd.
  split; [nia|]. split; [nia|]. split.
  - intros Hfit. pose proof (Z.mul_div_le W (w + 20) ltac:(lia)) as Hq.
    assert (1 <= W / (w + 20)) by (apply Z.div_le_lower_bound; lia).
    assert (cols = W / (w + 20)) as Hcols by (unfold cols; lia). nia.
  - intros Hnarrow. assert (W / (w + 20) <= 0).
    { destruct (Z.lt_ge_cases W 0) as [Hneg|Hpos].
      - pose proof (Z.div_lt_upper_bound W (w + 20) 0 ltac:(lia) ltac:(lia)). lia.
      - rewrite Z.div_small by lia. lia. }
    assert (cols = 1) as Hcols by (unfold cols; lia).
    rewrite Hcols, Z.mod_1_r. lia.
Qed.

Lemma at_assign {X} (i j : nat) (v : option X) (array : list (option X)) :
  Load.at_ (Load.assign i v array) j = if decide (j = i) then v else Load.at_ array j.
Proof.
  unfold Load.at_, Load.assign. destruct (decide (i < length array)%nat) as [Hlt|Hge].
  - destruct (decide (j = i)) as [->|Hne].
    + by rewrite list_lookup_insert_eq.
    + by rewrite list_lookup_insert_ne.
  - destruct (decide (j = i)) as [->|Hne].
    + rewrite lookup_app_r by lia. rewrite lookup_app_r by (rewrite length_replicate; lia).
      rewrite length_replicate.
      by replace (i - length array - (i - length array))%nat with 0%nat by lia.
    + destruct (decide (j < length array)%nat) as [Hj|Hj].
      * by rewrite lookup_app_l.
      * rewrite (lookup_ge_None_2 array j) by lia. rewrite lookup_app_r by lia.
        destruct (decide (j < i)%nat) as [Hji|Hji].
        -- rewrite lookup_app_l by (rewrite length_replicate; lia).
           by rewrite lookup_replicate_2 by lia.
        -- rewrite lookup_ge_None_2; [done|].
           rewrite length_app, length_replicate. simpl. lia.
Qed.

Lemma length_assign {X} (i : nat) (v : option X) (array : list (option X)) :
  (length array <= i)%nat -> length (Load.assign i v array) = S i.
Proof.
  intros Hle. unfold Load.assign. rewrite decide_False by lia.
  rewrite !length_app, length_replicate. simpl. lia.
Qed.

(** The loop of [loadImagesProgressively] from an index at or past the
    end of [this.sizes]: the images with a saved state get what it holds,
    the others fail. *)
Lemma loadFrom_spec W getImageState md : forall i st,
  (length (Load.sizes st) <= i)%nat ->
  let r := Load.loadFrom W getImageState i md st in
  Load.positions r
    = Load.positions st ++ omap (fun e => Load.savedPosition (getImageState e.1)) md /\
  (forall j, Load.at_ (Load.sizes r) j =
     if decide (j < i)%nat then Load.at_ (Load.sizes st) j
     else md !! (j - i)%nat ≫= fun e => Load.savedSize (getImageState e.1)) /\
  (forall f j, (f, j) ∈ Load.errors r <->
     (f, j) ∈ Load.errors st \/
     exists orig, (i <= j)%nat /\ md !! (j - i)%nat = Some (f, orig) /\
       Load.savedSize (getImageState f) = None).
Proof.
  induction md as [|[f0 o0] md IH]; intros i st Hlen; simpl.
  - rewrite app_nil_r. split; [done|]. split.
    + intros j. destruct (decide (j < i)%nat); [done|].
      unfold Load.at_. by rewrite lookup_ge_None_2 by lia.
    + intros f j. split; [auto|]. by intros [?|(? & _ & ? & _)].
  - assert (Hund : Load.at_ (Load.sizes st) i = None)
      by (unfold Load.at_; by rewrite lookup_ge_None_2).
    rewrite Hund. unfold Load.loadSingleImage.
    destruct (getImageState f0) as [|p s|] eqn:Hsaved.
    + destruct (IH (S i) {| Load.positions := Load.positions st;
                            Load.sizes := Load.sizes st;
                            Load.errors := Load.errors st ++ [(f0, i)] |})
        as (HP & HS & HE); [simpl; lia|].
      simpl in *. split; [done|]. split.
      * intros j. rewrite HS.
        destruct (decide (j < S i)%nat), (decide (j < i)%nat); try lia.
        -- done.
        -- assert (j = i) as -> by lia. rewrite Nat.sub_diag. simpl. by rewrite Hsaved.
        -- by replace (j - i)%nat with (S (j - S i)) by lia.
      * intros f j. rewrite HE, elem_of_app, list_elem_of_singleton. split.
        -- intros [[?|[= -> ->]]|(orig & Hle & Hj & Hf)]; [auto| |].
           ++ right. exists o0. rewrite Nat.sub_diag. by rewrite Hsaved.
           ++ right. exists orig. split; [lia|]. split; [|done].
              by replace (j - i)%nat with (S (j - S i)) by lia.
        -- intros [?|(orig & Hle & Hj & Hf)]; [auto|].
           destruct (decide (j = i)) as [->|Hne].
           ++ rewrite Nat.sub_diag in Hj. simpl in Hj. injection Hj as <- <-. auto.
           ++ right. exists orig. split; [lia|]. split; [|done].
              by replace (j - i)%nat with (S (j - S i)) in Hj by lia.
    + destruct (IH (S i) {| Load.positions := Load.positions st ++ [Some p];
                            Load.sizes := Load.assign i (Some s) (Load.sizes st);
                            Load.errors := Load.errors st |})
        as (HP & HS & HE); [simpl; by rewrite length_assign|].
      simpl in *. split; [by rewrite HP, <- app_assoc|]. split.
      * intros j. rewrite HS, at_assign.
        destruct (decide (j < S i)%nat), (decide (j < i)%nat), (decide (j = i)); try lia.
        -- done.
        -- subst j. rewrite Nat.sub_diag. simpl. by rewrite Hsaved.
        -- by replace (j - i)%nat with (S (j - S i)) by lia.
      * intros f j. rewrite HE. split.
        -- intros [?|(orig & Hle & Hj & Hf)]; [auto|]. right. exists orig.
           split; [lia|]. split; [|done]. by replace (j - i)%nat with (S (j - S i)) by lia.
        -- intros [?|(orig & Hle & Hj & Hf)]; [auto|].
           destruct (decide (j = i)) as [->|Hne].
           ++ rewrite Nat.sub_diag in Hj. simpl in Hj. injection Hj as <- <-.
              rewrite Hsaved in Hf. done.
           ++ right. exists orig. split; [lia|]. split; [|done].
              by replace (j - i)%nat with (S (j - S i)) in Hj by lia.
    + destruct (IH (S i) {| Load.positions := Load.positions st ++ [None];
                            Load.sizes := Load.assign i None (Load.sizes st);
                            Load.errors := Load.errors st ++ [(f0, i)] |})
        as (HP & HS & HE); [simpl; by rewrite length_assign|].
      simpl in *. split; [by rewrite HP, <- app_assoc|]. split.
      * intros j. rewrite HS, at_assign.
        destruct (decide (j < S i)%nat), (decide (j < i)%nat), (decide (j = i)); try lia.
        -- done.
        -- subst j. rewrite Nat.sub_diag. simpl. by rewrite Hsaved.
        -- by replace (j - i)%nat with (S (j - S i)) by lia.
      * intros f j. rewrite HE, elem_of_app, list_elem_of_singleton. split.
        -- intros [[?|[= -> ->]]|(orig & Hle & Hj & Hf)]; [auto| |].
           ++ right. exists o0. rewrite Nat.sub_diag. by rewrite Hsaved.
           ++ right. exists orig. split; [lia|]. split; [|done].
              by replace (j - i)%nat with (S (j - S i)) by lia.
        -- intros [?|(orig & Hle & Hj & Hf)]; [auto|].
           destruct (decide (j = i)) as [->|Hne].
           ++ rewrite Nat.sub_diag in Hj. simpl in Hj. injection Hj as <- <-. auto.
           ++ right. exists orig. split; [lia|]. split; [|done].
              by replace (j - i)%nat with (S (j - S i)) in Hj by lia.
Qed.

(** X4: [loadImages] places the images that have a saved placement, and
    only them. [this.positions] gets the saved positions, in the order of
    the metadata (and an [undefined] for a saved state that is no
    placement); [this.sizes] holds the saved size at the index of each
    image that has one and [undefined] at every other index; and every
    image without a saved placement ends in ['image:error'] under its
    index, whatever its scaled size, because [clearAllImages] has emptied
    [this.sizes] before the loop reads it. *)
Theorem loadImages_places_saved_only cfg W getImageState md :
  let r := Load.loadImages cfg W getImageState md in
  Load.positions r = omap (fun e => Load.savedPosition (getImageState e.1)) md /\
  (forall i, Load.at_ (Load.sizes r) i
     = md !! i ≫= fun e => Load.savedSize (getImageState e.1)) /\
  (forall f i, (f, i) ∈ Load.errors r <->
     exists orig, md !! i = Some (f, orig) /\ Load.savedSize (getImageState f) = None).
Proof.
  cbv zeta. unfold Load.loadImages, Load.loadImagesProgressively, Load.clearAllImages.
  cbn [Load.sizes Load.errors].
  destruct (loadFrom_spec W getImageState md 0
              {| Load.positions := []; Load.sizes := []; Load.errors := [] |})
    as (HP & HS & HE); [simpl; lia|].
  simpl in *. split; [done|]. split.
  - intros i. rewrite HS. by rewrite Nat.sub_0_r.
  - intros f i. rewrite HE. split.
    + intros [H|(orig & _ & Hi & Hf)]; [by apply elem_of_nil in H|].
      exists orig. by rewrite Nat.sub_0_r in Hi.
    + intros (orig & Hi & Hf). right. exists orig. rewrite Nat.sub_0_r. split; [lia|done].
Qed.

(** The scenario with a saved placement for b.png only: b.png is placed,
    at index 0 of [this.positions], while its size sits at index 1 of
    [this.sizes], after a hole; a.png is not placed. *)
Example loadImages_saved_b :
  Load.loadImages default_config Scenario.canvasWidth Scenario.savedB Scenario.metadata
  = {| Load.positions := [Some (300, 40)]; Load.sizes := [None; Some (60, 60)];
       Load.errors := [("a.png"%string, 0%nat)] |}.
Proof. reflexivity. Qed.

(** An image called ["constructor"] on a first visit: the lookup of its
    saved state finds [Object.prototype.constructor], so an [undefined]
    position is recorded before the image fails. *)
Example loadImages_inherited_name :
  Load.loadImages default_config Scenario.canvasWidth Scenario.noSaved
    [("constructor"%string, (100, 100))]
  = {| Load.positions := [None]; Load.sizes := [None];
       Load.errors := [("constructor"%string, 0%nat)] |}.
Proof. reflexivity. Qed.

(** X5: [updateImagePosition] and [updateImageSize] write one slot of their
    own array when the index is in range and do nothing otherwise; the
    other array and the lengths stay. *)
Theorem update_lookup im index v (j : nat) :
  let imP := updateImagePosition im index v in
  let imS := updateImageSize im index v in
  sizes imP = sizes im /\ positions imS = positions im /\
  length (positions imP) = length (positions im) /\
  length (sizes imS) = length (sizes im) /\
  positions imP !! j =
    (if bool_decide (Z.of_nat j = index /\ (j < length (positions im))%nat)
     then Some v else positions im !! j) /\
  sizes imS !! j =
    (if bool_decide (Z.of_nat j = index /\ (j < length (sizes im))%nat)
     then Some v else sizes im !! j).
Proof.
  simpl. unfold updateImagePosition, updateImageSize.
  assert (Hgen : forall (l : list (Z * Z)),
    let l' := if (0 <=? index) && (index <? Z.of_nat (length l))
              then <[Z.to_nat index := v]> l else l in
    length l' = length l /\
    l' !! j = (if bool_decide (Z.of_nat j = index /\ (j < length l)%nat)
               then Some v else l !! j)).
  { intros l. simpl. destruct (_ && _) eqn:Hb.
    - apply andb_true_iff in Hb as [H0 Hlt]. apply Z.leb_le in H0. apply Z.ltb_lt in Hlt.
      rewrite length_insert. split; [done|].
      case_bool_decide as Hj.
      + destruct Hj as [<- Hj]. rewrite Nat2Z.id. by apply list_lookup_insert_eq.
      + destruct (decide (j = Z.to_nat index)) as [->|Hne].
        * exfalso. apply Hj. split; lia.
        * by rewrite list_lookup_insert_ne.
    - split; [done|]. case_bool_decide as Hj; [|done].
      destruct Hj as [<- Hj]. apply andb_false_iff in Hb as [Hb|Hb]; lia. }
  destruct (Hgen (positions im)) as [HP1 HP2]. destruct (Hgen (sizes im)) as [HS1 HS2].
  simpl in *.
  destruct ((0 <=? index) && (index <? Z.of_nat (length (positions im))));
  destruct ((0 <=? index) && (index <? Z.of_nat (length (sizes im)))); simpl in *; done.
Qed.

Lemma swap_head_perm {X} (l : list X) : forall (j : nat) (x b : X),
  l !! j = Some b -> b :: <[j := x]> l ≡ₚ x :: l.
Proof.
  induction l as [|y l IH]; intros [|j] x b Hj; simpl in *; try done.
  - injection Hj as ->. apply perm_swap.
  - rewrite (perm_swap y b), (IH j x b Hj). apply perm_swap.
Qed.

Lemma swap_perm {X} (l : list X) : forall (i j : nat) (a b : X),
  l !! i = Some a -> l !! j = Some b -> <[j := a]> (<[i := b]> l) ≡ₚ l.
Proof.
  induction l as [|x l IH]; intros [|i] [|j] a b Hi Hj; simpl in *; try done.
  - by injection Hi as ->.
  - injection Hi as ->. by apply swap_head_perm.
  - injection Hj as ->. by apply swap_head_perm.
  - by rewrite (IH i j a b).
Qed.

(** X6: [shuffleArray] only swaps entries: whatever the random draws, the
    result is a permutation of the input, of the same length. *)
Theorem shuffleArray_permutation {X} (draws : list nat) (array : list X) :
  shuffleArray draws array ≡ₚ array /\
  length (shuffleArray draws array) = length array.
Proof.
  assert (H : forall i ds (l : list X), shuffleFrom i ds l ≡ₚ l).
  { induction i as [|i IH]; intros ds l; simpl; [done|].
    destruct ds as [|j ds]; [done|].
    destruct (l !! S i) as [ai|] eqn:Hi; [|apply IH].
    destruct (l !! j) as [aj|] eqn:Hj; [|apply IH].
    rewrite IH. by apply swap_perm. }
  split; [apply H|]. apply Permutation_length, H.
Qed.

Lemma gridSteps_elem g limit x :
  0 < g ->
  x ∈ gridSteps g limit <-> exists k, 0 <= k /\ x = k * g /\ k * g <= limit.
Proof.
  intros Hg. unfold gridSteps. destruct (Z.ltb_spec limit 0) as [Hneg|Hpos].
  - split; [by intros ?%elem_of_nil|]. intros (k & Hk & -> & Hle). nia.
  - rewrite list_elem_of_fmap. setoid_rewrite elem_of_seq.
    pose proof (Z.div_pos limit g Hpos Hg) as Hq.
    pose proof (Z.mul_div_le limit g Hg) as Hq1.
    pose proof (Z.mul_succ_div_gt limit g Hg) as Hq2.
    split.
    + intros (k & -> & _ & Hk). exists (Z.of_nat k). split; [lia|]. split; [done|]. nia.
    + intros (k & Hk & -> & Hle). exists (Z.to_nat k). rewrite Z2Nat.id by lia.
      split; [done|]. split; [lia|]. nia.
Qed.

Lemma scanRow_spec cfg im w h y xs :
  (length (positions im) <= length (sizes im))%nat ->
  exists r, scanRow cfg im w h y xs = Some r /\
    match r with
    | Some p => p.2 = y /\ p.1 ∈ xs /\ wouldOverlap cfg im p.1 y w h (-1) = Some false
    | None => forall x, x ∈ xs -> wouldOverlap cfg im x y w h (-1) = Some true
    end.
Proof.
  intros Hlen. induction xs as [|x xs IH]; simpl.
  - eexists; split; [done|]. by intros x ?%elem_of_nil.
  - destruct (wouldOverlap_total cfg im x y w h (-1) Hlen) as [b Hb]. rewrite Hb.
    destruct b.
    + destruct IH as (r & -> & Hr). exists r. split; [done|].
      destruct r as [p|].
      * destruct Hr as (? & ? & ?). repeat split; try done. by apply list_elem_of_further.
      * intros x' [->|Hx']%elem_of_cons; auto.
    + eexists; split; [done|]. simpl. repeat split; try done. apply list_elem_of_here.
Qed.

Lemma scanRows_spec cfg im w h xs ys :
  (length (positions im) <= length (sizes im))%nat ->
  exists r, scanRows cfg im w h xs ys = Some r /\
    match r with
    | Some p => p.1 ∈ xs /\ p.2 ∈ ys /\ wouldOverlap cfg im p.1 p.2 w h (-1) = Some false
    | None => forall x y, x ∈ xs -> y ∈ ys -> wouldOverlap cfg im x y w h (-1) = Some true
    end.
Proof.
  intros Hlen. induction ys as [|y ys IH]; simpl.
  - eexists; split; [done|]. by intros x y _ ?%elem_of_nil.
  - destruct (scanRow_spec cfg im w h y xs Hlen) as (r0 & -> & Hr0).
    destruct r0 as [p|].
    + eexists; split; [done|]. destruct Hr0 as (Hy & Hx & Hov). simpl.
      split; [done|]. split; [rewrite Hy; apply list_elem_of_here|]. by rewrite Hy.
    + destruct IH as (r & -> & Hr). exists r. split; [done|].
      destruct r as [p|].
      * destruct Hr as (? & ? & ?). repeat split; try done. by apply list_elem_of_further.
      * intros x y' Hx [->|Hy']%elem_of_cons; auto.
Qed.

(** X7: [tryGridPlacement] on a layout whose positions all have a size, for
    a positive grid step: it raises nothing; a position it returns is a
    grid point inside the search area that is clear of every tile, so
    that adding the tile there keeps a layout without overlaps; and it
    returns [null] only when every grid point of the area is taken. *)
Theorem tryGridPlacement_sound cfg im w h W H :
  0 < gridSize cfg -> length (positions im) = length (sizes im) ->
  exists r, tryGridPlacement cfg im w h W H = Some r /\
    match r with
    | Some (x, y) =>
        0 <= x <= W - w /\ 0 <= y <= H - h /\
        (gridSize cfg | x) /\ (gridSize cfg | y) /\
        wouldOverlap cfg im x y w h (-1) = Some false /\
        (noOverlap cfg im ->
         noOverlap cfg {| positions := positions im ++ [(x, y)];
                          sizes := sizes im ++ [(w, h)] |})
    | None =>
        forall kx ky, 0 <= kx -> 0 <= ky ->
          kx * gridSize cfg <= W - w -> ky * gridSize cfg <= H - h ->
          wouldOverlap cfg im (kx * gridSize cfg) (ky * gridSize cfg) w h (-1) = Some true
    end.
Proof.
  intros Hg Hlen. unfold tryGridPlacement.
  destruct (scanRows_spec cfg im w h (gridSteps (gridSize cfg) (W - w))
              (gridSteps (gridSize cfg) (H - h)) ltac:(lia)) as (r & -> & Hr).
  exists r. split; [done|]. destruct r as [[x y]|]; simpl in *.
  - destruct Hr as (Hx & Hy & Hov).
    apply gridSteps_elem in Hx as (kx & Hkx & -> & Hlx); [|done].
    apply gridSteps_elem in Hy as (ky & Hky & -> & Hly); [|done].
    split; [nia|]. split; [nia|].
    split; [by exists kx|]. split; [by exists ky|]. split; [done|].
    intros Hno.
    assert (Hfree : forall (j : nat) p s, positions im !! j = Some p -> sizes im !! j = Some s ->
              boxesOverlap (minSpacing cfg) (kx * gridSize cfg) (ky * gridSize cfg) w h
                p.1 p.2 s.1 s.2 = false).
    { intros j p s Hp Hs. unfold wouldOverlap in Hov.
      apply (wouldOverlap_from_false _ _ _ _ _ _ _ _ _ Hov j p s Hp Hs). simpl. lia. }
    intros i j p1 s1 p2 s2 Hij. simpl.
    destruct (decide (i < length (positions im))%nat) as [Hi|Hi];
    destruct (decide (j < length (positions im))%nat) as [Hj|Hj].
    + rewrite !lookup_app_l by lia. by apply Hno.
    + rewrite (lookup_app_l _ _ i), (lookup_app_l _ _ i) by lia.
      rewrite (lookup_app_r _ _ j), (lookup_app_r (sizes im) _ j) by lia.
      intros Hp1 Hs1 Hp2 Hs2.
      apply list_lookup_singleton_Some in Hp2 as [_ <-].
      apply list_lookup_singleton_Some in Hs2 as [_ <-].
      rewrite tilesOverlap_sym. unfold tilesOverlap. simpl. eauto.
    + rewrite (lookup_app_l _ _ j), (lookup_app_l _ _ j) by lia.
      rewrite (lookup_app_r _ _ i), (lookup_app_r (sizes im) _ i) by lia.
      intros Hp1 Hs1 Hp2 Hs2.
      apply list_lookup_singleton_Some in Hp1 as [_ <-].
      apply list_lookup_singleton_Some in Hs1 as [_ <-].
      unfold tilesOverlap. simpl. eauto.
    + rewrite (lookup_app_r _ _ i), (lookup_app_r _ _ j) by lia.
      intros Hp1 _ Hp2 _.
      apply list_lookup_singleton_Some in Hp1 as [? _].
      apply list_lookup_singleton_Some in Hp2 as [? _]. lia.
  - intros kx ky Hkx Hky Hlx Hly. apply Hr; apply gridSteps_elem; eauto.
Qed.

End MoreLayout.

(** ** Drag *)

Section MoreDrag.

Import DragHandler.

Variable cfg : config.
Variable icfg : ImageManager.config.





Lemma handle_frame w i w' :
  handle cfg icfg w i = Some w' ->
  ImageManager.sizes (im w') = ImageManager.sizes (im w) /\
  length (ImageManager.positions (im w')) = length (ImageManager.positions (im w)) /\
  length (dom w') = length (dom w) /\
  filenames w' = filenames w /\ containerWidth w' = containerWidth w /\
  (exists evs, emitted w' = emitted w ++ evs) /\
  (exists ps, persisted w' = persisted w ++ ps).
Proof.
  assert (Hid : ImageManager.sizes (im w) = ImageManager.sizes (im w) /\
            length (ImageManager.positions (im w)) = length (ImageManager.positions (im w)) /\
            length (dom w) = length (dom w) /\
            filenames w = filenames w /\ containerWidth w = containerWidth w /\
            (exists evs, emitted w = emitted w ++ evs) /\
            (exists ps, persisted w = persisted w ++ ps)).
  { repeat (split; [done|]). split; exists []; by rewrite app_nil_r. }
  destruct i as [tgt onh x y | x y |]; simpl.
  - destruct onh; [by intros [= <-]|]. intros [= <-]. unfold startDrag.
    destruct (isDragging (dh w)); [done|]. destruct (dom w !! tgt) as [e|]; [|done].
    simpl. repeat (split; [done|]). split; [eauto|]. exists []. by rewrite app_nil_r.
  - destruct (isDragging (dh w)); simpl; [|by intros [= <-]].
    unfold updateDragPosition. destruct (currentContainer (dh w)) as [c|]; [|by intros [= <-]].
    destruct (dom w !! c) as [e|]; [|done].
    destruct (applyBoundaryConstraints _ _ _ _ _) as [nx ny].
    destruct (if snapToGrid cfg then _ else _) as [nx' ny'].
    destruct (checkOverlap _ _ _ _ _ _) as [b|]; [|done].
    intros [= <-]. simpl. rewrite length_insert. repeat (split; [done|]).
    split; [eauto|]. exists []. by rewrite app_nil_r.
  - destruct (isDragging (dh w)) eqn:Hd; simpl; [|by intros [= <-]].
    unfold endDrag. rewrite Hd. simpl.
    destruct (currentContainer (dh w)) as [c|]; [|by intros [= <-]].
    destruct (dom w !! c) as [e|] eqn:He; [|done].
    destruct (checkOverlap _ _ _ _ _ _) as [[|]|]; [| |done]; intros [= <-]; simpl.
    + destruct (<[c:=_]> (dom w) !! c); simpl; rewrite ?length_insert;
        (repeat (split; [done|])); (split; [eauto|]); exists []; by rewrite app_nil_r.
    + rewrite He. simpl. rewrite length_insert. unfold ImageManager.updateImagePosition.
      destruct (_ && _); simpl; rewrite ?length_insert; (repeat (split; [done|]));
        (split; [eauto|]);
        (destruct (getFilenameByIndex _ _) as [fn|]; [|exists []; by rewrite app_nil_r]);
        (destruct (String.eqb fn ""); [exists []; by rewrite app_nil_r | eauto]).
Qed.

(** X11: What dragging never does: whatever the pointer events, the sizes of
    the tiles, the number of tiles on the page and in the image manager,
    the filenames and the canvas width stay as they are, and the event log
    and the list of persisted placements only grow. *)
Theorem drag_frame inputs : forall w w',
  run cfg icfg w inputs = Some w' ->
  ImageManager.sizes (im w') = ImageManager.sizes (im w) /\
  length (ImageManager.positions (im w')) = length (ImageManager.positions (im w)) /\
  length (dom w') = length (dom w) /\
  filenames w' = filenames w /\ containerWidth w' = containerWidth w /\
  (exists evs, emitted w' = emitted w ++ evs) /\
  (exists ps, persisted w' = persisted w ++ ps).
Proof.
  induction inputs as [|i inputs IH]; intros w w'; simpl.
  - intros [= <-]. repeat (split; [done|]). split; exists []; by rewrite app_nil_r.
  - destruct (handle cfg icfg w i) as [w1|] eqn:H1; [|done].
    intros (-> & -> & -> & -> & -> & [evs ->] & [ps ->])%IH.
    apply handle_frame in H1 as (-> & -> & -> & -> & -> & [evs1 ->] & [ps1 ->]).
    repeat (split; [done|]).
    split; [exists (evs1 ++ evs) | exists (ps1 ++ ps)]; by rewrite app_assoc.
Qed.

End MoreDrag.

(** ** Drag on a page with fractional lengths *)

Section MoreFractionalDrag.

Import Fractional.

Variable cfg : DragHandler.config.
Variable icfg : ImageManager.config.

Lemma fractional_handle_inPlace w i w' :
  consistent w -> inPlace w -> engaged w ->
  handle cfg icfg w i = Some w' -> inPlace w' /\ engaged w'.
Proof.
  intros Hw Hin Hen. destruct i as [tgt onh x y | x y |]; simpl.
  - destruct onh; [by intros [= <-]|]. intros [= <-]. unfold startDrag.
    destruct (isDragging (dh w)) eqn:Hd; [done|].
    destruct (dom w !! tgt) as [e|] eqn:He; [|done]. split.
    + intros i e' p Hi Hp. simpl in *. specialize (Hin i e' p Hi Hp).
      rewrite Hd in Hin. simpl in Hin. case_bool_decide as Hc; [|done].
      injection Hc as ->. rewrite He in Hi. by injection Hi as ->.
    + unfold engaged. simpl. split; eauto.
  - destruct (isDragging (dh w)) eqn:Hd; simpl; [|by intros [= <-]].
    destruct (currentContainer (dh w)) as [c|] eqn:Hc;
      [|unfold updateDragPosition; rewrite Hc; by intros [= <-]].
    pose proof Hw as (_ & _ & _ & Hcur).
    destruct (lookup_lt_is_Some_2 (dom w) c (Hcur c Hc)) as [e He].
    intros Hu.
    destruct (fractional_updateDragPosition_keeps cfg icfg _ _ _ _ _ _ Hc He Hu)
      as (Hdh & Him & e' & Hdom & _).
    split; [|unfold engaged; by rewrite Hdh].
    intros i x0 p. rewrite Hdom, Hdh, Him, Hd, Hc. simpl.
    destruct (decide (i = c)) as [->|Hne].
    + intros _ Hp. rewrite bool_decide_eq_true_2 by done.
      specialize (Hin c e p He Hp). rewrite Hd, Hc in Hin. simpl in Hin.
      by rewrite bool_decide_eq_true_2 in Hin.
    + rewrite list_lookup_insert_ne by done. intros Hi Hp.
      specialize (Hin i x0 p Hi Hp). by rewrite Hd, Hc in Hin.
  - destruct (isDragging (dh w)) eqn:Hd; simpl; [|by intros [= <-]].
    destruct (currentContainer (dh w)) as [c|] eqn:Hc;
      [|unfold endDrag; rewrite Hd, Hc; by intros [= <-]].
    pose proof Hw as (Hlen & Hs & Hel & Hcur).
    destruct (lookup_lt_is_Some_2 (dom w) c (Hcur c Hc)) as [e He].
    destruct (fractional_checkOverlap_total icfg w e (inject_Z (parseInt (left e)))
                (inject_Z (parseInt (top e))) (dragIndex e) Hw) as [b Hb].
    rewrite (fractional_endDrag_spec icfg w c e b Hd Hc He Hb). intros [= <-].
    pose proof (lookup_lt_Some _ _ _ He) as Hlt.
    split; [|unfold engaged; destruct b; simpl; (split; [done | by intros [? ?]])].
    assert (Hrest : forall i x0 p, i <> c -> dom w !! i = Some x0 ->
              positions (im w) !! i = Some p -> pixel (left x0, top x0) = pixel p).
    { intros i x0 p Hne Hi Hp. specialize (Hin i x0 p Hi Hp). rewrite Hd, Hc in Hin.
      simpl in Hin. rewrite bool_decide_eq_false_2 in Hin; [done | congruence]. }
    destruct b; simpl; intros i x0 p; simpl.
    + destruct (decide (i = c)) as [->|Hne].
      * rewrite list_lookup_insert_eq by done. intros [= <-] Hp. simpl.
        specialize (Hin c e p He Hp). rewrite Hd, Hc in Hin. simpl in Hin.
        rewrite bool_decide_eq_true_2 in Hin by done. rewrite <- Hin.
        unfold pixel. simpl. rewrite !parseInt_inject_Z.
        by destruct (initialPosition (dh w)).
      * rewrite list_lookup_insert_ne by done. by apply Hrest.
    + destruct (Hel c e He) as [Hidx _]. unfold updateImagePosition.
      rewrite Hidx.
      replace (_ && _)%Z with true by (symmetry; apply andb_true_iff; split; lia).
      rewrite Nat2Z.id. simpl.
      destruct (decide (i = c)) as [->|Hne].
      * rewrite !list_lookup_insert_eq by lia. intros [= <-] [= <-]. simpl.
        by rewrite pixel_inject.
      * rewrite !list_lookup_insert_ne by done. by apply Hrest.
Qed.

Lemma fractional_run_inPlace inputs : forall w,
  consistent w -> inPlace w -> engaged w ->
  exists w', run cfg icfg w inputs = Some w' /\ consistent w' /\ inPlace w' /\ engaged w'.
Proof.
  induction inputs as [|i inputs IH]; intros w Hw Hin Hen; simpl; [eauto|].
  destruct (fractional_handle_consistent cfg icfg w i Hw) as (w1 & H1 & Hw1). rewrite H1.
  destruct (fractional_handle_inPlace w i w1 Hw Hin Hen H1) as [Hin1 Hen1]. by apply IH.
Qed.

Lemma fractional_loaded_inPlace W names m : inPlace (loaded W names m).
Proof.
  intros i e p. unfold loaded, elementsOf. simpl. rewrite list_lookup_imap.
  destruct (zip _ _ !! i) as [[q sz]|] eqn:Hz; [|done]. simpl. intros [= <-]. simpl.
  apply lookup_zip_Some in Hz as [-> _]. intros [= <-]. by destruct q.
Qed.

(** X10: On a page that shows the tiles of an image manager, lengths
    fractional or not, any stream of pointer events is handled to the
    end, and then: while no drag is in progress, every tile is shown in
    the whole pixel that the image manager records for it ([parseInt] of
    its displayed left and top is [parseInt] of the record); during a
    drag, the record of the dragged tile is, in whole pixels, the position
    the drag started from, and every other tile is shown in the pixel of
    its record. *)
Theorem page_follows_manager W names m inputs :
  length (sizes m) = length (positions m) ->
  exists w',
    run cfg icfg (loaded W names m) inputs = Some w' /\
    length (dom w') = length (positions (im w')) /\
    (isDragging (dh w') = true <-> is_Some (currentContainer (dh w'))) /\
    forall (i : nat) e, dom w' !! i = Some e ->
      exists p, positions (im w') !! i = Some p /\
        pixel p =
          if isDragging (dh w') && bool_decide (currentContainer (dh w') = Some i)
          then initialPosition (dh w') else pixel (left e, top e).
Proof.
  intros Hlen.
  destruct (fractional_run_inPlace inputs (loaded W names m)) as (w' & Hrun & Hw' & Hin & Hen).
  - by apply fractional_loaded_consistent.
  - apply fractional_loaded_inPlace.
  - unfold engaged, loaded. simpl. split; [done | by intros [? ?]].
  - exists w'. split; [done|]. destruct Hw' as (Hd & _). split; [done|]. split; [done|].
    intros i e He.
    destruct (lookup_lt_is_Some_2 (positions (im w')) i) as [p Hp].
    { rewrite <- Hd. by eapply lookup_lt_Some. }
    exists p. split; [done|]. specialize (Hin i e p He Hp).
    by destruct (isDragging (dh w') && _).
Qed.

End MoreFractionalDrag.

(** ** Resize *)

Section MoreResize.

Import ResizeHandler.
Local Open Scope Q_scope.




Lemma moves_free cfg clients : forall h,
  preserveAspectRatio cfg = false -> snapToGrid cfg = false -> isResizing h = true ->
  moves cfg h clients =
    map (fun c => ResizeMove (resizeIndex h)
           (Qmin (maxSize cfg) (Qmax (minSize cfg) ((initialSize h).1 + (c.1 - (startPosition h).1))),
            Qmin (maxSize cfg) (Qmax (minSize cfg) ((initialSize h).2 + (c.2 - (startPosition h).2)))))
        clients.
Proof.
  induction clients as [|c clients IH]; intros h Hp Hs Hres; simpl; [done|].
  unfold handleMove. rewrite Hres. simpl. rewrite IH by done. simpl.
  unfold newSize, applySizeConstraints. by rewrite Hp, Hs.
Qed.

(** X13: A resize gesture with the ratio free and no snapping: after
    ['resize:start'], each pointer move gives one ['resize:move'] whose
    width and height are the extent at pointer-down plus the pointer's
    displacement since then, each clamped to the size bounds: the samples
    do not accumulate. Pointer moves outside a gesture emit nothing. *)
Theorem gesture_free_resize cfg w0 h0 index down clients :
  preserveAspectRatio cfg = false -> snapToGrid cfg = false ->
  gesture cfg (resting (w0, h0)) index down clients =
    ResizeStart index (w0, h0) (w0 / h0) ::
    map (fun c => ResizeMove index
           (Qmin (maxSize cfg) (Qmax (minSize cfg) (w0 + (c.1 - down.1))),
            Qmin (maxSize cfg) (Qmax (minSize cfg) (h0 + (c.2 - down.2))))) clients /\
  moves cfg (resting (w0, h0)) clients = [].
Proof.
  intros Hp Hs. split.
  - unfold gesture, startResize, resting. simpl. f_equal. by rewrite moves_free.
  - induction clients as [|c clients IH]; [done|]. simpl. exact IH.
Qed.

End MoreResize.

(** ** Event bus: subscriptions *)

Section MoreEventBus.

Import EventBus.

Context {A D : Type}.
Variable code : nat -> option nat -> D -> system A -> outcome (system A).

Lemma removeFirst_Some l ls r :
  removeFirst l ls = Some r <->
  exists l1 l2, ls = l1 ++ (l :: l2) /\ (l ∉ l1) /\ r = l1 ++ l2.
Proof.
  revert r. induction ls as [|x ls IH]; intros r; simpl.
  - split; [done|]. intros (l1 & l2 & H & _). by destruct l1.
  - destruct (decide (x = l)) as [->|Hne].
    + split.
      * intros [= <-]. exists [], ls. split; [done|]. split; [apply not_elem_of_nil | done].
      * intros (l1 & l2 & H & Hnot & ->). destruct l1 as [|y l1]; simpl in *.
        -- by injection H as <-.
        -- injection H as <- _. exfalso. apply Hnot, list_elem_of_here.
    + destruct (removeFirst l ls) as [r'|] eqn:Hr.
      * split.
        -- intros [= <-]. destruct (proj1 (IH r') eq_refl) as (l1 & l2 & -> & Hnot & ->).
           exists (x :: l1), l2. split; [done|]. split; [|done].
           intros [?|?]%elem_of_cons; [congruence | done].
        -- intros (l1 & l2 & H & Hnot & ->). destruct l1 as [|y l1]; simpl in *.
           ++ injection H as -> _. done.
           ++ injection H as <- ->. f_equal.
              assert (Some r' = Some (l1 ++ l2)) as [= ->]; [|done].
              apply IH. exists l1, l2. split; [done|]. split; [|done].
              intros ?. apply Hnot. by apply list_elem_of_further.
      * split; [done|]. intros (l1 & l2 & H & Hnot & ->). exfalso.
        destruct l1 as [|y l1]; simpl in *.
        -- injection H as -> _. done.
        -- injection H as <- ->.
           assert (None = Some (l1 ++ l2)) as [=].
           apply IH. exists l1, l2. split; [done|]. split; [|done].
           intros ?. apply Hnot. by apply list_elem_of_further.
Qed.

Lemma removeFirst_None l ls : removeFirst l ls = None <-> l ∉ ls.
Proof.
  induction ls as [|x ls IH]; simpl.
  - split; [intros _; apply not_elem_of_nil | done].
  - destruct (decide (x = l)) as [->|Hne].
    + split; [done|]. intros H. exfalso. apply H, list_elem_of_here.
    + destruct (removeFirst l ls) as [r'|].
      * split; [done|]. intros H. exfalso.
        assert (l ∉ ls) as Hn by (intros ?; apply H; by apply list_elem_of_further).
        by apply IH in Hn.
      * split; [|done]. intros _ [?|?]%elem_of_cons; [congruence|].
        by apply (proj1 IH).
Qed.

Lemma listenersOf_off event cb ctx (s : system A) e' :
  listenersOf (off event cb ctx s).2 e' =
    if decide (e' = event)
    then default (listenersOf s event) (removeFirst (Listener cb ctx) (listenersOf s event))
    else listenersOf s e'.
Proof.
  unfold off, listenersOf.
  destruct (events s !! event) as [ls|] eqn:He; simpl.
  - destruct (removeFirst (Listener cb ctx) ls) as [[|x r]|] eqn:Hr; simpl.
    + destruct (decide (e' = event)) as [->|Hne];
        [by rewrite lookup_delete_eq | by rewrite lookup_delete_ne].
    + destruct (decide (e' = event)) as [->|Hne];
        [by rewrite lookup_insert_eq | by rewrite lookup_insert_ne].
    + destruct (decide (e' = event)) as [->|Hne]; [by rewrite He | done].
  - destruct (decide (e' = event)) as [->|Hne]; [by rewrite He | done].
Qed.

(** X14: [off] removes the first listener with the given callback and
    context, and only that one: it answers [true] exactly when such a
    listener is subscribed to the event, the listeners before and after it
    keep their order, an unsuccessful [off] changes nothing, and the
    listeners of other events and the application state are untouched. *)
Theorem off_removes_first_match event cb ctx (s : system A) :
  let l := Listener cb ctx in
  let r := off event cb ctx s in
  (r.1 = true <-> l ∈ listenersOf s event) /\
  (r.1 = true ->
     exists l1 l2, listenersOf s event = l1 ++ (l :: l2) /\ (l ∉ l1) /\
       listenersOf r.2 event = l1 ++ l2) /\
  (r.1 = false -> r.2 = s) /\
  (forall e', e' <> event -> listenersOf r.2 e' = listenersOf s e') /\
  app r.2 = app s.
Proof.
  simpl. pose proof (listenersOf_off event cb ctx s) as Hl.
  unfold off in *. unfold listenersOf in *.
  destruct (events s !! event) as [ls|] eqn:He; simpl in *.
  - destruct (removeFirst (Listener cb ctx) ls) as [r|] eqn:Hr.
    + assert (Hres : (match r with
                      | [] => (true, {| events := delete event (events s); app := app s |})
                      | _ :: _ => (true, {| events := <[event := r]> (events s); app := app s |})
                      end).1 = true) by by destruct r.
      pose proof (proj1 (removeFirst_Some _ _ _) Hr) as (l1 & l2 & -> & Hnot & ->).
      split; [split; [intros _|done]|].
      { apply elem_of_app. right. apply list_elem_of_here. }
      split.
      { intros _. exists l1, l2. split; [done|]. split; [done|].
        specialize (Hl event). rewrite decide_True in Hl by done. simpl in Hl.
        by destruct (l1 ++ l2). }
      split; [by destruct (l1 ++ l2)|]. split; [|by destruct (l1 ++ l2)].
      intros e' Hne. specialize (Hl e'). rewrite decide_False in Hl by done.
      by destruct (l1 ++ l2).
    + simpl. apply removeFirst_None in Hr. split; [split; [done|]|]; [by intros ?|].
      split; [done|]. split; [done|]. split; done.
  - split; [split; [done | by intros ?%elem_of_nil]|]. split; [done|]. split; [done|].
    split; done.
Qed.

(** X15: Unsubscribing right after subscribing gives the bus back as it was,
    when no event holds an empty listener array and the same callback and
    context were not subscribed to the event already. *)
Theorem off_undoes_on event cb ctx (s : system A) :
  tidy s -> Listener cb ctx ∉ listenersOf s event ->
  off event cb ctx (on event cb ctx s) = (true, s).
Proof.
  intros Ht Hnot. unfold off, on, listenersOf in *. simpl. rewrite lookup_insert_eq.
  assert (Hrm : forall ls l, l ∉ ls -> removeFirst l (ls ++ [l]) = Some ls).
  { intros ls l Hl. apply removeFirst_Some. exists ls, []. by rewrite app_nil_r. }
  destruct (events s !! event) as [ls|] eqn:He; simpl in *.
  - rewrite Hrm by done. destruct ls as [|x ls]; [by apply Ht in He|].
    rewrite insert_insert_eq, insert_id by done. by destruct s.
  - rewrite decide_True by done. rewrite delete_insert_id by done. by destruct s.
Qed.

Lemma tidy_on event cb ctx (s : system A) : tidy s -> tidy (on event cb ctx s).
Proof.
  intros Ht e. unfold on. simpl. destruct (decide (e = event)) as [->|Hne].
  - rewrite lookup_insert_eq. intros [= H]. by destruct (listenersOf s event).
  - rewrite lookup_insert_ne by done. apply Ht.
Qed.

Lemma tidy_empty (a : A) : tidy {| events := ∅; app := a |}.
Proof. intros e. simpl. by rewrite lookup_empty. Qed.

(** X16: The bus never keeps an empty listener array: [on], [off] and [clear]
    preserve that, and then [hasListeners] is the same as the event having
    an entry; it is [true] right after [on] and [false] right after
    [clear] of the event. *)
Theorem bus_stays_tidy event cb ctx (s : system A) :
  tidy s ->
  tidy (on event cb ctx s) /\ tidy (off event cb ctx s).2 /\
  tidy (clear (Some event) s) /\ tidy (clear None s) /\
  hasListeners event s = bool_decide (is_Some (events s !! event)) /\
  hasListeners event (on event cb ctx s) = true /\
  hasListeners event (clear (Some event) s) = false.
Proof.
  intros Ht. split; [|split; [|split; [|split; [|split; [|split]]]]].
  - by apply tidy_on.
  - intros e. unfold off. destruct (events s !! event) as [ls|] eqn:He; [|apply Ht].
    destruct (removeFirst (Listener cb ctx) ls) as [[|x r]|]; simpl; [| |apply Ht].
    + destruct (decide (e = event)) as [->|Hne];
        [by rewrite lookup_delete_eq | rewrite lookup_delete_ne by done; apply Ht].
    + destruct (decide (e = event)) as [->|Hne];
        [by rewrite lookup_insert_eq | rewrite lookup_insert_ne by done; apply Ht].
  - intros e. simpl. destruct (String.eqb event ""); simpl; [by rewrite lookup_empty|].
    destruct (decide (e = event)) as [->|Hne];
      [by rewrite lookup_delete_eq | rewrite lookup_delete_ne by done; apply Ht].
  - intros e. simpl. by rewrite lookup_empty.
  - unfold hasListeners. destruct (events s !! event) as [[|x ls]|] eqn:He.
    + by apply Ht in He.
    + transitivity true; [apply bool_decide_eq_true_2; simpl; lia|].
      symmetry. apply bool_decide_eq_true_2. eauto.
    + symmetry. apply bool_decide_eq_false_2. by intros [? ?].
  - unfold hasListeners, on. simpl. rewrite lookup_insert_eq.
    apply bool_decide_eq_true_2. rewrite length_app. simpl. lia.
  - unfold hasListeners. simpl.
    destruct (String.eqb event ""); simpl; [by rewrite lookup_empty | by rewrite lookup_delete_eq].
Qed.

(** X17: [once] on an event without listeners, then one [emit]: the wrapper is
    called. It unsubscribes itself with no context given, so a listener
    registered with the [null] context is gone after the call, and one
    registered with a context object is still subscribed. (The callback
    itself is taken to leave the subscriptions alone.) *)
Theorem once_unsubscribes_null_context_only event wrapper cb ctx data (s : system A) :
  (forall this d s', code wrapper this d s' = onceWrapper code event wrapper cb ctx d s') ->
  (forall d s' s'', code cb ctx d s' = Returned s'' \/ code cb ctx d s' = Threw s'' ->
     events s'' = events s') ->
  events s !! event = None ->
  exists r,
    emit code event data (once event wrapper ctx s) = Returned r /\
    called r = [Listener wrapper ctx] /\
    listenersOf (sys r) event =
      match ctx with None => [] | Some _ => [Listener wrapper ctx] end.
Proof.
  intros Hw Hcb He. unfold emit, once, on. simpl. rewrite lookup_insert_eq.
  unfold listenersOf. rewrite He. simpl.
  unfold protectedCall, call. simpl. rewrite Hw. unfold onceWrapper.
  set (s1 := {| events := <[event := [Listener wrapper ctx]]> (events s); app := app s |}).
  assert (Hoff : listenersOf (off event wrapper None s1).2 event =
                 match ctx with None => [] | Some _ => [Listener wrapper ctx] end).
  { rewrite listenersOf_off, decide_True by done. unfold listenersOf. subst s1. simpl.
    rewrite lookup_insert_eq. simpl. destruct ctx as [c|]; simpl.
    - by rewrite decide_False.
    - by rewrite decide_True. }
  destruct (code cb ctx data (off event wrapper None s1).2) as [s3|s3] eqn:Hc; simpl;
    (eexists; split; [reflexivity|]; simpl; split; [done|]);
    unfold listenersOf in *; by rewrite (Hcb data _ s3) by eauto.
Qed.

End MoreEventBus.

(** ** Storage: reading back, removing, and the quota path *)

Section MoreStorage.

Import JS StorageManager.

Variable setItemError : gmap string text -> string -> text -> option error.
Variable parseRaw : string -> option value.
Variable coerce : value -> number.

Local Abbreviation get := (StorageManager.get parseRaw).
Local Abbreviation looksOld := (StorageManager.looksOld coerce).
Local Abbreviation cleanupStep := (StorageManager.cleanupStep parseRaw coerce).
Local Abbreviation cleanup := (StorageManager.cleanup parseRaw coerce).
Local Abbreviation set := (StorageManager.set setItemError parseRaw coerce).

(** X18: A write the browser accepts (or one to the in-memory map) answers
    [true], and the key then reads back: from [localStorage] as the JSON
    image of the value, a string as whatever it parses to (itself when it
    is no JSON text); from the in-memory map as the value itself, except
    that a stored [undefined] reads as the default. The other keys read as
    before. *)
Theorem set_then_get depth now key v d st :
  (isAvailable st = true -> setItemError (localStorage st) key (serialize v) = None) ->
  exists st',
    set (S depth) now key v st = Some (Normal true st') /\
    get key d st' =
      (if isAvailable st then
         match v with
         | VString s => default (VString s) (parseRaw s)
         | VUndefined => default (VString "undefined") (parseRaw "undefined")
         | _ => json v
         end
       else match v with VUndefined => d | _ => v end) /\
    has key st' = true /\
    forall k', k' <> key -> get k' d st' = get k' d st /\ has k' st' = has k' st.
Proof.
  intros Hok. rewrite (set_accepted setItemError parseRaw coerce depth now key v st Hok).
  eexists. split; [reflexivity|]. unfold StorageManager.get, has.
  destruct (isAvailable st) eqn:Ha; simpl; rewrite ?Ha, !lookup_insert_eq.
  - split; [|split; [apply bool_decide_eq_true_2; eauto|]].
    + destruct v; simpl; try done; by destruct (parseRaw _).
    + intros k' Hne. by rewrite lookup_insert_ne.
  - split; [by destruct v|]. split; [apply bool_decide_eq_true_2; eauto|].
    intros k' Hne. by rewrite lookup_insert_ne.
Qed.

(** X19: When [setItem] throws anything but a quota error, [set] stores the
    value in the in-memory map and answers [true]; as the manager keeps
    reading from [localStorage], the value cannot be read back: [get] and
    [has] answer as before the write. *)
Theorem set_other_error_not_readable depth now key v d st :
  isAvailable st = true ->
  setItemError (localStorage st) key (serialize v) = Some OtherError ->
  exists st',
    set (S depth) now key v st = Some (Normal true st') /\
    fallbackStorage st' !! key = Some v /\
    localStorage st' = localStorage st /\
    get key d st' = get key d st /\ has key st' = has key st.
Proof.
  intros Ha He. cbn [StorageManager.set]. rewrite Ha, He.
  eexists. split; [reflexivity|]. unfold StorageManager.get, has, fallbackSet. simpl.
  rewrite Ha, lookup_insert_eq. done.
Qed.

(** X20: [remove] makes the key read as the default and [has] answer [false],
    on [localStorage] and on the in-memory map alike, and leaves the other
    keys alone; after [clear] every key reads as the default and no key is
    listed. *)
Theorem remove_and_clear key d st :
  get key d (remove key st) = d /\ has key (remove key st) = false /\
  (forall k', k' <> key ->
     get k' d (remove key st) = get k' d st /\ has k' (remove key st) = has k' st) /\
  (forall k, get k d (clear st) = d /\ has k (clear st) = false) /\
  keys (clear st) = [].
Proof.
  unfold StorageManager.get, has, remove, clear, keys.
  destruct (isAvailable st); simpl; rewrite ?lookup_delete_eq.
  - split; [done|]. split; [apply bool_decide_eq_false_2; by intros [? ?]|].
    split; [intros k' Hne; by rewrite lookup_delete_ne|].
    split; [|by rewrite map_to_list_empty].
    intros k. rewrite lookup_empty. split; [done|].
    apply bool_decide_eq_false_2. by intros [? ?].
  - split; [done|]. split; [apply bool_decide_eq_false_2; by intros [? ?]|].
    split; [intros k' Hne; by rewrite lookup_delete_ne|].
    split; [|by rewrite map_to_list_empty].
    intros k. rewrite lookup_empty. split; [done|].
    apply bool_decide_eq_false_2. by intros [? ?].
Qed.

Lemma cleanup_fold_keeps tda ks : forall acc,
  isAvailable acc.1 = true ->
  forall k t, localStorage acc.1 !! k = Some t ->
    looksOld tda (parse parseRaw t) = false ->
    localStorage (foldl (cleanupStep tda) acc ks).1 !! k = Some t.
Proof.
  induction ks as [|k0 ks IH]; intros acc Ha k t Hk Hold; simpl; [done|].
  destruct (looksOld tda (get k0 VNull acc.1)) eqn:Hold0.
  - replace (cleanupStep tda acc k0) with (remove k0 acc.1, acc.2 + 1)
      by (unfold StorageManager.cleanupStep; by rewrite Hold0).
    apply IH; [by simpl | | done]. simpl. rewrite Ha.
    apply lookup_delete_Some. split; [|done]. intros ->.
    rewrite (get_available parseRaw k VNull acc.1 t Ha Hk) in Hold0. congruence.
  - replace (cleanupStep tda acc k0) with acc
      by (unfold StorageManager.cleanupStep; by rewrite Hold0).
    by apply IH.
Qed.

Lemma cleanup_fold_fallback tda ks : forall acc,
  fallbackStorage (foldl (cleanupStep tda) acc ks).1 ⊆ fallbackStorage acc.1.
Proof.
  induction ks as [|k0 ks IH]; intros acc; simpl; [done|].
  unfold StorageManager.cleanupStep at 2.
  destruct (looksOld tda _); [|apply IH].
  etransitivity; [apply IH|]. simpl. apply delete_subseteq.
Qed.

(** X21: A value too large for [localStorage] whatever it holds: [set]
    answers [false] and amounts to the cleanup pass. The value is written
    nowhere (both stores only lose entries), every entry that does not
    look thirty days old is kept, and none that does is left. *)
Theorem set_quota_exceeded depth now key v st :
  isAvailable st = true ->
  (forall items, setItemError items key (serialize v) = Some QuotaExceededError) ->
  (2 <= depth)%nat ->
  let st' := (cleanup now st).1 in
  set depth now key v st = Some (Normal false st') /\
  localStorage st' ⊆ localStorage st /\
  fallbackStorage st' ⊆ fallbackStorage st /\
  (forall k t, localStorage st !! k = Some t ->
     looksOld (now - thirtyDays) (parse parseRaw t) = false ->
     localStorage st' !! k = Some t) /\
  (forall k t, localStorage st' !! k = Some t ->
     looksOld (now - thirtyDays) (parse parseRaw t) = false).
Proof.
  intros Ha Hq Hd. cbv zeta.
  destruct (cleanup_twice parseRaw coerce now st Ha) as [Ha1 Hc].
  destruct (cleanup_fold_inv parseRaw coerce (now - thirtyDays) (keys st) (st, 0) Ha)
    as [_ Hinv].
  split; [|split; [|split; [|split]]].
  - destruct depth as [|[|depth]]; [lia | lia |]. clear Hd.
    cbn [StorageManager.set]. rewrite Ha, Hq.
    unfold StorageManager.handleQuotaExceeded at 1.
    destruct (cleanup now st) as [st1 n] eqn:Hcl. simpl in Ha1, Hc |- *.
    destruct (0 <? n); [|done]. rewrite Ha1, Hq.
    unfold StorageManager.handleQuotaExceeded. by rewrite Hc.
  - apply map_subseteq_spec. intros k t Hk. by apply (Hinv k t Hk).
  - apply cleanup_fold_fallback.
  - intros k t Hk Hold. by apply cleanup_fold_keeps.
  - intros k t Hk. destruct (Hinv k t Hk) as [Hst Hks]. apply Hks.
    apply keys_available; eauto.
Qed.

End MoreStorage.

(** ** State store: validation, expiry, reset and the theme *)

Section MoreState.

Import JS StateManager.

Variable setItemError :
  gmap string StorageManager.text -> string -> StorageManager.text ->
  option StorageManager.error.
Variable parseRaw : string -> option value.
Variable coerce : value -> number.
Variable cfg : config.

Local Abbreviation saveImageStates :=
  (StateManager.saveImageStates setItemError parseRaw coerce cfg).
Local Abbreviation setImageState :=
  (StateManager.setImageState setItemError parseRaw coerce cfg).
Local Abbreviation setTheme := (StateManager.setTheme setItemError parseRaw coerce cfg).
Local Abbreviation cleanupOldStates :=
  (StateManager.cleanupOldStates setItemError parseRaw coerce cfg).
Local Abbreviation create := (StateManager.create setItemError parseRaw coerce cfg).
Local Abbreviation keepValid :=
  (fun (validated : gmap string value) (entry : string * value) =>
     if validateImageState entry.2 then <[entry.1 := entry.2]> validated else validated).

Lemma keepValid_sound entries : forall validated k v,
  foldl keepValid validated entries !! k = Some v ->
  validated !! k = Some v \/ ((k, v) ∈ entries /\ validateImageState v = true).
Proof.
  induction entries as [|[k0 v0] entries IH]; intros validated k v; simpl; [auto|].
  intros [H|[Hin Hv]]%IH.
  - simpl in H. destruct (validateImageState v0) eqn:Hv0; [|auto].
    destruct (decide (k = k0)) as [->|Hne].
    + rewrite lookup_insert_eq in H. injection H as ->. right.
      split; [apply list_elem_of_here | done].
    + rewrite lookup_insert_ne in H by done. auto.
  - right. split; [by apply list_elem_of_further | done].
Qed.

Lemma validateImageStates_sound x k v :
  validateImageStates x !! k = Some v -> (k, v) ∈ enumerate x /\ ValidPlacement v.
Proof.
  unfold validateImageStates.
  destruct (negb (truthy x) || negb (isObject x)); [by rewrite lookup_empty|].
  intros [H|[Hin Hv]]%keepValid_sound; [by rewrite lookup_empty in H|].
  split; [done | by apply validateImageState_spec].
Qed.


Lemma expired_num t expiryTime r :
  getProp r "timestamp" = num t ->
  expired coerce expiryTime r =
    negb (Qeq_bool t 0) && negb (Qle_bool (inject_Z expiryTime) t).
Proof. intros H. unfold expired. by rewrite H. Qed.

(** X23: Expiry of a record with a numeric timestamp [t]: [cleanupOldStates]
    drops it exactly when [t] is not zero and lies before the horizon
    [now - stateExpiryDays] days; a record at or after the horizon, or
    with timestamp 0, stays as it is. The pass adds no record. *)
Theorem timestamp_expiry depth now w f r t :
  (2 <= depth)%nat -> images (st w) !! f = Some r -> getProp r "timestamp" = num t ->
  let horizon := inject_Z (now - stateExpiryDays cfg * 24 * 60 * 60 * 1000) in
  exists w', cleanupOldStates depth now w = Some w' /\
    ((t == 0 \/ horizon <= t)%Q -> getAllImageStates w' !! f = Some r) /\
    (~ (t == 0)%Q -> (t < horizon)%Q -> getAllImageStates w' !! f = None) /\
    (forall f' r', getAllImageStates w' !! f' = Some r' -> images (st w) !! f' = Some r').
Proof.
  intros Hd Hf Ht. cbv zeta.
  destruct (cleanupOldStates_spec setItemError parseRaw coerce cfg depth now w Hd)
    as (w' & -> & _ & _ & Himg).
  exists w'. split; [done|]. unfold getAllImageStates. rewrite Himg.
  pose proof (expired_num t (now - stateExpiryDays cfg * 24 * 60 * 60 * 1000) r Ht) as He.
  split; [|split].
  - intros Hkeep. apply map_lookup_filter_Some. split; [done|]. simpl. rewrite He.
    destruct Hkeep as [H0|Hle].
    + by rewrite (proj2 (Qeq_bool_iff t 0) H0).
    + rewrite (proj2 (Qle_bool_iff _ _) Hle). by rewrite andb_false_r.
  - intros Hnz Hlt. apply map_lookup_filter_None. right. intros r' Hr'.
    rewrite Hf in Hr'. injection Hr' as <-. simpl. rewrite He.
    assert (Qeq_bool t 0 = false) as ->
      by (apply not_true_iff_false; by intros ?%Qeq_bool_iff).
    assert (Qle_bool (inject_Z (now - stateExpiryDays cfg * 24 * 60 * 60 * 1000)) t = false)
      as -> by (apply not_true_iff_false; intros H%Qle_bool_iff; by apply Qle_not_lt in H).
    done.
  - intros f' r' H. by apply map_lookup_filter_Some in H as [? _].
Qed.

(** X24: When no record is expired, [cleanupOldStates] changes nothing at
    all: the records, the storage (nothing is written) and the event log
    are as before. *)
Theorem cleanupOldStates_nothing_expired depth now w :
  (forall f r, images (st w) !! f = Some r ->
     expired coerce (now - stateExpiryDays cfg * 24 * 60 * 60 * 1000) r = false) ->
  cleanupOldStates depth now w = Some w.
Proof.
  intros H. unfold StateManager.cleanupOldStates. cbv zeta.
  rewrite map_filter_id by (intros f r Hf; simpl; by apply (H f r)).
  replace (0 <? _) with false by (symmetry; apply Z.ltb_ge; lia).
  by destruct w as [[] ? ?].
Qed.

(** X25: [resetAllStates] forgets every record, keeps the theme, emits
    ['state:reset'] and removes the stored map, so that a reload of the
    page finds no record either: before and after the reload
    [getImageState] gives [null] for every filename that is no property
    name of [Object.prototype], and the inherited member for one that
    is. *)
Theorem reset_then_reload depth now w :
  let w1 := resetAllStates cfg w in
  let unknown f :=
    if bool_decide (f ∈ objectPrototypeNames) then Inherited f else Data VNull in
  getAllImageStates w1 = ∅ /\ (forall f, getImageState f w1 = unknown f) /\
  theme (st w1) = theme (st w) /\ emitted w1 = emitted w ++ [StateReset] /\
  exists w2, create depth now (storage w1) = Some w2 /\
    getAllImageStates w2 = ∅ /\ (forall f, getImageState f w2 = unknown f).
Proof.
  cbv zeta. unfold resetAllStates, getAllImageStates, getImageState. simpl.
  split; [done|]. split; [intros f; by rewrite lookup_empty|]. split; [done|].
  split; [done|].
  assert (Hget : StorageManager.get parseRaw (imageStatesKey cfg) (VObject [])
                   (StorageManager.remove (imageStatesKey cfg) (storage w)) = VObject []).
  { unfold StorageManager.get, StorageManager.remove.
    destruct (StorageManager.isAvailable (storage w)); simpl; by rewrite lookup_delete_eq. }
  unfold StateManager.create, StateManager.loadState, StateManager.cleanupOldStates.
  cbv zeta. simpl. rewrite Hget. unfold validateImageStates. simpl.
  rewrite map_filter_empty. rewrite map_size_empty. simpl.
  eexists. split; [reflexivity|]. simpl. split; [done|]. intros f. by rewrite lookup_empty.
Qed.

Lemma validateTheme_range v : validateTheme v = "light"%string \/ validateTheme v = "dark"%string.
Proof. destruct (validateTheme_cases v) as [[_ ->]|[_ ->]]; auto. Qed.

Lemma validateTheme_fixed s :
  s = "light"%string \/ s = "dark"%string -> validateTheme (VString s) = s.
Proof. by intros [->| ->]. Qed.

(** X26: A change of theme survives a reload: when the storage takes the
    write, a manager constructed over it afterwards has the theme that
    [setTheme] settled on. (Neither theme name is JSON text.) *)
Theorem theme_survives_reload depth depth' now now' v w :
  parseRaw "light" = None -> parseRaw "dark" = None ->
  validateTheme v <> theme (st w) ->
  (StorageManager.isAvailable (storage w) = true ->
   setItemError (StorageManager.localStorage (storage w)) (themeKey cfg)
     (StorageManager.Raw (validateTheme v)) = None) ->
  (2 <= depth')%nat ->
  exists w1, setTheme (S depth) now v w = Some w1 /\
    theme (st w1) = validateTheme v /\
    emitted w1 = emitted w ++ [ThemeUpdated (validateTheme v)] /\
    exists w2, create depth' now' (storage w1) = Some w2 /\
      theme (st w2) = validateTheme v.
Proof.
  intros Hl Hdk Hne Hok Hd. unfold StateManager.setTheme.
  rewrite (proj2 (String.eqb_neq _ _) Hne). cbn [negb].
  unfold StateManager.storageSet. rewrite set_accepted by exact Hok. simpl.
  eexists. split; [reflexivity|]. simpl. split; [done|]. split; [done|].
  unfold StateManager.create, StateManager.loadState.
  match goal with |- context [cleanupOldStates _ _ ?w1] =>
    destruct (cleanupOldStates_spec setItemError parseRaw coerce cfg depth' now' w1 Hd)
      as (w2 & -> & _ & Hth & _) end.
  exists w2. split; [done|]. rewrite Hth. simpl.
  assert (Hp : parseRaw (validateTheme v) = None)
    by (destruct (validateTheme_range v) as [-> | ->]; done).
  replace (StorageManager.get parseRaw (themeKey cfg) (VString "light") _)
    with (VString (validateTheme v)).
  - apply validateTheme_fixed, validateTheme_range.
  - unfold StorageManager.get.
    destruct (StorageManager.isAvailable (storage w)) eqn:Ha; simpl;
      rewrite ?Ha, lookup_insert_eq.
    + simpl. by rewrite Hp.
    + done.
Qed.

(** X27: The invariant of the state store: the theme is light or dark and
    every record held satisfies the invariant of the data model. It holds
    of a freshly constructed manager and is kept by [setImageState],
    [setTheme], [resetAllStates] and [cleanupOldStates], none of which
    raises. *)
Theorem state_invariant depth now s :
  (2 <= depth)%nat ->
  let good w :=
    (theme (st w) = "light"%string \/ theme (st w) = "dark"%string) /\
    forall f r, getAllImageStates w !! f = Some r -> ValidPlacement r in
  (exists w, create depth now s = Some w /\ good w) /\
  forall w now', good w ->
    (forall f x, exists b w', setImageState depth now' f x w = Some (b, w') /\ good w') /\
    (forall v, exists w', setTheme depth now' v w = Some w' /\ good w') /\
    good (resetAllStates cfg w) /\
    (exists w', cleanupOldStates depth now' w = Some w' /\ good w').
Proof.
  intros Hd. cbv zeta. split.
  - unfold StateManager.create, StateManager.loadState.
    match goal with |- context [cleanupOldStates _ _ ?w1] =>
      destruct (cleanupOldStates_spec setItemError parseRaw coerce cfg depth now w1 Hd)
        as (w2 & -> & _ & Hth & Himg) end.
    exists w2. split; [done|]. unfold getAllImageStates. rewrite Hth, Himg. simpl.
    split; [apply validateTheme_range|].
    intros f r [Hr _]%map_lookup_filter_Some.
    by apply validateImageStates_sound in Hr as [_ ?].
  - intros w now' [Hth Himg]. unfold getAllImageStates in *. split; [|split; [|split]].
    + intros f x. unfold StateManager.setImageState.
      destruct (validateImageState x) eqn:Hx; simpl; [|by exists false, w].
      match goal with |- context [saveImageStates _ _ ?w1] =>
        destruct (saveImageStates_total setItemError parseRaw coerce cfg depth now' w1 Hd)
          as (s' & ->) end.
      simpl. eexists _, _. split; [reflexivity|]. simpl. split; [done|].
      intros f' r. destruct (String.eqb f "__proto__"); [apply Himg|].
      destruct (decide (f' = f)) as [->|Hne].
      * rewrite lookup_insert_eq. intros [= <-].
        by apply ValidPlacement_stamp, validateImageState_spec.
      * rewrite lookup_insert_ne by done. apply Himg.
    + intros v.
      destruct (setTheme_spec setItemError parseRaw coerce cfg depth now' v w Hd) as (s' & ->).
      eexists. split; [reflexivity|].
      destruct (String.eqb _ _); simpl; [done|]. split; [apply validateTheme_range | done].
    + unfold resetAllStates. simpl. split; [done|]. intros f r. by rewrite lookup_empty.
    + destruct (cleanupOldStates_spec setItemError parseRaw coerce cfg depth now' w Hd)
        as (w' & -> & _ & Hth' & Himg').
      exists w'. split; [done|]. rewrite Hth', Himg'. split; [done|].
      intros f r [Hr _]%map_lookup_filter_Some. by apply (Himg f r).
Qed.

End MoreState.

(** ** The further properties at concrete inputs *)

(** A 50 x 50 box at (30, 30) against the single tile of the page. *)
Lemma wouldOverlap_spec_witness :
  exists b, ImageManager.wouldOverlap ImageManager.default_config Scenario.oneTile
              30 30 50 50 (-1) = Some b.
Proof.
  destruct (wouldOverlap_spec ImageManager.default_config Scenario.oneTile 30 30 50 50 (-1))
    as (b & Hb & _); [simpl; lia|].
  exists b. exact Hb.
Defined.

(** The 1000 x 1000 image of the scenario on the 800px canvas. *)
Lemma scaledSize_bounds_witness :
  let s := ImageManager.scaledSize ImageManager.default_config 800 (1000, 1000) in
  0 <= s.1 /\ s.1 + 10 <= 800 /\ 2 * s.1 <= 1000 /\ 0 <= s.2 /\ 2 * s.2 <= 1000.
Proof.
  apply (scaledSize_bounds ImageManager.default_config 800 1000 1000); lia.
Defined.

(** The second grid cell of a 50 x 50 tile on the 800px canvas. *)
Lemma calculatePosition_within_witness :
  let p := ImageManager.calculatePosition 800 (50, 50) (Z.of_nat 1) in
  10 <= p.1 /\ 10 <= p.2 /\ (50 + 20 <= 800 -> p.1 + 50 + 10 <= 800) /\
  (800 < 50 + 20 -> p.1 = 10).
Proof.
  apply (calculatePosition_within 800 50 50 1); lia.
Defined.

(** A free grid point for a second 50 x 50 tile on the one-tile page. *)
Lemma tryGridPlacement_sound_witness :
  exists r, ImageManager.tryGridPlacement ImageManager.default_config Scenario.oneTile
              50 50 800 600 = Some r.
Proof.
  destruct (tryGridPlacement_sound ImageManager.default_config Scenario.oneTile 50 50 800 600)
    as (r & Hr & _); [simpl; lia | reflexivity |].
  exists r. exact Hr.
Defined.




(** The wide page after a.png was dropped at the right-hand edge. *)
Lemma page_follows_manager_witness :
  exists w',
    Fractional.run DragHandler.default_config ImageManager.default_config Scenario.widePage
      Scenario.dragToTheEdge = Some w' /\
    length (Fractional.dom w') = length (Fractional.positions (Fractional.im w')).
Proof.
  destruct (page_follows_manager DragHandler.default_config ImageManager.default_config
              (2001 # 2) ["a.png"; "b.png"]%string
              {| Fractional.positions := [(10, 10); (400, 400)]%Q;
                 Fractional.sizes := [(250, 250); (50, 50)]%Q |}
              Scenario.dragToTheEdge eq_refl)
    as (w' & Hrun & Hlen & _).
  exists w'. split; [exact Hrun | exact Hlen].
Defined.


(** Pointer moves outside a gesture, with the ratio free. *)
Lemma gesture_free_resize_witness :
  ResizeHandler.moves Scenario.freeRatio (ResizeHandler.resting (100, 50)%Q) [(10, 0)%Q] = [].
Proof.
  exact (proj2 (gesture_free_resize Scenario.freeRatio 100 50 0 (0, 0)%Q [(10, 0)%Q]
                  eq_refl eq_refl)).
Defined.

Lemma busOfTwo_tidy : EventBus.tidy Scenario.busOfTwo.
Proof. apply tidy_on, tidy_on, tidy_empty. Qed.

(** A third listener subscribed to ["tick"] and unsubscribed again. *)
Lemma off_undoes_on_witness :
  EventBus.off "tick" 2 None (EventBus.on "tick" 2 None Scenario.busOfTwo)
  = (true, Scenario.busOfTwo).
Proof.
  apply (off_undoes_on "tick" 2 None Scenario.busOfTwo).
  - exact busOfTwo_tidy.
  - vm_compute. intros H.
    repeat (apply elem_of_cons in H as [H|H]; [discriminate|]). by apply elem_of_nil in H.
Defined.

(** The bus of the two listeners. *)
Lemma bus_stays_tidy_witness :
  EventBus.hasListeners "tick" Scenario.busOfTwo = true /\
  EventBus.hasListeners "tick" (EventBus.clear (Some "tick"%string) Scenario.busOfTwo) = false.
Proof.
  destruct (bus_stays_tidy "tick" 2 None Scenario.busOfTwo busOfTwo_tidy)
    as (_ & _ & _ & _ & _ & _ & H).
  split; [reflexivity | exact H].
Defined.

(** A once-listener with a context object on an empty bus: it is still
    subscribed after the event. *)
Lemma once_unsubscribes_null_context_only_witness :
  exists r,
    EventBus.emit Scenario.onceCode "tick" 3
      (EventBus.once "tick" 5 (Some 7%nat) {| EventBus.events := ∅; EventBus.app := 0 |})
    = EventBus.Returned r /\
    EventBus.listenersOf (EventBus.sys r) "tick" = [EventBus.Listener 5 (Some 7%nat)].
Proof.
  destruct (once_unsubscribes_null_context_only Scenario.onceCode "tick" 5 1 (Some 7%nat) 3
              {| EventBus.events := ∅; EventBus.app := 0 |})
    as (r & Hr & _ & Hl).
  - intros this d s'. reflexivity.
  - intros d s' s'' [H|H]; simpl in H; [injection H as <-; reflexivity | discriminate].
  - reflexivity.
  - exists r. split; [exact Hr | exact Hl].
Defined.

(** A small object written to an empty, working storage and read back. *)
Lemma set_then_get_witness :
  exists st',
    StorageManager.set (Browser.capacity 10) Browser.parseRaw Browser.coerce 1 Browser.now
      "k" Browser.payload (StateManager.storage Browser.freshWorld)
    = Some (StorageManager.Normal true st') /\
    StorageManager.get Browser.parseRaw "k" JS.VNull st' = Browser.payload.
Proof.
  destruct (set_then_get (Browser.capacity 10) Browser.parseRaw Browser.coerce 0 Browser.now
              "k" Browser.payload JS.VNull (StateManager.storage Browser.freshWorld))
    as (st' & Hset & Hget & _).
  - intros _. vm_compute. reflexivity.
  - exists st'. split; [exact Hset | exact Hget].
Defined.

(** A write to a storage whose [setItem] fails otherwise than by quota. *)
Lemma set_other_error_not_readable_witness :
  exists st',
    StorageManager.set Browser.broken Browser.parseRaw Browser.coerce 1 Browser.now
      "k" Browser.payload Browser.withPlainEntry
    = Some (StorageManager.Normal true st') /\
    StorageManager.get Browser.parseRaw "k" JS.VNull st' = JS.VNull.
Proof.
  destruct (set_other_error_not_readable Browser.broken Browser.parseRaw Browser.coerce 0
              Browser.now "k" Browser.payload JS.VNull Browser.withPlainEntry eq_refl eq_refl)
    as (st' & Hset & _ & _ & Hget & _).
  exists st'. split; [exact Hset | exact Hget].
Defined.

(** A payload over the quota, written to the storage with the old entry. *)
Lemma set_quota_exceeded_witness :
  StorageManager.set (Browser.tooLargeFor "k") Browser.parseRaw Browser.coerce 2 Browser.now
    "k" Browser.payload Browser.withOldEntry
  = Some (StorageManager.Normal false
            (StorageManager.cleanup Browser.parseRaw Browser.coerce Browser.now
               Browser.withOldEntry).1).
Proof.
  refine (proj1 (set_quota_exceeded (Browser.tooLargeFor "k") Browser.parseRaw Browser.coerce
                   2 Browser.now "k" Browser.payload Browser.withOldEntry eq_refl _ _)).
  - intros items. reflexivity.
  - lia.
Defined.

(** The record stamped in 1970 is dropped by the cleanup of today. *)
Lemma timestamp_expiry_witness :
  exists w',
    StateManager.cleanupOldStates (Browser.capacity 10) Browser.parseRaw Browser.coerce
      StateManager.default_config 2 Browser.now Browser.stampedWorld = Some w' /\
    StateManager.getAllImageStates w' !! "a.png"%string = None.
Proof.
  pose proof (timestamp_expiry (Browser.capacity 10) Browser.parseRaw Browser.coerce
                StateManager.default_config 2 Browser.now Browser.stampedWorld "a.png"
                _ 1%Q ltac:(lia) ltac:(vm_compute; reflexivity) eq_refl) as H.
  cbv zeta in H. destruct H as (w' & Hc & _ & Hdrop & _).
  exists w'. split; [exact Hc|]. apply Hdrop.
  - vm_compute. discriminate.
  - vm_compute. reflexivity.
Defined.

(** The page whose only record has no timestamp: the cleanup is a no-op. *)
Lemma cleanupOldStates_nothing_expired_witness :
  StateManager.cleanupOldStates (Browser.capacity 10) Browser.parseRaw Browser.coerce
    StateManager.default_config 0 Browser.now Browser.unstampedWorld
  = Some Browser.unstampedWorld.
Proof.
  apply (cleanupOldStates_nothing_expired (Browser.capacity 10) Browser.parseRaw
           Browser.coerce StateManager.default_config 0 Browser.now Browser.unstampedWorld).
  intros f r H. simpl in H. apply lookup_singleton_Some in H as [_ <-]. reflexivity.
Defined.

(** The fresh page switched to dark, and reloaded. *)
Lemma theme_survives_reload_witness :
  exists w1 w2,
    StateManager.setTheme (Browser.capacity 10) Browser.parseRaw Browser.coerce
      StateManager.default_config 1 Browser.now (JS.VString "dark") Browser.freshWorld
    = Some w1 /\
    StateManager.create (Browser.capacity 10) Browser.parseRaw Browser.coerce
      StateManager.default_config 2 (Browser.now + 1000) (StateManager.storage w1) = Some w2 /\
    StateManager.theme (StateManager.st w2) = "dark"%string.
Proof.
  destruct (theme_survives_reload (Browser.capacity 10) Browser.parseRaw Browser.coerce
              StateManager.default_config 0 2 Browser.now (Browser.now + 1000)
              (JS.VString "dark") Browser.freshWorld)
    as (w1 & H1 & _ & _ & w2 & H2 & H3).
  - reflexivity.
  - reflexivity.
  - vm_compute. discriminate.
  - intros _. vm_compute. reflexivity.
  - lia.
  - exists w1, w2. split; [exact H1|]. split; [exact H2 | exact H3].
Defined.

(** A manager constructed over the storage with the old entry. *)
Lemma state_invariant_witness :
  exists w,
    StateManager.create (Browser.capacity 10) Browser.parseRaw Browser.coerce
      StateManager.default_config 2 Browser.now Browser.withOldEntry = Some w /\
    (StateManager.theme (StateManager.st w) = "light"%string \/
     StateManager.theme (StateManager.st w) = "dark"%string).
Proof.
  pose proof (state_invariant (Browser.capacity 10) Browser.parseRaw Browser.coerce
                StateManager.default_config 2 Browser.now Browser.withOldEntry ltac:(lia)) as H.
  cbv zeta in H. destruct H as [(w & Hc & Hth & _) _].
  exists w. split; [exact Hc | exact Hth].
Defined.

(** A drag of the single tile of the page, to the release. *)
Lemma drag_frame_witness :
  exists w',
    DragHandler.run DragHandler.default_config ImageManager.default_config Scenario.onePage
      [DragHandler.PointerDown 0 false 20 20; DragHandler.PointerMove 30 30;
       DragHandler.PointerUp] = Some w' /\
    ImageManager.sizes (DragHandler.im w') = [(50, 50)].
Proof.
  destruct (DragHandler.run DragHandler.default_config ImageManager.default_config
              Scenario.onePage
              [DragHandler.PointerDown 0 false 20 20; DragHandler.PointerMove 30 30;
               DragHandler.PointerUp]) as [w'|] eqn:Hrun; [|vm_compute in Hrun; discriminate].
  exists w'. split; [reflexivity|].
  exact (proj1 (drag_frame DragHandler.default_config ImageManager.default_config _ _ _ Hrun)).
Defined.
